(** * gita: registry and dispatcher

    A shallow embedding of [gita/utils.py] and [gita/__main__.py]:
    the repository registry ([get_repos], [add_repos], [rename_repo],
    [write_to_repo_file], [f_rm]), the command dispatcher ([f_git_cmd],
    [run_async], [exec_async_tasks]) and the status listing ([describe]).

    Python [str] values are [string]s whose characters are read as code
    points below 256.  A [dict] is an association list in insertion order
    with unique keys, as CPython iterates it.  The filesystem, the working
    directory, what the child processes return and in which order they
    finish, the iteration order of hash sets and the probe functions of
    [gita.info] are parameters.  What a child process writes is a string
    of bytes; the text that [decode] makes of it is kept as these bytes.
    Starting a child process, printing and writing the path file are taken
    to succeed; an uncaught exception ends the run with the world as it
    was when it was raised. *)

From Stdlib Require Import String Ascii List Bool Arith Lia ZArith
  Permutation Sorted DecimalString.
Import ListNotations.

Local Open Scope string_scope.
Local Open Scope list_scope.

Set Implicit Arguments.

(** String concatenation, kept apart from list append. *)
Infix "+++" := String.append (right associativity, at level 60).

(** ** Python strings *)

Module Str.

Definition is_empty (s : string) : bool :=
  match s with EmptyString => true | String _ _ => false end.

(** [str.isspace] on one character, for code points below 256. *)
Definition isspace (c : ascii) : bool :=
  let n := nat_of_ascii c in
  (((9 <=? n) && (n <=? 13)) || ((28 <=? n) && (n <=? 32))
   || (n =? 133) || (n =? 160))%nat.

(** [s.rstrip()] *)
Fixpoint rstrip (s : string) : string :=
  match s with
  | EmptyString => EmptyString
  | String c r =>
      let r' := rstrip r in
      if is_empty r' && isspace c then EmptyString else String c r'
  end.

(** [s.rstrip(c)] for a single character [c] *)
Fixpoint rstrip_char (x : ascii) (s : string) : string :=
  match s with
  | EmptyString => EmptyString
  | String c r =>
      let r' := rstrip_char x r in
      if is_empty r' && Ascii.eqb c x then EmptyString else String c r'
  end.

(** [s.split(sep)] for a single character [sep]: never the empty list. *)
Fixpoint split (sep : ascii) (s : string) : list string :=
  match s with
  | EmptyString => [EmptyString]
  | String c r =>
      if Ascii.eqb c sep then EmptyString :: split sep r
      else match split sep r with
           | h :: t => String c h :: t
           | [] => [String c EmptyString]
           end
  end.

(** [c in s] *)
Fixpoint contains (x : ascii) (s : string) : bool :=
  match s with
  | EmptyString => false
  | String c r => Ascii.eqb c x || contains x r
  end.

(** [s.startswith(c)], [s.endswith(c)] *)
Definition startswith (x : ascii) (s : string) : bool :=
  match s with String c _ => Ascii.eqb c x | EmptyString => false end.

Fixpoint endswith (x : ascii) (s : string) : bool :=
  match s with
  | EmptyString => false
  | String c EmptyString => Ascii.eqb c x
  | String _ r => endswith x r
  end.

(** [all(c == x for c in s)] *)
Fixpoint all_char (x : ascii) (s : string) : bool :=
  match s with
  | EmptyString => true
  | String c r => Ascii.eqb c x && all_char x r
  end.

(** [c * n] *)
Fixpoint repeat_char (x : ascii) (n : nat) : string :=
  match n with O => EmptyString | S k => String x (repeat_char x k) end.

(** [f'{s:<{w}}']: left-justified in a field of [w] characters. *)
Definition ljust (w : nat) (s : string) : string :=
  s +++ repeat_char " " (w - String.length s).

(** [f'{s:>{w}}']: right-justified, the padding on the left. *)
Definition rjust (w : nat) (s : string) : string :=
  repeat_char " " (w - String.length s) +++ s.

(** [str(n)] for a natural number *)
Definition of_nat (n : nat) : string :=
  NilZero.string_of_uint (Nat.to_uint n).

(** [sorted(l)] on strings: insertion by code-point order. *)
Fixpoint insert_sorted (x : string) (l : list string) : list string :=
  match l with
  | [] => [x]
  | y :: t => if String.leb x y then x :: l else y :: insert_sorted x t
  end.

Fixpoint sorted (l : list string) : list string :=
  match l with
  | [] => []
  | x :: t => insert_sorted x (sorted t)
  end.

(** [max(len(n) for n in l)], for a non-empty [l]. *)
Fixpoint max_len (l : list string) : nat :=
  match l with
  | [] => 0
  | x :: t => Nat.max (String.length x) (max_len t)
  end.

(** [s.count(x)] for a single character [x] *)
Fixpoint count (x : ascii) (s : string) : nat :=
  match s with
  | EmptyString => 0
  | String c r => (if Ascii.eqb c x then 1 else 0) + count x r
  end.

End Str.

(** ** bytes *)

Module Bytes.

(** The byte lies in [lo..hi]. *)
Definition between (lo hi : nat) (c : ascii) : bool :=
  let n := nat_of_ascii c in ((lo <=? n) && (n <=? hi))%nat.

(** A continuation byte, [0x80..0xBF]. *)
Definition cont (c : ascii) : bool := between 128 191 c.

(** Whether the bytes are well-formed UTF-8, as the strict codec of
    [bytes.decode()] wants them: no stray or missing continuation byte,
    no overlong form, no surrogate, nothing above U+10FFFF. *)
Fixpoint utf8_valid (b : string) : bool :=
  match b with
  | EmptyString => true
  | String c0 r0 =>
      let n := nat_of_ascii c0 in
      if (n <? 128)%nat then utf8_valid r0
      else if between 194 223 c0 then
        match r0 with
        | String c1 r1 => cont c1 && utf8_valid r1
        | _ => false
        end
      else if between 224 239 c0 then
        match r0 with
        | String c1 (String c2 r2) =>
            between (if (n =? 224)%nat then 160 else 128)
                    (if (n =? 237)%nat then 159 else 191) c1
            && cont c2 && utf8_valid r2
        | _ => false
        end
      else if between 240 244 c0 then
        match r0 with
        | String c1 (String c2 (String c3 r3)) =>
            between (if (n =? 240)%nat then 144 else 128)
                    (if (n =? 244)%nat then 143 else 191) c1
            && cont c2 && cont c3 && utf8_valid r3
        | _ => false
        end
      else false
  end.

End Bytes.

(** ** posixpath *)

Module Posixpath.

Definition sep : ascii := "/"%char.

(** [head, tail = p[:i], p[i:]] with [i = p.rfind('/') + 1]. *)
Fixpoint rsplit_sep (p : string) : string * string :=
  match p with
  | EmptyString => (EmptyString, EmptyString)
  | String c r =>
      let '(h, t) := rsplit_sep r in
      if negb (Str.is_empty h) then (String c h, t)
      else if Ascii.eqb c sep then (String c EmptyString, t)
      else (EmptyString, String c t)
  end.

(** [os.path.basename] *)
Definition basename (p : string) : string := snd (rsplit_sep p).

(** [os.path.dirname] *)
Definition dirname (p : string) : string :=
  let head := fst (rsplit_sep p) in
  if negb (Str.is_empty head) && negb (Str.all_char sep head)
  then Str.rstrip_char sep head
  else head.

(** [os.path.join(a, b)] *)
Definition join (a b : string) : string :=
  if Str.startswith sep b then b
  else if Str.is_empty a || Str.endswith sep a then a +++ b
  else a +++ String sep b.

(** [os.path.isabs] *)
Definition isabs (p : string) : bool := Str.startswith sep p.

(** The loop of [normpath] over the components, [acc] being [new_comps]
    reversed. *)
Fixpoint norm_comps (initial_slashes : nat) (comps : list string)
    (acc : list string) : list string :=
  match comps with
  | [] => rev acc
  | comp :: rest =>
      if String.eqb comp EmptyString || String.eqb comp "." then
        norm_comps initial_slashes rest acc
      else if negb (String.eqb comp "..")
              || ((initial_slashes =? 0)%nat
                  && match acc with [] => true | _ => false end)
              || match acc with
                 | last :: _ => String.eqb last ".."
                 | [] => false
                 end
      then norm_comps initial_slashes rest (comp :: acc)
      else match acc with
           | _ :: acc' => norm_comps initial_slashes rest acc'
           | [] => norm_comps initial_slashes rest acc
           end
  end.

(** [os.path.normpath] *)
Definition normpath (path : string) : string :=
  if Str.is_empty path then "."
  else
    let initial_slashes :=
      if negb (Str.startswith sep path) then 0
      else if String.prefix "//" path && negb (String.prefix "///" path)
      then 2 else 1 in
    let comps := norm_comps initial_slashes (Str.split sep path) [] in
    let path' :=
      Str.repeat_char sep initial_slashes +++ String.concat "/" comps in
    if Str.is_empty path' then "." else path'.

(** [os.path.abspath], with the working directory as a parameter. *)
Definition abspath (cwd path : string) : string :=
  normpath (if isabs path then path else join cwd path).

End Posixpath.

(** ** dict *)

Module Dict.

(** A [Dict[str, str]]: (key, value) pairs in insertion order. *)
Definition t := list (string * string).

(** [d[k]], [None] standing for [KeyError]. *)
Fixpoint get (d : t) (k : string) : option string :=
  match d with
  | [] => None
  | (k', v) :: r => if String.eqb k' k then Some v else get r k
  end.

(** [k in d] *)
Definition mem (d : t) (k : string) : bool :=
  match get d k with Some _ => true | None => false end.

(** [d[k] = v]: an existing key keeps its position, a new one goes last. *)
Fixpoint set (d : t) (k v : string) : t :=
  match d with
  | [] => [(k, v)]
  | (k', v') :: r =>
      if String.eqb k' k then (k', v) :: r else (k', v') :: set r k v
  end.

(** [del d[k]] for a key that is present. *)
Fixpoint del (d : t) (k : string) : t :=
  match d with
  | [] => []
  | (k', v') :: r => if String.eqb k' k then r else (k', v') :: del r k
  end.

Definition keys (d : t) : list string := map fst d.
Definition values (d : t) : list string := map snd d.

End Dict.

(** ** Exceptions, the world and the monad of effects *)

Inductive exn : Type :=
| KeyError (k : string)
| ValueError
| IndexError
| TypeError
| UnicodeDecodeError
| SystemExit.

Inductive result (A : Type) : Type :=
| Ok (a : A)
| Raise (e : exn).
Arguments Ok {A} a.
Arguments Raise {A} e.

(** What the process does to the outside, in order. *)
Inductive event : Type :=
| EPrint (s : string)
    (** [print(s)] *)
| ERun (cmds : list string) (cwd : string)
    (** [subprocess.run(cmds, cwd=cwd)]: synchronous, stdio inherited *)
| EAsyncExec (cmds : list string) (cwd : string)
    (** [asyncio.create_subprocess_exec] of [cmds] with [stdin=DEVNULL],
        [stdout=PIPE], [stderr=PIPE], [start_new_session=True], [cwd=cwd] *)
| EGathered (n : nat)
    (** [loop.run_until_complete] of the [asyncio.gather] of [n] tasks has
        returned and the loop is closed *).

(** What a finished child process leaves behind: its exit status and the
    bytes that [communicate()] read from its two pipes. *)
Record proc : Type := mkProc {
  returncode : Z;
  stdout : string;
  stderr : string
}.

Record world : Type := mkWorld {
  store_file : option string;   (** contents of [get_path_fname()], if a file *)
  repos_cache : option Dict.t;  (** the [lru_cache] of [get_repos] *)
  trace : list event;           (** events so far, oldest first *)
  spawned : nat                 (** child processes started so far *)
}.

(** A process that has just started. *)
Definition fresh (file : option string) : world :=
  mkWorld file None [] 0.

Definition M (A : Type) : Type := world -> result A * world.

Definition ret {A} (a : A) : M A := fun w => (Ok a, w).
Definition raise {A} (e : exn) : M A := fun w => (Raise e, w).
Definition bind {A B} (m : M A) (k : A -> M B) : M B :=
  fun w => match m w with
           | (Ok a, w') => k a w'
           | (Raise e, w') => (Raise e, w')
           end.

Notation "x <- m ;; k" := (bind m (fun x => k))
  (at level 61, m at next level, right associativity).
Notation "m ;;; k" := (bind m (fun _ => k))
  (at level 61, right associativity).

Definition lift {A} (r : result A) : M A := fun w => (r, w).

Definition emit (e : event) : M unit :=
  fun w => (Ok tt, mkWorld (store_file w) (repos_cache w)
                           (trace w ++ [e]) (spawned w)).

Definition print (s : string) : M unit := emit (EPrint s).

(** [for x in xs: body(x)] *)
Fixpoint for_each {A} (xs : list A) (body : A -> M unit) : M unit :=
  match xs with
  | [] => ret tt
  | x :: r => body x ;;; for_each r body
  end.

(** The newline character and the line [f'{path},{name}\n']. *)
Definition nl : string := String "010"%char EmptyString.
Definition cr : ascii := "013"%char.
Definition lf : ascii := "010"%char.
Definition comma : ascii := ","%char.

Definition store_line (path name : string) : string :=
  path +++ "," +++ name +++ nl.

(** [for line in f] on a file opened in text mode: lines end at [\n], [\r]
    or [\r\n], each read back with a final [\n]; a last line without
    terminator is yielded as it is. *)
Fixpoint readlines_from (cur s : string) : list string :=
  match s with
  | EmptyString => if Str.is_empty cur then [] else [cur]
  | String c r =>
      if Ascii.eqb c lf then (cur +++ nl) :: readlines_from EmptyString r
      else if Ascii.eqb c cr then
        match r with
        | String c' r' =>
            if Ascii.eqb c' lf
            then (cur +++ nl) :: readlines_from EmptyString r'
            else (cur +++ nl) :: readlines_from EmptyString r
        | EmptyString => (cur +++ nl) :: readlines_from EmptyString r
        end
      else readlines_from (cur +++ String c EmptyString) r
  end.

Definition readlines (s : string) : list string :=
  readlines_from EmptyString s.

Inductive file_mode : Type := ModeW | ModeAPlus.

(** ** The program *)

Section Gita.

(** [os.path.exists] on the filesystem of the run. *)
Variable path_exists : string -> bool.
(** [os.getcwd()] *)
Variable getcwd : string.
(** The order in which a hash [set] of strings built from the given
    distinct elements is iterated. *)
Variable set_iter : list string -> list string.
(** What the [n]-th child process started by this run leaves behind. *)
Variable outcome : nat -> proc.
(** The order in which [n] concurrent tasks complete, as positions in the
    order of submission. *)
Variable completion_order : nat -> list nat.
(** [info.get_info_funcs()]: the probes of the [ll] listing. *)
Variable info_funcs : list (string -> string).

(** *** utils.py *)

Definition is_git (path : string) : bool :=
  let loc := Posixpath.join path ".git" in
  path_exists loc.

(** The body of the loop over the lines of the path file. *)
Definition load_line (repos : Dict.t) (line : string) : result Dict.t :=
  let line := Str.rstrip line in
  if Str.is_empty line then Ok repos
  else
    match Str.split comma line with
    | [path; name] =>
        if negb (is_git path) then Ok repos
        else if negb (Dict.mem repos name) then
          Ok (Dict.set repos name path)
        else
          let par_name := Posixpath.basename (Posixpath.dirname path) in
          Ok (Dict.set repos (Posixpath.join par_name name) path)
    | _ => Raise ValueError
    end.

Fixpoint load_lines (lines : list string) (repos : Dict.t)
  : result Dict.t :=
  match lines with
  | [] => Ok repos
  | line :: rest =>
      match load_line repos line with
      | Ok repos' => load_lines rest repos'
      | Raise e => Raise e
      end
  end.

(** The body of [get_repos], below its [lru_cache]. *)
Definition read_repos (file : option string) : result Dict.t :=
  match file with
  | Some s =>
      if negb (Str.is_empty s) then load_lines (readlines s) [] else Ok []
  | None => Ok []
  end.

(** [get_repos()]: the first successful call fills the cache, later calls
    return the cached object. *)
Definition get_repos : M Dict.t :=
  fun w =>
    match repos_cache w with
    | Some repos => (Ok repos, w)
    | None =>
        match read_repos (store_file w) with
        | Ok repos =>
            (Ok repos,
             mkWorld (store_file w) (Some repos) (trace w) (spawned w))
        | Raise e => (Raise e, w)
        end
    end.

(** The cached object is the one the callers mutate: a mutation of it is
    a write to the cache. *)
Definition mutate_repos (repos : Dict.t) : M unit :=
  fun w => (Ok tt, mkWorld (store_file w) (Some repos) (trace w) (spawned w)).

Definition store_data (repos : Dict.t) : string :=
  String.concat EmptyString
    (map (fun '(name, path) => store_line path name) repos).

Definition write_to_repo_file (repos : Dict.t) (mode : file_mode) : M unit :=
  fun w =>
    let data := store_data repos in
    let contents :=
      match mode, store_file w with
      | ModeAPlus, Some old => old +++ data
      | _, _ => data
      end in
    (Ok tt, mkWorld (Some contents) (repos_cache w) (trace w) (spawned w)).

(** [rename_repo]; the mutated [repos] is returned. *)
Definition rename_repo (repos : Dict.t) (repo new_name : string)
  : M Dict.t :=
  match Dict.get repos repo with
  | None => raise (KeyError repo)
  | Some path =>
      let repos := Dict.del repos repo in
      let repos := Dict.set repos new_name path in
      write_to_repo_file repos ModeW ;;;
      ret repos
  end.

(** Python [set] values: the distinct elements, [set_iter] giving the
    order of iteration. *)
Definition inb (x : string) (l : list string) : bool :=
  existsb (String.eqb x) l.

Definition pyset (l : list string) : list string :=
  nodup string_dec l.

Definition set_diff (a b : list string) : list string :=
  filter (fun x => negb (inb x b)) a.

Definition add_repos (repos : Dict.t) (new_paths : list string) : M unit :=
  let existing_paths := pyset (Dict.values repos) in
  let new_paths :=
    pyset (map (Posixpath.abspath getcwd) (filter is_git new_paths)) in
  let new_paths := set_diff new_paths existing_paths in
  if negb (Nat.eqb (length new_paths) 0) then
    print ("Found " +++ Str.of_nat (length new_paths) +++ " new repo(s).") ;;;
    let new_repos :=
      fold_left
        (fun d path =>
           Dict.set d (Posixpath.basename (Posixpath.normpath path)) path)
        (set_iter new_paths) [] in
    write_to_repo_file new_repos ModeAPlus
  else
    print "No new repos found!".

(** [b.decode()], the codec being UTF-8 and the errors strict. *)
Definition decode (b : string) : result string :=
  if Bytes.utf8_valid b then Ok b else Raise UnicodeDecodeError.

(** [b and print(b.decode())] *)
Definition print_decoded (b : string) : result (list event) :=
  if Str.is_empty b then Ok []
  else
    match decode b with
    | Ok text => Ok [EPrint text]
    | Raise e => Raise e
    end.

(** A coroutine of [run_async]: the child it starts, and what it does once
    [communicate()] has returned: the events, and the value it returns or
    the exception that ends it. *)
Record task : Type := mkTask {
  task_exec : event;
  task_done : proc -> list event * result (option string)
}.

Definition run_async (path : string) (cmds : list string) : task :=
  mkTask
    (EAsyncExec cmds path)
    (fun process =>
       match print_decoded (stdout process) with
       | Raise e => ([], Raise e)
       | Ok out =>
           match print_decoded (stderr process) with
           | Raise e => (out, Raise e)
           | Ok err =>
               (out ++ err,
                Ok (if negb (Z.eqb (returncode process) 0) then Some path
                    else None))
           end
       end).

(** The task with the child process it got, in submission order. *)
Fixpoint assign_procs (tasks : list task) (pid : nat)
  : list (task * proc) :=
  match tasks with
  | [] => []
  | t :: r => (t, outcome pid) :: assign_procs r (S pid)
  end.

(** The tasks as they finish, in the given order: what they print, up to
    the first task that ends with an exception, and that exception.
    [gather] hands it to [run_until_complete] at once and the loop stops;
    the tasks still running then are left unfinished. *)
Fixpoint finish_tasks (running : list (task * proc)) (order : list nat)
  : list event * option exn :=
  match order with
  | [] => ([], None)
  | i :: rest =>
      match nth_error running i with
      | Some (t, p) =>
          match task_done t p with
          | (evs, Ok _) =>
              let '(evs', e) := finish_tasks running rest in
              (evs ++ evs', e)
          | (evs, Raise e) => (evs, Some e)
          end
      | None => finish_tasks running rest
      end
  end.

(** What [gather] returns when every task has returned: the results in
    submission order. *)
Fixpoint gather (running : list (task * proc))
  : result (list (option string)) :=
  match running with
  | [] => Ok []
  | (t, p) :: rest =>
      match snd (task_done t p) with
      | Raise e => Raise e
      | Ok r =>
          match gather rest with
          | Ok rs => Ok (r :: rs)
          | Raise e => Raise e
          end
      end
  end.

(** [exec_async_tasks]: every task starts its child at once; the tasks
    finish in some order, printing what they captured.  When all of them
    have returned, [gather] returns their results in submission order.
    When one ends with an exception, [run_until_complete] raises it, the
    loop is closed by the [finally] clause and no result is returned
    (also when the order given names only tasks that return, which an
    order of completion of all the tasks does not). *)
Definition exec_async_tasks (tasks : list task)
  : M (list (option string)) :=
  fun w =>
    let running := assign_procs tasks (spawned w) in
    let execs := map task_exec tasks in
    let '(prints, raised) :=
      finish_tasks running (completion_order (length tasks)) in
    let started events :=
      mkWorld (store_file w) (repos_cache w)
              (trace w ++ execs ++ events) (spawned w + length tasks) in
    match raised, gather running with
    | None, Ok errors =>
        (Ok errors, started (prints ++ [EGathered (length tasks)]))
    | Some e, _ | None, Raise e => (Raise e, started prints)
    end.

(** [describe]: the lines the generator yields. *)
Fixpoint describe_lines (repos : Dict.t) (name_width : nat)
    (names : list string) : result (list string) :=
  match names with
  | [] => Ok []
  | name :: rest =>
      match Dict.get repos name with
      | None => Raise (KeyError name)
      | Some path =>
          let display_items :=
            String.concat " " (map (fun f => f path) info_funcs) in
          match describe_lines repos name_width rest with
          | Ok lines =>
              Ok ((Str.ljust name_width name +++ display_items) :: lines)
          | Raise e => Raise e
          end
      end
  end.

Definition describe (repos : Dict.t) : result (list string) :=
  let name_width := Str.max_len (Dict.keys repos) + 1 in
  describe_lines repos name_width (Str.sorted (Dict.keys repos)).

(** *** __main__.py *)

Definition f_add (paths : list string) : M unit :=
  repos <- get_repos ;;
  add_repos repos paths.

Definition f_rename (repo new_name : string) : M unit :=
  repos <- get_repos ;;
  repos <- rename_repo repos repo new_name ;;
  mutate_repos repos.

(** The mapping after [del repos[repo]] for each of the names in turn, or
    the [KeyError] of the first name that is not (or no longer) a key. *)
Fixpoint del_each (repos : Dict.t) (names : list string) : result Dict.t :=
  match names with
  | [] => Ok repos
  | repo :: rest =>
      if Dict.mem repos repo then del_each (Dict.del repos repo) rest
      else Raise (KeyError repo)
  end.

(** [for repo in args.repo: del repos[repo]] on the cached object: every
    deletion is made in the cache, also those before a [KeyError]. *)
Fixpoint del_loop (repos : Dict.t) (names : list string) : M Dict.t :=
  match names with
  | [] => ret repos
  | repo :: rest =>
      if Dict.mem repos repo then
        let repos := Dict.del repos repo in
        mutate_repos repos ;;;
        del_loop repos rest
      else raise (KeyError repo)
  end.

Definition f_rm (names : list string) : M unit :=
  fun w =>
    match store_file w with
    | Some _ =>
        (repos <- get_repos ;;
         repos <- del_loop repos names ;;
         write_to_repo_file repos ModeW) w
    | None => (Ok tt, w)
    end.

Definition subprocess_run (cmds : list string) (path : string) : M unit :=
  fun w =>
    (Ok tt,
     mkWorld (store_file w) (repos_cache w)
             (trace w ++ [ERun cmds path]) (S (spawned w))).

(** [{k: repos[k] for k in names}] *)
Fixpoint restrict (repos : Dict.t) (names : list string) (acc : Dict.t)
  : result Dict.t :=
  match names with
  | [] => Ok acc
  | k :: rest =>
      match Dict.get repos k with
      | Some v => restrict repos rest (Dict.set acc k v)
      | None => Raise (KeyError k)
      end
  end.

(** Truthiness of a result of [run_async]: [None] and [''] are false. *)
Definition truthy (r : option string) : bool :=
  match r with
  | Some path => negb (Str.is_empty path)
  | None => false
  end.

(** [f_git_cmd] from [cmds = ['git'] + args.cmd] on: [repos] is the
    resolved mapping. *)
Definition dispatch (repos : Dict.t) (cmd : list string)
    (async_blacklist : list string) : M unit :=
  let cmds := "git" :: cmd in
  let serial :=
    for_each (Dict.values repos)
             (fun path => print path ;;; subprocess_run cmds path) in
  let concurrent :=
    errors <- exec_async_tasks
                (map (fun path => run_async path cmds) (Dict.values repos)) ;;
    for_each errors
             (fun r =>
                match r with
                | Some path =>
                    if truthy r then print path ;;; subprocess_run cmds path
                    else ret tt
                | None => ret tt
                end) in
  if Nat.eqb (length repos) 1 then serial
  else
    match nth_error cmds 1 with
    | None => raise IndexError
    | Some verb => if inb verb async_blacklist then serial else concurrent
    end.

Definition f_git_cmd (args_repo : list string) (cmd : list string)
    (async_blacklist : list string) : M unit :=
  repos <- get_repos ;;
  repos <- (match args_repo with
            | [] => ret repos
            | _ => lift (restrict repos args_repo [])
            end) ;;
  dispatch repos cmd async_blacklist.

(** [args.async_blacklist] of [main], from the (name, disable_async)
    pairs of the command table. *)
Definition async_blacklist_of (cmds : list (string * bool)) : list string :=
  pyset (map fst (filter snd cmds)).

End Gita.

(** ** The path file as a list of entries

    [get_repos] reads, checks and registers line by line.  Reading a line
    ([parse_line]) and registering an entry ([register], [rekey]) are the
    two halves of [load_line]; they are used to state what a load returns
    in terms of the entries of the file. *)

(** Lines 31-34 of [utils.py]: the (path, name) on a line, [None] for a
    blank line. *)
Definition parse_line (line : string) : result (option (string * string)) :=
  let line := Str.rstrip line in
  if Str.is_empty line then Ok None
  else
    match Str.split comma line with
    | [path; name] => Ok (Some (path, name))
    | _ => Raise ValueError
    end.

Fixpoint parse_lines (lines : list string)
  : result (list (string * string)) :=
  match lines with
  | [] => Ok []
  | line :: rest =>
      match parse_line line with
      | Raise e => Raise e
      | Ok o =>
          match parse_lines rest with
          | Raise e => Raise e
          | Ok es => Ok (match o with Some e => e :: es | None => es end)
          end
      end
  end.

(** The entries of a path file, in the order of its lines. *)
Definition entries (s : string) : result (list (string * string)) :=
  parse_lines (readlines s).

(** Lines 37-41: an entry that passed the check goes under its name, or
    under the parent directory's name joined with it when the name is
    taken. *)
Definition rekey (repos : Dict.t) (e : string * string) : Dict.t :=
  let '(path, name) := e in
  if negb (Dict.mem repos name) then Dict.set repos name path
  else
    let par_name := Posixpath.basename (Posixpath.dirname path) in
    Dict.set repos (Posixpath.join par_name name) path.

(** The key that lines 37-41 choose for an entry. *)
Definition key_for (repos : Dict.t) (e : string * string) : string :=
  let '(path, name) := e in
  if negb (Dict.mem repos name) then name
  else Posixpath.join (Posixpath.basename (Posixpath.dirname path)) name.

(** The items [key: path] that the loop writes for the given entries, one
    after the other, starting from the mapping [repos]. *)
Fixpoint load_writes (repos : Dict.t) (es : list (string * string))
  : list (string * string) :=
  match es with
  | [] => []
  | e :: rest => (key_for repos e, fst e) :: load_writes (rekey repos e) rest
  end.

(** Lines 35-41. *)
Definition register (path_exists : string -> bool) (repos : Dict.t)
    (e : string * string) : Dict.t :=
  if negb (is_git path_exists (fst e)) then repos else rekey repos e.

(** The key of the later of two entries of one name, as the spec words
    it. *)
Definition rekeyed_name (path name : string) : string :=
  Posixpath.basename (Posixpath.dirname path) +++ "/" +++ name.

(** The item [name: path] of an entry registered under its own name. *)
Definition item_of (e : string * string) : string * string :=
  (snd e, fst e).

(** ** The trace of a dispatch *)

(** What the serial loop of [f_git_cmd] does for the given paths. *)
Definition serial_events (cmds : list string) (paths : list string)
  : list event :=
  flat_map (fun path => [EPrint path; ERun cmds path]) paths.

(** The paths whose concurrent child exited with a non-zero status, the
    child of the [i]-th path being the [pid + i]-th process of the run. *)
Definition failed_paths (outcome : nat -> proc) (paths : list string)
    (pid : nat) : list string :=
  map fst
      (filter (fun pi => negb (Z.eqb (returncode (outcome (snd pi))) 0))
              (combine paths (seq pid (length paths)))).

(** Both captured outputs of a child can be decoded. *)
Definition decodable (p : proc) : bool :=
  Bytes.utf8_valid (stdout p) && Bytes.utf8_valid (stderr p).

(** The children of a concurrent run of [n] tasks, the first being the
    [pid]-th process of the run. *)
Definition children (outcome : nat -> proc) (pid n : nat) : list proc :=
  map outcome (seq pid n).

(** Events that start a child process. *)
Definition is_spawn (e : event) : bool :=
  match e with
  | ERun _ _ | EAsyncExec _ _ => true
  | EPrint _ | EGathered _ => false
  end.

Definition is_print (e : event) : bool :=
  match e with
  | EPrint _ => true
  | _ => false
  end.

(** The root verb of a command is on the denylist. *)
Definition denylisted (cmd : list string) (async_blacklist : list string)
  : bool :=
  match cmd with
  | verb :: _ => inb verb async_blacklist
  | [] => false
  end.

(** What the loop over the results of [gather] does. *)
Definition retry_events (cmds : list string) (errors : list (option string))
  : list event :=
  flat_map (fun r =>
              match r with
              | Some path => if truthy r then [EPrint path; ERun cmds path]
                             else []
              | None => []
              end) errors.

(** ** The listing as the spec words it

    The line of a repository by the words of the spec: the name padded to
    the maximum name width across all repositories, followed by the probe
    outputs joined by single spaces.  [pad] is the padding function, on
    the left ([Str.rjust]) or on the right ([Str.ljust]).  It is compared
    with [describe] below. *)
Definition spec_describe_line (pad : nat -> string -> string)
    (info_funcs : list (string -> string)) (repos : Dict.t)
    (name path : string) : string :=
  pad (Str.max_len (Dict.keys repos)) name
  +++ String.concat " " (map (fun f => f path) info_funcs).

(** The line of a repository as [describe] builds it. *)
Definition describe_line (info_funcs : list (string -> string))
    (repos : Dict.t) (name path : string) : string :=
  Str.ljust (Str.max_len (Dict.keys repos) + 1) name
  +++ String.concat " " (map (fun f => f path) info_funcs).

(** ** Well-formed path files and fields *)

(** The file is missing, empty, or ends with a line feed: what is appended
    to it starts a line of its own. *)
Definition complete_lines (file : option string) : bool :=
  match file with
  | None => true
  | Some s => Str.is_empty s || Str.endswith lf s
  end.

Definition file_text (file : option string) : string :=
  match file with
  | Some s => s
  | None => EmptyString
  end.

(** A field that the line format can carry: no comma, no line break. *)
Definition plain_field (s : string) : bool :=
  negb (Str.contains comma s) && negb (Str.contains lf s)
  && negb (Str.contains cr s).

(** The listing by the words of the spec, for a padding function. *)
Definition spec_describe (pad : nat -> string -> string)
    (info_funcs : list (string -> string)) (repos : Dict.t) : list string :=
  map (fun name =>
         match Dict.get repos name with
         | Some path => spec_describe_line pad info_funcs repos name path
         | None => EmptyString
         end)
      (Str.sorted (Dict.keys repos)).

(** ** Concrete worlds *)

(** A filesystem in which exactly the listed paths exist. *)
Definition fs_of (paths : list string) : string -> bool :=
  fun p => inb p paths.

(** Children that exit with status 1 when their number is listed, with
    status 0 otherwise, and write nothing. *)
Definition exits_of (failing : list nat) : nat -> proc :=
  fun pid =>
    if existsb (Nat.eqb pid) failing then mkProc 1 EmptyString EmptyString
    else mkProc 0 EmptyString EmptyString.

(** Children of which the listed ones exit with status 1 after an error
    message with a Latin-1 letter in it (the byte 0xE9, which is not
    UTF-8 here), the others with status 0 and no output. *)
Definition garbled_of (failing : list nat) : nat -> proc :=
  fun pid =>
    if existsb (Nat.eqb pid) failing
    then mkProc 1 EmptyString ("fatal: caf" +++ String "233"%char nl)
    else mkProc 0 EmptyString EmptyString.

(** Tasks that complete in the order of submission, and in the reverse
    order. *)
Definition in_order (n : nat) : list nat := seq 0 n.
Definition in_reverse (n : nat) : list nat := rev (seq 0 n).

(** ** More of utils.py and __main__.py *)

(** [s.split()]: the maximal runs of characters that are not white
    space. *)
Fixpoint split_ws_from (cur s : string) : list string :=
  match s with
  | EmptyString => if Str.is_empty cur then [] else [cur]
  | String c r =>
      if Str.isspace c then
        if Str.is_empty cur then split_ws_from EmptyString r
        else cur :: split_ws_from EmptyString r
      else split_ws_from (cur +++ String c EmptyString) r
  end.

Definition split_ws (s : string) : list string :=
  split_ws_from EmptyString s.

(** [get_path_fname], from the value of [XDG_CONFIG_HOME] in the
    environment, if any, and [os.path.expanduser('~')]. *)
Definition config_root (xdg_config_home : option string) (home : string)
  : string :=
  match xdg_config_home with
  | Some root =>
      if negb (Str.is_empty root) then root
      else Posixpath.join home ".config"
  | None => Posixpath.join home ".config"
  end.

Definition get_path_fname (xdg_config_home : option string) (home : string)
  : string :=
  let root := config_root xdg_config_home home in
  Posixpath.join (Posixpath.join root "gita") "repo_path".

(** The table of delegated commands: what [yaml.load] gives for an entry
    of [cmds.yml], by the keys the program reads. *)
Record cmd_data : Type := mkCmd {
  cmd_cmd : option string;     (** [data.get('cmd')] *)
  cmd_help : option string;    (** [data.get('help')] *)
  cmd_allow_all : bool;        (** truth of [data.get('allow_all')] *)
  cmd_disable_async : bool     (** truth of [data.get('disable_async')] *)
}.

Module Cmds.

Definition t := list (string * cmd_data).

Fixpoint get (d : t) (k : string) : option cmd_data :=
  match d with
  | [] => None
  | (k', v) :: r => if String.eqb k' k then Some v else get r k
  end.

Fixpoint set (d : t) (k : string) (v : cmd_data) : t :=
  match d with
  | [] => [(k, v)]
  | (k', v') :: r =>
      if String.eqb k' k then (k', v) :: r else (k', v') :: set r k v
  end.

(** [d.update(other)] *)
Definition update (d other : t) : t :=
  fold_left (fun acc kv => set acc (fst kv) (snd kv)) other d.

Definition keys (d : t) : list string := map fst d.

End Cmds.

(** What [yaml.load] makes of a custom [cmds.yml]: [None] for a file
    without a document (an empty file, or comments only), a mapping for a
    file of entries. *)
Inductive yaml_doc : Type :=
| YamlNone
| YamlMap (cmds : Cmds.t).

(** [get_cmds_from_files], from the parsed default file and the parsed
    custom file, if there is one.  [cmds.update(None)] raises
    [TypeError]. *)
Definition get_cmds_from_files (default_cmds : Cmds.t)
    (custom_file : option yaml_doc) : result Cmds.t :=
  let cmds := default_cmds in
  let custom_cmds :=
    match custom_file with
    | Some doc => doc
    | None => YamlMap []
    end in
  match custom_cmds with
  | YamlMap other => Ok (Cmds.update cmds other)
  | YamlNone => Raise TypeError
  end.

(** *** The delegated sub-commands of [main] *)

(** An element of the list that [get_choices] returns: a name, or the
    empty list appended to the names. *)
Inductive choice : Type :=
| ChoiceName (name : string)
| ChoiceEmptyList.

Definition choice_eqb (a b : choice) : bool :=
  match a, b with
  | ChoiceName x, ChoiceName y => String.eqb x y
  | ChoiceEmptyList, ChoiceEmptyList => true
  | _, _ => false
  end.

(** [value in choices] *)
Definition choice_in (c : choice) (choices : list choice) : bool :=
  existsb (choice_eqb c) choices.

(** [get_choices()], from the mapping that [get_repos()] returns. *)
Definition get_choices (repos : Dict.t) : list choice :=
  map ChoiceName (Dict.keys repos) ++ [ChoiceEmptyList].

(** [nargs] of the [repo] argument: ['+'] or ['*']. *)
Inductive nargs : Type := OneOrMore | ZeroOrMore.

(** A sub-parser as lines 206-208 set it up: its name, its one argument
    [repo] and the default of [cmd]; its [func] is [f_git_cmd]. *)
Record subparser : Type := mkSub {
  sub_name : string;
  sub_nargs : nargs;
  sub_choices : list choice;
  sub_help : string;
  sub_cmd : list string
}.

(** [data.get('cmd') or name] *)
Definition cmd_or_name (name : string) (data : cmd_data) : string :=
  match cmd_cmd data with
  | Some c => if negb (Str.is_empty c) then c else name
  | None => name
  end.

(** [cmd.split()], the [args.cmd] of a delegated sub-command. *)
Definition delegated_cmd (name : string) (data : cmd_data) : list string :=
  split_ws (cmd_or_name name data).

(** The body of the loop of lines 195-208 for one entry of the table.
    [help += ...] raises [TypeError] when the entry has no [help]. *)
Definition add_delegated (repos : Dict.t) (name : string) (data : cmd_data)
  : result subparser :=
  let help := cmd_help data in
  let cmd := cmd_or_name name data in
  match
    (if cmd_allow_all data then
       match help with
       | Some h =>
           Ok (get_choices repos, ZeroOrMore, Some (h +++ " for all repos or"))
       | None => Raise TypeError
       end
     else Ok (map ChoiceName (Dict.keys repos), OneOrMore, help))
  with
  | Raise e => Raise e
  | Ok (choices, nargs, help) =>
      match help with
      | Some h =>
          Ok (mkSub name nargs choices (h +++ " for the chosen repo(s)")
                    (split_ws cmd))
      | None => Raise TypeError
      end
  end.

(** The loop over [cmds.items()]. *)
Fixpoint parser_loop (repos : Dict.t) (cmds : Cmds.t)
  : result (list subparser) :=
  match cmds with
  | [] => Ok []
  | (name, data) :: rest =>
      match add_delegated repos name data with
      | Raise e => Raise e
      | Ok sp =>
          match parser_loop repos rest with
          | Ok sps => Ok (sp :: sps)
          | Raise e => Raise e
          end
      end
  end.

(** What [parse_args] binds to [args.repo] from the words that follow the
    name of the sub-command.  A word that starts with a dash is an option
    to [argparse] and ends the run (help or an error); fewer words than
    [nargs] wants, or a word that is not among the choices, is an error,
    after which [argparse] exits.  With no word at all and [nargs='*']
    the empty list is the value, and is among the choices.  (The few
    words with a leading dash that [argparse] keeps as arguments are not
    modelled, nor is what it writes as it exits.) *)
Definition parse_repo (sub : subparser) (words : list string)
  : result (list string) :=
  if existsb (Str.startswith "-") words then Raise SystemExit
  else
    match words with
    | [] =>
        match sub_nargs sub with
        | OneOrMore => Raise SystemExit
        | ZeroOrMore =>
            if choice_in ChoiceEmptyList (sub_choices sub) then Ok []
            else Raise SystemExit
        end
    | _ :: _ =>
        if forallb (fun v => choice_in (ChoiceName v) (sub_choices sub))
                   words
        then Ok words
        else Raise SystemExit
    end.

(** The (name, disable_async) pairs that [main] builds the denylist
    from. *)
Definition async_flags (cmds : Cmds.t) : list (string * bool) :=
  map (fun kv => (fst kv, cmd_disable_async (snd kv))) cmds.

(** The sub-commands that [main] defines itself. *)
Definition own_commands : list string :=
  ["add"; "rm"; "rename"; "info"; "ll"; "ls"; "super"].

(** No key of the table is the name of one of them. *)
Definition no_clash (cmds : Cmds.t) : bool :=
  forallb (fun kv => negb (inb (fst kv) own_commands)) cmds.

(** [main] on the command line [name words...], for [name] a key of the
    command table [cmds] that [get_cmds_from_files] returned, none of
    whose keys is the name of a sub-command that [main] defines itself:
    the first [utils.get_repos()] (line 135), the loop that adds the
    sub-parsers of the table, [parse_args], the denylist and the call of
    [args.func].  The sub-commands of [main] itself are not covered; a
    name with a leading dash is an option to [argparse], as a word is. *)
Definition main_delegated (path_exists : string -> bool)
    (outcome : nat -> proc) (completion_order : nat -> list nat)
    (cmds : Cmds.t) (name : string) (words : list string) : M unit :=
  repos <- get_repos path_exists ;;
  subs <- lift (parser_loop repos cmds) ;;
  if Str.startswith "-" name then raise SystemExit
  else
    match find (fun sp => String.eqb (sub_name sp) name) subs with
    | None => raise SystemExit
    | Some sub =>
        args_repo <- lift (parse_repo sub words) ;;
        let async_blacklist := async_blacklist_of (async_flags cmds) in
        f_git_cmd path_exists outcome completion_order
                  args_repo (sub_cmd sub) async_blacklist
    end.

(** No white space. *)
Definition one_word (s : string) : bool :=
  negb (Str.is_empty s)
  && forallb (fun c => negb (Str.isspace c)) (list_ascii_of_string s).

(** Every entry of the table has a [help]. *)
Definition all_help (cmds : Cmds.t) : bool :=
  forallb (fun kv => match cmd_help (snd kv) with
                     | Some _ => true
                     | None => false
                     end) cmds.

(** The words are such that [parse_args] binds them to [args.repo]: none
    starts with a dash, there is one at least unless the entry is marked
    [allow_all], and each is a registered name. *)
Definition accepted (repos : Dict.t) (data : cmd_data) (words : list string)
  : bool :=
  negb (existsb (Str.startswith "-") words)
  && (negb (Nat.eqb (length words) 0) || cmd_allow_all data)
  && forallb (fun v => inb v (Dict.keys repos)) words.

(** [f_super].  [UnboundLocalError] is raised when the loop over
    [args.man] never binds [i]. *)
Inductive super_outcome : Type :=
| SuperUnbound
| SuperRan (r : result unit).

(** The loop of [f_super]: the names collected and the last value of
    [i]. *)
Fixpoint super_loop (repos : Dict.t) (words : list string) (i : nat)
    (names : list string) (last : option nat) : list string * option nat :=
  match words with
  | [] => (names, last)
  | word :: rest =>
      if Dict.mem repos word
      then super_loop repos rest (S i) (names ++ [word]) (Some i)
      else (names, Some i)
  end.

Definition f_super (path_exists : string -> bool) (outcome : nat -> proc)
    (completion_order : nat -> list nat) (man : list string)
    (async_blacklist : list string) : world -> super_outcome * world :=
  fun w =>
    match get_repos path_exists w with
    | (Raise e, w') => (SuperRan (Raise e), w')
    | (Ok repos, w') =>
        match super_loop repos man 0 [] None with
        | (names, None) => (SuperUnbound, w')
        | (names, Some i) =>
            let '(r, w'') :=
              f_git_cmd path_exists outcome completion_order
                        names (skipn i man) async_blacklist w' in
            (SuperRan r, w'')
        end
    end.

(** [f_ll] *)
Definition f_ll (path_exists : string -> bool)
    (info_funcs : list (string -> string)) : M unit :=
  repos <- get_repos path_exists ;;
  lines <- lift (describe info_funcs repos) ;;
  for_each lines print.

(** ** Mappings that the line format carries *)

(** No line break. *)
Definition one_line (s : string) : bool :=
  negb (Str.contains lf s) && negb (Str.contains cr s).

(** A name as a load reads it: a plain field without trailing white
    space. *)
Definition plain_name (s : string) : bool :=
  plain_field s && String.eqb (Str.rstrip s) s.

(** Every item has a plain name and a plain path that passes the check,
    and the names are distinct. *)
Definition storable (path_exists : string -> bool) (repos : Dict.t) : Prop :=
  NoDup (Dict.keys repos)
  /\ Forall (fun kv => plain_name (fst kv) = true
                       /\ plain_field (snd kv) = true
                       /\ is_git path_exists (snd kv) = true) repos.

(** The mapping without the given names. *)
Definition without (names : list string) (repos : Dict.t) : Dict.t :=
  filter (fun kv => negb (inb (fst kv) names)) repos.


(** The default name of a path in [add_repos]. *)
Definition default_name (path : string) : string :=
  Posixpath.basename (Posixpath.normpath path).

(** The distinct elements of a list, in the order of their first
    occurrence: the keys of a dict comprehension over it. *)
Definition uniq (l : list string) : list string :=
  fold_left (fun acc k => if inb k acc then acc else acc ++ [k]) l [].

(** * Properties *)

Unset Implicit Arguments.

(** ** The library functions on examples *)

Example basename_ex : Posixpath.basename "/a/repo1" = "repo1".
Proof. reflexivity. Qed.
Example dirname_ex : Posixpath.dirname "/a/repo1" = "/a".
Proof. reflexivity. Qed.
Example dirname_root_ex : Posixpath.dirname "/repo1" = "/".
Proof. reflexivity. Qed.
Example basename_root_ex : Posixpath.basename "/" = EmptyString.
Proof. reflexivity. Qed.
Example join_ex : Posixpath.join "b" "repo1" = "b/repo1".
Proof. reflexivity. Qed.
Example join_empty_ex : Posixpath.join EmptyString "repo1" = "repo1".
Proof. reflexivity. Qed.
Example normpath_ex : Posixpath.normpath "/a//b/./c/../d/" = "/a/b/d".
Proof. reflexivity. Qed.
Example normpath_ex2 : Posixpath.normpath "../a/../../b" = "../../b".
Proof. reflexivity. Qed.
Example normpath_ex3 : Posixpath.normpath "//a/.." = "//".
Proof. reflexivity. Qed.
Example abspath_ex :
  Posixpath.abspath "/home/u" "proj/../gita" = "/home/u/gita".
Proof. reflexivity. Qed.
Example split_ex : Str.split "," "/a,b,c" = ["/a"; "b"; "c"].
Proof. reflexivity. Qed.
Example rstrip_ex : Str.rstrip "ab c  " = "ab c".
Proof. reflexivity. Qed.
Example of_nat_ex : Str.of_nat 12 = "12" /\ Str.of_nat 0 = "0".
Proof. split; reflexivity. Qed.
Example sorted_ex : Str.sorted ["b"; "a/b"; "a"; "B"] = ["B"; "a"; "a/b"; "b"].
Proof. reflexivity. Qed.
Example utf8_valid_ex :
  Bytes.utf8_valid "On branch master"
  && Bytes.utf8_valid (String "195"%char (String "169"%char EmptyString))
  && Bytes.utf8_valid
       (String "226"%char
          (String "130"%char (String "172"%char EmptyString)))
  && Bytes.utf8_valid
       (String "240"%char
          (String "159"%char
             (String "152"%char (String "128"%char EmptyString))))
  = true.
Proof. reflexivity. Qed.

(** A Latin-1 letter, a lone continuation byte, a truncated sequence, an
    overlong form, a surrogate and a code point above U+10FFFF. *)
Example utf8_invalid_ex :
  Bytes.utf8_valid (String "233"%char EmptyString)
  || Bytes.utf8_valid (String "128"%char EmptyString)
  || Bytes.utf8_valid (String "195"%char EmptyString)
  || Bytes.utf8_valid (String "192"%char (String "128"%char EmptyString))
  || Bytes.utf8_valid
       (String "237"%char
          (String "160"%char (String "128"%char EmptyString)))
  || Bytes.utf8_valid
       (String "244"%char
          (String "144"%char
             (String "128"%char (String "128"%char EmptyString))))
  = false.
Proof. reflexivity. Qed.

Example readlines_ex :
  readlines ("a,b" +++ nl +++ nl +++ "c" +++ String cr nl +++ "d")
  = ["a,b" +++ nl; nl; "c" +++ nl; "d"].
Proof. reflexivity. Qed.


(** ** Facts about strings *)

Lemma append_assoc (a b c : string) : (a +++ b) +++ c = a +++ b +++ c.
Proof. induction a as [|x a IH]; simpl; [reflexivity | now rewrite IH]. Qed.

Lemma length_append (a b : string) :
  String.length (a +++ b) = String.length a + String.length b.
Proof. induction a as [|x a IH]; simpl; [reflexivity | now rewrite IH]. Qed.

Lemma is_empty_true (s : string) : Str.is_empty s = true <-> s = EmptyString.
Proof. destruct s; simpl; split; congruence. Qed.

Lemma is_empty_append (a b : string) :
  Str.is_empty (a +++ b) = Str.is_empty a && Str.is_empty b.
Proof. destruct a; reflexivity. Qed.

Lemma contains_append (x : ascii) (a b : string) :
  Str.contains x (a +++ b) = Str.contains x a || Str.contains x b.
Proof.
  induction a as [|c a IH]; simpl; [reflexivity|].
  now rewrite IH, orb_assoc.
Qed.

Lemma contains_cons (x c : ascii) (s : string) :
  Str.contains x (String c s) = Ascii.eqb c x || Str.contains x s.
Proof. reflexivity. Qed.

Lemma length_repeat_char (x : ascii) (n : nat) :
  String.length (Str.repeat_char x n) = n.
Proof. induction n; simpl; congruence. Qed.

(** A left-justified field is as wide as asked when the text fits. *)
Lemma length_ljust (w : nat) (s : string) :
  String.length s <= w -> String.length (Str.ljust w s) = w.
Proof.
  intros H. unfold Str.ljust. rewrite length_append, length_repeat_char. lia.
Qed.

(** [rstrip] removes white space only, and only at the end. *)
Lemma rstrip_keeps_prefix (a : string) (c : ascii) (b : string) :
  Str.isspace c = false ->
  Str.rstrip (a +++ String c b) = a +++ String c (Str.rstrip b).
Proof.
  intros Hc. induction a as [|x a IH]; simpl.
  - now rewrite Hc, andb_false_r.
  - rewrite IH. destruct a; reflexivity.
Qed.

Lemma contains_rstrip (x : ascii) (s : string) :
  Str.contains x (Str.rstrip s) = true -> Str.contains x s = true.
Proof.
  induction s as [|c s IH]; simpl; [congruence|].
  destruct (Str.is_empty (Str.rstrip s) && Str.isspace c); simpl.
  - congruence.
  - intros H. apply orb_true_iff in H as [H|H].
    + now rewrite H.
    + rewrite (IH H). apply orb_true_r.
Qed.

(** [split] and the separator. *)
Lemma split_no_sep (sep : ascii) (s : string) :
  Str.contains sep s = false -> Str.split sep s = [s].
Proof.
  induction s as [|c s IH]; simpl; [reflexivity|].
  intros H. apply orb_false_iff in H as [Hc Hs].
  rewrite Hc, (IH Hs). reflexivity.
Qed.

Lemma split_at_sep (sep : ascii) (a b : string) :
  Str.contains sep a = false ->
  Str.split sep (a +++ String sep b) = a :: Str.split sep b.
Proof.
  induction a as [|c a IH]; simpl.
  - now rewrite Ascii.eqb_refl.
  - intros H. apply orb_false_iff in H as [Hc Ha].
    rewrite Hc, (IH Ha). reflexivity.
Qed.

Lemma length_split (sep : ascii) (s : string) :
  length (Str.split sep s) = S (Str.count sep s).
Proof.
  induction s as [|c s IH]; simpl; [reflexivity|].
  destruct (Ascii.eqb c sep); simpl.
  - now rewrite IH.
  - destruct (Str.split sep s) as [|h t]; simpl in *; congruence.
Qed.

Lemma isspace_comma : Str.isspace comma = false.
Proof. reflexivity. Qed.

Lemma count_comma_rstrip (s : string) :
  Str.count comma (Str.rstrip s) = Str.count comma s.
Proof.
  induction s as [|c s IH]; simpl; [reflexivity|].
  destruct (Str.is_empty (Str.rstrip s)) eqn:He; simpl.
  - apply is_empty_true in He. rewrite He in IH. simpl in IH.
    destruct (Str.isspace c) eqn:Hs; simpl.
    + rewrite <- IH.
      destruct (Ascii.eqb_spec c comma) as [->|_]; [|reflexivity].
      rewrite isspace_comma in Hs. discriminate.
    + now rewrite He, <- IH.
  - now rewrite IH.
Qed.

(** ** Facts about lists *)

Lemma Forall2_strengthen {A B : Type} (P P' : A -> B -> Prop)
    (Q : A -> Prop) (l : list A) (l' : list B) :
  (forall a b, P a b -> Q a -> P' a b) ->
  Forall2 P l l' -> Forall Q l -> Forall2 P' l l'.
Proof.
  intros H. induction 1 as [|a b l l' Hab Hl IH]; intros HQ.
  - constructor.
  - apply Forall_cons_iff in HQ as [Ha HQ]. constructor; auto.
Qed.

(** ** Facts about dicts *)

Lemma dict_mem_false (d : Dict.t) (k : string) :
  Dict.mem d k = false <-> ~ In k (Dict.keys d).
Proof.
  unfold Dict.mem. induction d as [|[k' v] d IH]; simpl.
  - tauto.
  - destruct (String.eqb_spec k' k) as [->|Hne].
    + split; [discriminate | tauto].
    + rewrite IH. tauto.
Qed.

Lemma dict_mem_true (d : Dict.t) (k : string) :
  Dict.mem d k = true <-> In k (Dict.keys d).
Proof.
  destruct (Dict.mem d k) eqn:E.
  - split; [intros _ | reflexivity].
    destruct (in_dec string_dec k (Dict.keys d)) as [H|H]; [exact H|].
    apply dict_mem_false in H. congruence.
  - apply dict_mem_false in E. split; [discriminate | tauto].
Qed.

Lemma dict_get_in (d : Dict.t) (k : string) :
  In k (Dict.keys d) -> exists v, Dict.get d k = Some v.
Proof.
  intros H. apply dict_mem_true in H. unfold Dict.mem in H.
  destruct (Dict.get d k) as [v|]; [now exists v | discriminate].
Qed.

Lemma dict_get_some_in (d : Dict.t) (k v : string) :
  Dict.get d k = Some v -> In (k, v) d.
Proof.
  induction d as [|[k' v'] d IH]; simpl; [discriminate|].
  destruct (String.eqb_spec k' k) as [->|_].
  - intros [= ->]. now left.
  - intros H. right. now apply IH.
Qed.

(** A new key goes to the end. *)
Lemma dict_set_fresh (d : Dict.t) (k v : string) :
  ~ In k (Dict.keys d) -> Dict.set d k v = d ++ [(k, v)].
Proof.
  induction d as [|[k' v'] d IH]; simpl; [reflexivity|].
  intros H. destruct (String.eqb_spec k' k) as [->|_]; [tauto|].
  rewrite IH; tauto.
Qed.

Lemma dict_set_value (d : Dict.t) (k v : string) :
  In v (Dict.values (Dict.set d k v)).
Proof.
  induction d as [|[k' v'] d IH]; simpl; [now left|].
  destruct (String.eqb k' k); simpl; tauto.
Qed.



Lemma dict_get_set (d : Dict.t) (k v k' : string) :
  Dict.get (Dict.set d k v) k'
  = if String.eqb k k' then Some v else Dict.get d k'.
Proof.
  induction d as [|[a b] d IH]; simpl.
  - destruct (String.eqb k k'); reflexivity.
  - destruct (String.eqb_spec a k) as [->|Hak]; simpl.
    + destruct (String.eqb k k'); reflexivity.
    + rewrite IH. destruct (String.eqb_spec a k') as [->|_];
        [|reflexivity].
      destruct (String.eqb_spec k k') as [->|_]; [contradiction|reflexivity].
Qed.

Lemma dict_get_none (d : Dict.t) (k : string) :
  ~ In k (Dict.keys d) -> Dict.get d k = None.
Proof.
  intros H. apply dict_mem_false in H. unfold Dict.mem in H.
  destruct (Dict.get d k); [discriminate | reflexivity].
Qed.

(** ** The registry *)

Section Registry.

Variable path_exists : string -> bool.

(** C4. [rename_repo] raises [KeyError] for a name that is not in the
    mapping and then leaves the world, the path file included, as it was;
    for a name that is there it moves the path to the new name and writes
    the whole mapping over the path file; on a mapping that holds only
    [old -> x] the file becomes the single line [x,new]. *)
Theorem rename_repo_spec (repos : Dict.t) (old new : string) (w : world) :
  (Dict.get repos old = None ->
   rename_repo repos old new w = (Raise (KeyError old), w))
  /\ (forall path, Dict.get repos old = Some path ->
      let repos' := Dict.set (Dict.del repos old) new path in
      rename_repo repos old new w
      = (Ok repos',
         mkWorld (Some (store_data repos')) (repos_cache w)
                 (trace w) (spawned w)))
  /\ (forall x, repos = [(old, x)] ->
      rename_repo repos old new w
      = (Ok [(new, x)],
         mkWorld (Some (x +++ "," +++ new +++ nl)) (repos_cache w)
                 (trace w) (spawned w))).
Proof.
  split; [|split].
  - intros H. unfold rename_repo. now rewrite H.
  - intros path H. unfold rename_repo. now rewrite H.
  - intros x ->. unfold rename_repo. simpl.
    rewrite String.eqb_refl. unfold bind, write_to_repo_file, ret. simpl.
    reflexivity.
Qed.


(** *** Loading is parsing, then registering *)

Lemma load_line_parse (repos : Dict.t) (line : string) :
  load_line path_exists repos line
  = match parse_line line with
    | Ok None => Ok repos
    | Ok (Some e) => Ok (register path_exists repos e)
    | Raise e => Raise e
    end.
Proof.
  unfold load_line, parse_line.
  destruct (Str.is_empty (Str.rstrip line)); [reflexivity|].
  destruct (Str.split comma (Str.rstrip line)) as [|path [|name [|x l]]];
    try reflexivity.
  unfold register, rekey. simpl.
  destruct (is_git path_exists path); simpl; [|reflexivity].
  destruct (Dict.mem repos name); reflexivity.
Qed.

Lemma parse_line_raises (line : string) (e : exn) :
  parse_line line = Raise e -> e = ValueError.
Proof.
  unfold parse_line.
  destruct (Str.is_empty (Str.rstrip line)); [discriminate|].
  destruct (Str.split comma (Str.rstrip line)) as [|path [|name [|x l]]];
    congruence.
Qed.

Lemma load_lines_parse (lines : list string) (repos : Dict.t) :
  load_lines path_exists lines repos
  = match parse_lines lines with
    | Ok es => Ok (fold_left (register path_exists) es repos)
    | Raise e => Raise e
    end.
Proof.
  revert repos. induction lines as [|line rest IH]; intros repos; simpl.
  - reflexivity.
  - rewrite load_line_parse.
    destruct (parse_line line) as [[e|]|e] eqn:E.
    + rewrite IH. destruct (parse_lines rest); reflexivity.
    + rewrite IH. destruct (parse_lines rest); reflexivity.
    + apply parse_line_raises in E. subst e.
      reflexivity.
Qed.

Lemma parse_lines_bad_line (lines : list string) (line : string) :
  In line lines ->
  parse_line line = Raise ValueError ->
  parse_lines lines = Raise ValueError.
Proof.
  induction lines as [|l rest IH]; simpl; [tauto|].
  intros [->|Hin] Hbad.
  - now rewrite Hbad.
  - destruct (parse_line l) as [o|e] eqn:E.
    + now rewrite (IH Hin Hbad).
    + apply parse_line_raises in E. now subst.
Qed.

Lemma parse_line_extra_commas (line : string) :
  1 < Str.count comma line -> parse_line line = Raise ValueError.
Proof.
  intros H. unfold parse_line.
  pose proof (length_split comma (Str.rstrip line)) as L.
  rewrite count_comma_rstrip in L.
  destruct (Str.is_empty (Str.rstrip line)) eqn:He.
  - apply is_empty_true in He. rewrite He in L. simpl in L. lia.
  - destruct (Str.split comma (Str.rstrip line)) as [|a [|b [|c l]]];
      simpl in L; try reflexivity; lia.
Qed.

(** C6, as the code has it.  A line of the path file with more than one
    comma is a parse error: [get_repos] raises [ValueError] and returns no
    mapping, whatever the other lines are; the path file, the cache and
    the output are left as they were.  So the registrations on such a line
    are never dropped without a signal. *)
Theorem get_repos_extra_commas (w : world) (s line : string) :
  store_file w = Some s ->
  repos_cache w = None ->
  In line (readlines s) ->
  1 < Str.count comma line ->
  read_repos path_exists (Some s) = Raise ValueError
  /\ get_repos path_exists w = (Raise ValueError, w).
Proof.
  intros Hs Hc Hin Hcount.
  assert (Hr : read_repos path_exists (Some s) = Raise ValueError).
  { unfold read_repos.
    destruct (Str.is_empty s) eqn:He.
    - apply is_empty_true in He. subst s. destruct Hin.
    - simpl. rewrite load_lines_parse.
      rewrite (parse_lines_bad_line _ _ Hin
                 (parse_line_extra_commas _ Hcount)).
      reflexivity. }
  split; [exact Hr|].
  unfold get_repos. now rewrite Hc, Hs, Hr.
Qed.

(** *** Name collisions *)

Lemma rsplit_sep_tail_no_sep (p : string) :
  Str.contains Posixpath.sep (snd (Posixpath.rsplit_sep p)) = false.
Proof.
  induction p as [|c p IH]; simpl; [reflexivity|].
  destruct (Posixpath.rsplit_sep p) as [h t]. simpl in *.
  destruct (Str.is_empty h); simpl.
  - destruct (Ascii.eqb c Posixpath.sep) eqn:E; simpl; [exact IH|].
    now rewrite E.
  - exact IH.
Qed.

Lemma basename_no_sep (p : string) :
  Str.contains Posixpath.sep (Posixpath.basename p) = false.
Proof. apply rsplit_sep_tail_no_sep. Qed.

Lemma endswith_contains (x : ascii) (s : string) :
  Str.endswith x s = true -> Str.contains x s = true.
Proof.
  induction s as [|c s IH]; simpl; [discriminate|].
  destruct s as [|c' s'].
  - intros ->. reflexivity.
  - intros H. rewrite (IH H). apply orb_true_r.
Qed.

(** When the parent directory has a name and the name is relative,
    [os.path.join] gives the two separated by a slash. *)
Lemma join_parent_name (path name : string) :
  Posixpath.basename (Posixpath.dirname path) <> EmptyString ->
  Str.startswith Posixpath.sep name = false ->
  Posixpath.join (Posixpath.basename (Posixpath.dirname path)) name
  = rekeyed_name path name.
Proof.
  intros Hpar Hname. unfold Posixpath.join, rekeyed_name.
  rewrite Hname.
  set (par := Posixpath.basename (Posixpath.dirname path)) in *.
  destruct (Str.is_empty par) eqn:He.
  - apply is_empty_true in He. contradiction.
  - destruct (Str.endswith Posixpath.sep par) eqn:Hend; [|reflexivity].
    apply endswith_contains in Hend.
    unfold par in Hend. rewrite basename_no_sep in Hend. discriminate.
Qed.

Lemma rekeyed_name_differs (path name : string) :
  rekeyed_name path name <> name.
Proof.
  unfold rekeyed_name. intros H.
  apply (f_equal String.length) in H.
  rewrite length_append in H. simpl in H. lia.
Qed.

Lemma dict_keys_app (d1 d2 : Dict.t) :
  Dict.keys (d1 ++ d2) = Dict.keys d1 ++ Dict.keys d2.
Proof. apply map_app. Qed.

Lemma fold_register_filter (es : list (string * string)) (repos : Dict.t) :
  fold_left (register path_exists) es repos
  = fold_left rekey
      (filter (fun e => is_git path_exists (fst e)) es) repos.
Proof.
  revert repos. induction es as [|e es IH]; intros repos; simpl.
  - reflexivity.
  - unfold register at 2.
    destruct (is_git path_exists (fst e)); simpl; apply IH.
Qed.

(** Entries with names that are free and pairwise distinct are appended
    in order under their own names. *)
Lemma fold_rekey_fresh (es : list (string * string)) (repos : Dict.t) :
  NoDup (map snd es) ->
  (forall n, In n (map snd es) -> ~ In n (Dict.keys repos)) ->
  fold_left rekey es repos = repos ++ map item_of es.
Proof.
  revert repos. induction es as [|[p n] es IH]; intros repos Hnd Hfresh.
  - simpl. now rewrite app_nil_r.
  - simpl in *. apply NoDup_cons_iff in Hnd as [Hn Hnd].
    assert (Hmem : Dict.mem repos n = false).
    { apply dict_mem_false. apply Hfresh. now left. }
    rewrite Hmem. simpl.
    rewrite dict_set_fresh by (apply Hfresh; now left).
    rewrite IH.
    + now rewrite <- app_assoc.
    + exact Hnd.
    + intros m Hm. rewrite dict_keys_app. simpl.
      intros Hin. apply in_app_or in Hin as [Hin|[<-|[]]].
      * apply (Hfresh m); [now right | exact Hin].
      * contradiction.
Qed.

(** A fresh process loads what the path file and the filesystem say:
    nothing else of the world enters the result. *)
Lemma get_repos_fresh (w : world) :
  repos_cache w = None ->
  fst (get_repos path_exists w) = read_repos path_exists (store_file w).
Proof.
  intros Hc. unfold get_repos. rewrite Hc.
  destruct (read_repos path_exists (store_file w)); reflexivity.
Qed.

(** *** What the loop writes *)

Lemma rekey_key_for (repos : Dict.t) (e : string * string) :
  rekey repos e = Dict.set repos (key_for repos e) (fst e).
Proof.
  destruct e as [path name]. unfold rekey, key_for. simpl.
  destruct (Dict.mem repos name); reflexivity.
Qed.

Lemma load_writes_app (a b : list (string * string)) (repos : Dict.t) :
  load_writes repos (a ++ b)
  = load_writes repos a ++ load_writes (fold_left rekey a repos) b.
Proof.
  revert repos. induction a as [|e a IH]; intros repos; simpl.
  - reflexivity.
  - now rewrite IH.
Qed.

Lemma dict_mem_set (d : Dict.t) (k v k' : string) :
  Dict.mem (Dict.set d k v) k' = String.eqb k k' || Dict.mem d k'.
Proof.
  unfold Dict.mem. rewrite dict_get_set.
  destruct (String.eqb k k'); reflexivity.
Qed.

(** A key stays a key. *)
Lemma fold_rekey_mem (es : list (string * string)) (repos : Dict.t)
    (k : string) :
  Dict.mem repos k = true -> Dict.mem (fold_left rekey es repos) k = true.
Proof.
  revert repos. induction es as [|e es IH]; intros repos H; simpl.
  - exact H.
  - apply IH. rewrite rekey_key_for, dict_mem_set, H. apply orb_true_r.
Qed.

(** A key of the result was a key before or has been written. *)
Lemma fold_rekey_mem_inv (es : list (string * string)) (repos : Dict.t)
    (k : string) :
  Dict.mem (fold_left rekey es repos) k = true ->
  Dict.mem repos k = true \/ exists q, In (k, q) (load_writes repos es).
Proof.
  revert repos. induction es as [|e es IH]; intros repos H; simpl in *.
  - now left.
  - destruct (IH _ H) as [Hm|[q Hq]].
    + rewrite rekey_key_for, dict_mem_set in Hm.
      apply orb_true_iff in Hm as [Hm|Hm]; [|now left].
      apply String.eqb_eq in Hm. subst k. right. exists (fst e). now left.
    + right. exists q. now right.
Qed.

(** The last write under a key decides: when every write under [k] has
    the value [v], and [k] is written or holds [v] already, the result
    holds [v] under [k]. *)
Lemma fold_rekey_get (es : list (string * string)) (repos : Dict.t)
    (k v : string) :
  (forall q, In (k, q) (load_writes repos es) -> q = v) ->
  Dict.get repos k = Some v \/ (exists q, In (k, q) (load_writes repos es)) ->
  Dict.get (fold_left rekey es repos) k = Some v.
Proof.
  revert repos. induction es as [|e es IH]; intros repos Hall Hsome.
  - destruct Hsome as [H|[q []]]. exact H.
  - cbn [fold_left load_writes] in *.
    rewrite (rekey_key_for repos e) in *. apply IH.
    + intros q Hq. apply Hall. now right.
    + rewrite dict_get_set.
      destruct (String.eqb_spec (key_for repos e) k) as [Hk|Hk].
      * left. f_equal. apply Hall. left. now rewrite Hk.
      * destruct Hsome as [H|[q [Hq|Hq]]].
        -- now left.
        -- injection Hq as Hq _. contradiction.
        -- right. now exists q.
Qed.

(** When no key is written twice, the entries are appended in order,
    each under its key. *)
Lemma fold_rekey_distinct (es : list (string * string)) (repos : Dict.t) :
  NoDup (Dict.keys repos ++ map fst (load_writes repos es)) ->
  fold_left rekey es repos = repos ++ load_writes repos es.
Proof.
  revert repos. induction es as [|e es IH]; intros repos Hnd.
  - simpl. now rewrite app_nil_r.
  - cbn [fold_left load_writes map fst] in *.
    assert (Hk : ~ In (key_for repos e) (Dict.keys repos)).
    { intros Hin. apply NoDup_remove_2 in Hnd. apply Hnd.
      apply in_or_app. now left. }
    assert (Hr : rekey repos e = repos ++ [(key_for repos e, fst e)]).
    { rewrite rekey_key_for. now apply dict_set_fresh. }
    rewrite Hr in *. rewrite IH.
    + now rewrite <- app_assoc.
    + rewrite dict_keys_app. simpl. now rewrite <- app_assoc.
Qed.

(** What a load returns, from the entries of the file. *)
Lemma read_repos_entries (s : string) (es : list (string * string)) :
  entries s = Ok es ->
  read_repos path_exists (Some s)
  = Ok (fold_left rekey (filter (fun e => is_git path_exists (fst e)) es) []).
Proof.
  intros Hes. unfold entries in Hes. unfold read_repos.
  destruct (Str.is_empty s) eqn:He.
  - apply is_empty_true in He. subst s. simpl in Hes.
    injection Hes as <-. reflexivity.
  - simpl. now rewrite load_lines_parse, Hes, fold_register_filter.
Qed.

(** Two valid entries of one name: the lookups of the name and of the
    re-keyed name. *)
Lemma fold_rekey_collision (pre mid post : list (string * string))
    (p1 p2 n : string) :
  let valid := pre ++ (p1, n) :: mid ++ (p2, n) :: post in
  Posixpath.basename (Posixpath.dirname p2) <> EmptyString ->
  Str.startswith Posixpath.sep n = false ->
  (forall q, In (n, q) (load_writes [] valid) -> q = p1) ->
  (forall q, In (rekeyed_name p2 n, q) (load_writes [] valid) -> q = p2) ->
  Dict.get (fold_left rekey valid []) n = Some p1
  /\ Dict.get (fold_left rekey valid []) (rekeyed_name p2 n) = Some p2.
Proof.
  intros valid Hpar Hname Hn Hk.
  set (d0 := fold_left rekey pre []).
  set (d2 := fold_left rekey (pre ++ (p1, n) :: mid) []).
  assert (Hw1 : load_writes [] valid
                = load_writes [] pre
                  ++ (key_for d0 (p1, n), p1)
                  :: load_writes (rekey d0 (p1, n)) (mid ++ (p2, n) :: post)).
  { unfold valid. now rewrite load_writes_app. }
  assert (Hw2 : load_writes [] valid
                = load_writes [] (pre ++ (p1, n) :: mid)
                  ++ (key_for d2 (p2, n), p2)
                  :: load_writes (rekey d2 (p2, n)) post).
  { unfold valid.
    replace (pre ++ (p1, n) :: mid ++ (p2, n) :: post)
      with ((pre ++ (p1, n) :: mid) ++ (p2, n) :: post)
      by (rewrite <- app_assoc; reflexivity).
    now rewrite load_writes_app. }
  (* the name is a key once the first entry is read *)
  assert (Hwritten : exists q, In (n, q) (load_writes [] valid)).
  { destruct (Dict.mem d0 n) eqn:Hm.
    - apply fold_rekey_mem_inv in Hm as [Hm|[q Hq]]; [discriminate|].
      exists q. rewrite Hw1. apply in_or_app. now left.
    - exists p1. rewrite Hw1. apply in_or_app. right. left.
      unfold key_for. now rewrite Hm. }
  assert (Hmem : Dict.mem d2 n = true).
  { unfold d2. rewrite fold_left_app. cbn [fold_left].
    apply fold_rekey_mem. fold d0.
    rewrite rekey_key_for, dict_mem_set. unfold key_for.
    destruct (Dict.mem d0 n); simpl; [apply orb_true_r|].
    now rewrite String.eqb_refl. }
  assert (Hkey : key_for d2 (p2, n) = rekeyed_name p2 n).
  { unfold key_for. rewrite Hmem. simpl.
    now apply join_parent_name. }
  split.
  - apply fold_rekey_get; [exact Hn | now right].
  - apply fold_rekey_get; [exact Hk|]. right. exists p2.
    rewrite Hw2, Hkey. apply in_or_app. right. now left.
Qed.

(** Two keys with one value: the values are not distinct. *)
Lemma dict_two_keys_one_value (d : Dict.t) (k1 k2 v : string) :
  Dict.get d k1 = Some v -> Dict.get d k2 = Some v -> k1 <> k2 ->
  ~ NoDup (Dict.values d).
Proof.
  induction d as [|[a b] d IH]; simpl; [discriminate|].
  intros H1 H2 Hne Hnd. apply NoDup_cons_iff in Hnd as [Hb Hnd].
  assert (Hin : forall k, Dict.get d k = Some v -> In v (Dict.values d)).
  { intros k H. apply dict_get_some_in in H. unfold Dict.values.
    change v with (snd (k, v)). now apply in_map. }
  destruct (String.eqb_spec a k1) as [E1|E1],
           (String.eqb_spec a k2) as [E2|E2].
  - congruence.
  - injection H1 as ->. apply Hb. eauto.
  - injection H2 as ->. apply Hb. eauto.
  - now apply IH.
Qed.

(** C2, as the code has it.  Take a path file all of whose non-blank
    lines parse.  The load registers the entries that pass the check in
    file order, each under its name when that name is not yet a key and
    under [os.path.join] of the parent directory's name and the name
    otherwise.  Let two of these entries share the name [n], the later
    one having a parent directory with a non-empty name, and [n] not
    starting with a slash.  Provided the load registers no other path
    under [n] than that of the first, and no other path under the re-keyed
    name than that of the later one, the mapping holds the first under
    [n] and the later one under [<parent-directory-name>/<n>], a different
    key; any number of further entries may share the name or collide
    among themselves.  When no key is written twice, the mapping is
    exactly the valid entries, in file order, each under its key.  Two
    fresh processes that load the same file get the same mapping. *)
Theorem load_collision_rekeys_later (s : string)
    (es pre mid post : list (string * string)) (p1 p2 n : string) :
  entries s = Ok es ->
  filter (fun e => is_git path_exists (fst e)) es
  = pre ++ (p1, n) :: mid ++ (p2, n) :: post ->
  Posixpath.basename (Posixpath.dirname p2) <> EmptyString ->
  Str.startswith Posixpath.sep n = false ->
  (forall q,
     In (n, q) (load_writes [] (pre ++ (p1, n) :: mid ++ (p2, n) :: post)) ->
     q = p1) ->
  (forall q,
     In (rekeyed_name p2 n, q)
        (load_writes [] (pre ++ (p1, n) :: mid ++ (p2, n) :: post)) ->
     q = p2) ->
  exists repos,
    read_repos path_exists (Some s) = Ok repos
    /\ Dict.get repos n = Some p1
    /\ Dict.get repos (rekeyed_name p2 n) = Some p2
    /\ n <> rekeyed_name p2 n
    /\ (NoDup (map fst (load_writes []
                          (pre ++ (p1, n) :: mid ++ (p2, n) :: post))) ->
        repos = load_writes [] (pre ++ (p1, n) :: mid ++ (p2, n) :: post))
    /\ (forall w1 w2,
          store_file w1 = Some s -> store_file w2 = Some s ->
          repos_cache w1 = None -> repos_cache w2 = None ->
          fst (get_repos path_exists w1) = Ok repos
          /\ fst (get_repos path_exists w2) = Ok repos).
Proof.
  intros Hes Hf Hpar Hname Hn Hk.
  pose proof (read_repos_entries _ _ Hes) as Hr. rewrite Hf in Hr.
  destruct (fold_rekey_collision pre mid post p1 p2 n Hpar Hname Hn Hk)
    as [H1 H2].
  eexists. split; [exact Hr|].
  split; [exact H1|]. split; [exact H2|]. split; [|split].
  - intros H. symmetry in H. now apply rekeyed_name_differs in H.
  - intros Hnd. now apply (fold_rekey_distinct _ []).
  - intros w1 w2 Hs1 Hs2 Hc1 Hc2.
    rewrite !get_repos_fresh by assumption. now rewrite Hs1, Hs2.
Qed.

(** C10, as the code has it.  The collision test looks at names only.
    When the same valid entry [path,name] is read twice, the parent
    directory having a non-empty name and [name] not starting with a
    slash, and the load registers no other path under [name] or under the
    re-keyed name, the mapping holds the one path under two keys, [name]
    and [<parent-directory-name>/<name>]: the values of the mapping are
    not distinct.  The entry may be read more than twice, and other
    entries may collide among themselves. *)
Theorem load_same_line_twice (s : string)
    (es pre mid post : list (string * string)) (p n : string) :
  entries s = Ok es ->
  filter (fun e => is_git path_exists (fst e)) es
  = pre ++ (p, n) :: mid ++ (p, n) :: post ->
  Posixpath.basename (Posixpath.dirname p) <> EmptyString ->
  Str.startswith Posixpath.sep n = false ->
  (forall k q,
     In (k, q) (load_writes [] (pre ++ (p, n) :: mid ++ (p, n) :: post)) ->
     k = n \/ k = rekeyed_name p n -> q = p) ->
  exists repos,
    read_repos path_exists (Some s) = Ok repos
    /\ Dict.get repos n = Some p
    /\ Dict.get repos (rekeyed_name p n) = Some p
    /\ n <> rekeyed_name p n
    /\ ~ NoDup (Dict.values repos).
Proof.
  intros Hes Hf Hpar Hname Hw.
  pose proof (read_repos_entries _ _ Hes) as Hr. rewrite Hf in Hr.
  destruct (fold_rekey_collision pre mid post p p n Hpar Hname)
    as [H1 H2].
  { intros q Hq. apply (Hw _ _ Hq). now left. }
  { intros q Hq. apply (Hw _ _ Hq). now right. }
  assert (Hne : n <> rekeyed_name p n).
  { intros H. symmetry in H. now apply rekeyed_name_differs in H. }
  eexists. split; [exact Hr|].
  split; [exact H1|]. split; [exact H2|]. split; [exact Hne|].
  now apply (dict_two_keys_one_value _ _ _ _ H1 H2).
Qed.

(** *** Entries that fail the check *)





(** The loop of [rm] makes the deletions in the cache. *)
Lemma del_loop_ok (names : list string) (repos r : Dict.t) (w : world) :
  repos_cache w = Some repos ->
  del_each repos names = Ok r ->
  del_loop repos names w
  = (Ok r, mkWorld (store_file w) (Some r) (trace w) (spawned w)).
Proof.
  revert repos w. induction names as [|k names IH]; intros repos w Hc; simpl.
  - intros [= <-]. unfold ret. destruct w; simpl in *. now rewrite Hc.
  - destruct (Dict.mem repos k); [|discriminate].
    intros H. unfold bind, mutate_repos.
    now rewrite (IH (Dict.del repos k)
                    (mkWorld (store_file w) (Some (Dict.del repos k))
                             (trace w) (spawned w)) eq_refl H).
Qed.

Lemma del_loop_raise (names : list string) (repos : Dict.t) (e : exn)
    (w : world) :
  del_each repos names = Raise e ->
  exists cache,
    del_loop repos names w
    = (Raise e, mkWorld (store_file w) cache (trace w) (spawned w)).
Proof.
  revert repos w. induction names as [|k names IH]; intros repos w; simpl.
  - discriminate.
  - destruct (Dict.mem repos k).
    + intros H. unfold bind, mutate_repos.
      destruct (IH (Dict.del repos k)
                   (mkWorld (store_file w) (Some (Dict.del repos k))
                            (trace w) (spawned w)) H) as [cache Hc].
      exists cache. now rewrite Hc.
    + intros [= <-]. exists (repos_cache w). unfold raise. now destruct w.
Qed.


End Registry.

(** ** The dispatcher *)

Section Dispatcher.

Variable outcome : nat -> proc.
Variable completion_order : nat -> list nat.

Lemma serial_loop (cmds paths : list string) (w : world) :
  for_each paths (fun path => print path ;;; subprocess_run cmds path) w
  = (Ok tt,
     mkWorld (store_file w) (repos_cache w)
             (trace w ++ serial_events cmds paths)
             (spawned w + length paths)).
Proof.
  revert w. induction paths as [|p paths IH]; intros w.
  - simpl. unfold ret. destruct w; simpl.
    now rewrite app_nil_r, Nat.add_0_r.
  - simpl. unfold bind at 1. unfold bind at 1.
    unfold print, emit, subprocess_run. simpl.
    rewrite IH. simpl. f_equal. f_equal.
    + now rewrite <- !app_assoc.
    + lia.
Qed.

(** The empty output decodes. *)
Lemma utf8_valid_empty (b : string) :
  Str.is_empty b = true -> Bytes.utf8_valid b = true.
Proof. intros H. apply is_empty_true in H. now subst. Qed.

(** What a task of [run_async] does once its child is done: it prints,
    and returns when both outputs can be decoded. *)
Lemma task_done_run_async (path : string) (cmds : list string) (p : proc) :
  forallb is_print (fst (task_done (run_async path cmds) p)) = true
  /\ snd (task_done (run_async path cmds) p)
     = if decodable p
       then Ok (if negb (Z.eqb (returncode p) 0) then Some path else None)
       else Raise UnicodeDecodeError.
Proof.
  unfold run_async, decodable, print_decoded, decode. cbn [task_done].
  destruct (Str.is_empty (stdout p)) eqn:E1;
    [rewrite (utf8_valid_empty _ E1)
    |destruct (Bytes.utf8_valid (stdout p))];
    (destruct (Str.is_empty (stderr p)) eqn:E2;
     [rewrite (utf8_valid_empty _ E2)
     |destruct (Bytes.utf8_valid (stderr p))]);
    split; reflexivity.
Qed.

(** The tasks of a concurrent run, with their children. *)
Lemma running_in (cmds paths : list string) (pid : nat) (t : task)
    (p : proc) :
  In (t, p)
     (assign_procs outcome (map (fun path => run_async path cmds) paths) pid)
  -> exists path,
       t = run_async path cmds
       /\ In p (children outcome pid (length paths)).
Proof.
  clear completion_order.
  revert pid. induction paths as [|q paths IH]; intros pid; simpl; [tauto|].
  intros [[= <- <-]|H].
  - exists q. split; [reflexivity | now left].
  - destruct (IH _ H) as (path & Ht & Hp). exists path.
    split; [exact Ht | now right].
Qed.

Lemma undecodable_child (l : list proc) (p : proc) :
  In p l -> decodable p = false -> forallb decodable l = false.
Proof.
  intros Hin Hp. destruct (forallb decodable l) eqn:F; [|reflexivity].
  rewrite forallb_forall in F. rewrite (F p Hin) in Hp. discriminate.
Qed.

(** What [gather] returns for the tasks of [run_async]. *)
Lemma gather_results (cmds paths : list string) (pid : nat) :
  gather
    (assign_procs outcome (map (fun path => run_async path cmds) paths) pid)
  = if forallb decodable (children outcome pid (length paths))
    then Ok (map (fun pi => if negb (Z.eqb (returncode (outcome (snd pi))) 0)
                            then Some (fst pi) else None)
                 (combine paths (seq pid (length paths))))
    else Raise UnicodeDecodeError.
Proof.
  revert pid. induction paths as [|q paths IH]; intros pid.
  - reflexivity.
  - cbn [map assign_procs gather length].
    rewrite (proj2 (task_done_run_async q cmds (outcome pid))).
    change (children outcome pid (S (length paths)))
      with (outcome pid :: children outcome (S pid) (length paths)).
    cbn [forallb]. destruct (decodable (outcome pid)); [|reflexivity].
    rewrite IH. cbn [andb].
    destruct (forallb decodable (children outcome (S pid) (length paths)));
      reflexivity.
Qed.

(** The tasks of [run_async] print and nothing else when they finish, and
    the only exception that ends one is [UnicodeDecodeError]. *)
Lemma finish_run_async (cmds paths : list string) (pid : nat)
    (order : list nat) :
  let running :=
    assign_procs outcome (map (fun path => run_async path cmds) paths) pid in
  forallb is_print (fst (finish_tasks running order)) = true
  /\ (snd (finish_tasks running order) = None
      \/ (snd (finish_tasks running order) = Some UnicodeDecodeError
          /\ forallb decodable (children outcome pid (length paths))
             = false)).
Proof.
  clear completion_order. intros running.
  induction order as [|i order IH]; cbn [finish_tasks].
  - split; [reflexivity | now left].
  - destruct (nth_error running i) as [[t p]|] eqn:E; [|exact IH].
    apply nth_error_In, running_in in E as (path & -> & Hin).
    destruct (task_done_run_async path cmds p) as [Hp Hs].
    destruct (task_done (run_async path cmds) p) as [evs r].
    cbn [fst snd] in Hp, Hs.
    destruct r as [r|e].
    + destruct (finish_tasks running order) as [evs' e'].
      cbn [fst snd] in *. rewrite forallb_app, Hp. exact IH.
    + cbn [fst snd]. split; [exact Hp|]. right.
      destruct (decodable p) eqn:Hd; [discriminate|].
      injection Hs as ->. split; [reflexivity|].
      now apply (undecodable_child _ p).
Qed.

(** [exec_async_tasks] on the tasks of [run_async]. *)
Lemma exec_async_run (cmds paths : list string) (w : world) :
  exists prints,
    forallb is_print prints = true
    /\ exec_async_tasks outcome completion_order
         (map (fun path => run_async path cmds) paths) w
       = if forallb decodable
              (children outcome (spawned w) (length paths))
         then
           (Ok (map (fun pi =>
                       if negb (Z.eqb (returncode (outcome (snd pi))) 0)
                       then Some (fst pi) else None)
                    (combine paths (seq (spawned w) (length paths)))),
            mkWorld (store_file w) (repos_cache w)
                    (trace w ++ map (EAsyncExec cmds) paths ++ prints
                     ++ [EGathered (length paths)])
                    (spawned w + length paths))
         else
           (Raise UnicodeDecodeError,
            mkWorld (store_file w) (repos_cache w)
                    (trace w ++ map (EAsyncExec cmds) paths ++ prints)
                    (spawned w + length paths)).
Proof.
  unfold exec_async_tasks. rewrite length_map, map_map.
  cbn [task_exec run_async].
  destruct (finish_run_async cmds paths (spawned w)
              (completion_order (length paths))) as [Hp Hr].
  cbv zeta in Hp, Hr. rewrite gather_results.
  destruct (finish_tasks _ _) as [prints raised]. cbn [fst snd] in Hp, Hr.
  exists prints. split; [exact Hp|].
  destruct Hr as [->|[-> Hd]].
  - destruct (forallb decodable _); reflexivity.
  - rewrite Hd. reflexivity.
Qed.

(** The loop over the results of [gather]. *)
Lemma retry_loop (cmds : list string) (errors : list (option string))
    (w : world) :
  for_each errors
    (fun r =>
       match r with
       | Some path =>
           if truthy r then print path ;;; subprocess_run cmds path
           else ret tt
       | None => ret tt
       end) w
  = (Ok tt,
     mkWorld (store_file w) (repos_cache w)
             (trace w ++ retry_events cmds errors)
             (spawned w + length (filter truthy errors))).
Proof.
  revert w. induction errors as [|r errors IH]; intros w.
  - simpl. unfold ret. destruct w; simpl.
    now rewrite app_nil_r, Nat.add_0_r.
  - simpl. destruct r as [path|].
    + destruct (truthy (Some path)) eqn:Ht.
      * unfold bind at 1. unfold bind at 1.
        unfold print, emit, subprocess_run. simpl.
        rewrite IH. simpl. f_equal. f_equal.
        -- now rewrite <- !app_assoc.
        -- lia.
      * unfold bind at 1. unfold ret at 1. rewrite IH. reflexivity.
    + unfold bind at 1. unfold ret at 1. rewrite IH. reflexivity.
Qed.

(** With non-empty paths, the retried results are the failed paths. *)
Lemma retry_events_failed (cmds paths : list string) (pid : nat) :
  Forall (fun p => p <> EmptyString) paths ->
  let errors :=
    map (fun pi => if negb (Z.eqb (returncode (outcome (snd pi))) 0)
                   then Some (fst pi) else None)
        (combine paths (seq pid (length paths))) in
  retry_events cmds errors
  = serial_events cmds (failed_paths outcome paths pid)
  /\ length (filter truthy errors)
     = length (failed_paths outcome paths pid).
Proof.
  intros Hne. revert pid.
  induction Hne as [|p paths Hp Hne IH]; intros pid.
  - split; reflexivity.
  - destruct (IH (S pid)) as [IH1 IH2]. unfold failed_paths in *.
    simpl. destruct (Z.eqb (returncode (outcome pid)) 0); simpl.
    + split; assumption.
    + destruct p as [|c p]; [contradiction|]. simpl.
      split; [now rewrite IH1 | now rewrite IH2].
Qed.

Lemma spawns_of_execs (cmds paths : list string) :
  filter is_spawn (map (EAsyncExec cmds) paths) = map (EAsyncExec cmds) paths.
Proof. induction paths as [|p paths IH]; simpl; congruence. Qed.

Lemma spawns_of_prints (l : list event) :
  forallb is_print l = true -> filter is_spawn l = [].
Proof.
  induction l as [|e l IH]; simpl; [reflexivity|].
  intros H. apply andb_true_iff in H as [He Hl].
  destruct e; try discriminate. simpl. auto.
Qed.

Lemma spawns_of_serial (cmds paths : list string) :
  length (filter is_spawn (serial_events cmds paths)) = length paths.
Proof. induction paths as [|p paths IH]; simpl; congruence. Qed.

Lemma serial_events_no_gather (cmds paths : list string) (n : nat) :
  ~ In (EGathered n) (serial_events cmds paths).
Proof.
  induction paths as [|p paths IH]; simpl; [tauto|].
  intros [H|[H|H]]; try discriminate. contradiction.
Qed.

(** The concurrent branch of [f_git_cmd]: when every captured output can
    be decoded, the failures are retried after the barrier; when one
    cannot, the exception of its task ends the run before the retries. *)
Lemma concurrent_branch (cmds paths : list string) (w : world) :
  let errors :=
    map (fun pi => if negb (Z.eqb (returncode (outcome (snd pi))) 0)
                   then Some (fst pi) else None)
        (combine paths (seq (spawned w) (length paths))) in
  exists prints,
    forallb is_print prints = true
    /\ (errors <- exec_async_tasks outcome completion_order
                    (map (fun path => run_async path cmds) paths) ;;
        for_each errors
          (fun r =>
             match r with
             | Some path =>
                 if truthy r then print path ;;; subprocess_run cmds path
                 else ret tt
             | None => ret tt
             end)) w
       = if forallb decodable
              (children outcome (spawned w) (length paths))
         then
           (Ok tt,
            mkWorld (store_file w) (repos_cache w)
                    (trace w ++ map (EAsyncExec cmds) paths ++ prints
                     ++ [EGathered (length paths)]
                     ++ retry_events cmds errors)
                    (spawned w + length paths
                     + length (filter truthy errors)))
         else
           (Raise UnicodeDecodeError,
            mkWorld (store_file w) (repos_cache w)
                    (trace w ++ map (EAsyncExec cmds) paths ++ prints)
                    (spawned w + length paths)).
Proof.
  intros errors.
  destruct (exec_async_run cmds paths w) as (prints & Hp & Hrun).
  exists prints. split; [exact Hp|].
  unfold bind at 1. rewrite Hrun.
  destruct (forallb decodable _); [|reflexivity].
  fold errors. rewrite retry_loop. cbn [store_file repos_cache trace spawned].
  f_equal. f_equal. rewrite <- !app_assoc. reflexivity.
Qed.

Lemma length_values (repos : Dict.t) :
  length (Dict.values repos) = length repos.
Proof. apply length_map. Qed.

Lemma dispatch_serial_branch (repos : Dict.t) (cmd bl : list string)
    (w : world) :
  length repos = 1 \/ denylisted cmd bl = true ->
  dispatch outcome completion_order repos cmd bl w
  = (Ok tt,
     mkWorld (store_file w) (repos_cache w)
             (trace w ++ serial_events ("git" :: cmd) (Dict.values repos))
             (spawned w + length repos)).
Proof.
  intros H. unfold dispatch.
  destruct (Nat.eqb_spec (length repos) 1) as [E|E].
  - rewrite serial_loop, length_values. reflexivity.
  - destruct H as [H|H]; [contradiction|].
    destruct cmd as [|verb rest]; [discriminate|]. simpl in *.
    rewrite H, serial_loop, length_values. reflexivity.
Qed.

(** C1, on the code.  A command that is not on the denylist, dispatched
    to more than one repository (paths being non-empty): one concurrent
    child is started per repository, in the order of the mapping, and the
    tasks print what they captured.  When every captured output can be
    decoded, the list of failures is walked only when [gather] has
    returned for all tasks, and each path whose concurrent child exited
    non-zero is printed and run once more, synchronously and in order: the
    children started are [|R|] plus the number of failures.  When some
    captured output is not UTF-8, [decode] raises in its task, the run
    ends with [UnicodeDecodeError] and no failed target is run again: the
    children started are [|R|], whatever the number of failures. *)
Theorem dispatch_concurrent_then_retry (repos : Dict.t)
    (cmd bl : list string) (w : world) :
  cmd <> [] ->
  denylisted cmd bl = false ->
  1 < length repos ->
  Forall (fun p => p <> EmptyString) (Dict.values repos) ->
  let cmds := "git" :: cmd in
  let paths := Dict.values repos in
  let failed := failed_paths outcome paths (spawned w) in
  let execs := map (EAsyncExec cmds) paths in
  let retries := [EGathered (length repos)] ++ serial_events cmds failed in
  exists prints,
    forallb is_print prints = true
    /\ (forallb decodable (children outcome (spawned w) (length repos)) = true
        -> dispatch outcome completion_order repos cmd bl w
           = (Ok tt,
              mkWorld (store_file w) (repos_cache w)
                      (trace w ++ execs ++ prints ++ retries)
                      (spawned w + length repos + length failed))
           /\ length (filter is_spawn (execs ++ prints ++ retries))
              = length repos + length failed)
    /\ (forallb decodable (children outcome (spawned w) (length repos))
        = false
        -> dispatch outcome completion_order repos cmd bl w
           = (Raise UnicodeDecodeError,
              mkWorld (store_file w) (repos_cache w)
                      (trace w ++ execs ++ prints)
                      (spawned w + length repos))
           /\ length (filter is_spawn (execs ++ prints)) = length repos).
Proof.
  intros Hcmd Hdeny Hlen Hne cmds paths failed execs retries.
  subst cmds paths failed execs retries.
  destruct (concurrent_branch ("git" :: cmd) (Dict.values repos) w)
    as (prints & Hprints & Hrun).
  destruct (retry_events_failed ("git" :: cmd) (Dict.values repos)
              (spawned w) Hne) as [Hev Hcount].
  cbv zeta in Hev, Hcount, Hrun. rewrite Hev, Hcount in Hrun.
  rewrite !length_values in Hrun.
  assert (Hd : dispatch outcome completion_order repos cmd bl w
               = (errors <- exec_async_tasks outcome completion_order
                              (map (fun path => run_async path ("git" :: cmd))
                                   (Dict.values repos)) ;;
                  for_each errors
                    (fun r =>
                       match r with
                       | Some path =>
                           if truthy r
                           then print path ;;;
                                subprocess_run ("git" :: cmd) path
                           else ret tt
                       | None => ret tt
                       end)) w).
  { unfold dispatch.
    destruct (Nat.eqb_spec (length repos) 1) as [E|_]; [lia|].
    destruct cmd as [|verb rest]; [contradiction|]. simpl in Hdeny. simpl.
    now rewrite Hdeny. }
  rewrite Hd, Hrun.
  exists prints. split; [exact Hprints|]. split; intros Hdec; rewrite Hdec.
  - split; [reflexivity|].
    rewrite !filter_app, !length_app, spawns_of_execs, length_map.
    rewrite (spawns_of_prints _ Hprints), spawns_of_serial.
    rewrite length_values. simpl. lia.
  - split; [reflexivity|].
    rewrite !filter_app, !length_app, spawns_of_execs, length_map.
    rewrite (spawns_of_prints _ Hprints).
    rewrite length_values. simpl. lia.
Qed.

(** C3.  A dispatch does what the serial loop does (print the path, then
    one synchronous [subprocess.run] with inherited stdio per target, in
    order) exactly when the target set has one entry or the root verb of
    the command is on the denylist; with one target the command is run
    once, synchronously, whatever the denylist says.  The denylist of
    [main] holds the names of the command table marked [disable_async]. *)
Theorem dispatch_serial_iff (repos : Dict.t) (cmd bl : list string)
    (w : world) :
  (dispatch outcome completion_order repos cmd bl w
   = (Ok tt,
      mkWorld (store_file w) (repos_cache w)
              (trace w ++ serial_events ("git" :: cmd) (Dict.values repos))
              (spawned w + length repos))
   <-> length repos = 1 \/ denylisted cmd bl = true)
  /\ (length repos = 1 ->
      exists name path,
        repos = [(name, path)]
        /\ dispatch outcome completion_order repos cmd bl w
           = (Ok tt,
              mkWorld (store_file w) (repos_cache w)
                      (trace w ++ [EPrint path; ERun ("git" :: cmd) path])
                      (S (spawned w))))
  /\ (forall table verb,
        inb verb (async_blacklist_of table) = true <-> In (verb, true) table).
Proof.
  split; [|split].
  - split; [|apply dispatch_serial_branch].
    intros Hrun.
    destruct (Nat.eq_dec (length repos) 1) as [E|E]; [now left|].
    destruct (denylisted cmd bl) eqn:Hdeny; [now right|].
    exfalso. unfold dispatch in Hrun.
    destruct (Nat.eqb_spec (length repos) 1) as [E'|_]; [contradiction|].
    destruct cmd as [|verb rest]; simpl in *; [discriminate|].
    rewrite Hdeny in Hrun.
    destruct (concurrent_branch ("git" :: verb :: rest) (Dict.values repos) w)
      as (prints & _ & Hc).
    cbv zeta in Hc. rewrite Hc in Hrun.
    destruct (forallb decodable _); [|discriminate].
    injection Hrun as Htrace _.
    apply app_inv_head in Htrace.
    apply (serial_events_no_gather ("git" :: verb :: rest) (Dict.values repos)
             (length (Dict.values repos))).
    rewrite <- Htrace. rewrite !in_app_iff. simpl. tauto.
  - intros Hlen.
    destruct repos as [|[name path] [|x l]]; try discriminate.
    exists name, path. split; [reflexivity|].
    rewrite dispatch_serial_branch by now left.
    simpl. now rewrite Nat.add_1_r.
  - intros table verb. unfold async_blacklist_of, inb, pyset.
    rewrite existsb_exists. split.
    + intros (x & Hin & Heq). apply String.eqb_eq in Heq. subst x.
      apply nodup_In, in_map_iff in Hin as ([v b] & Hv & Hin).
      apply filter_In in Hin as [Hin Hb]. simpl in *. now subst.
    + intros Hin. exists verb. split; [|apply String.eqb_refl].
      apply nodup_In, in_map_iff. exists (verb, true). split; [reflexivity|].
      apply filter_In. now split.
Qed.

(** [f_git_cmd] is [dispatch] on the resolved mapping. *)
Lemma f_git_cmd_dispatch (path_exists : string -> bool)
    (args_repo cmd bl : list string) (w : world) (every repos : Dict.t) :
  repos_cache w = Some every ->
  (match args_repo with
   | [] => Ok every
   | _ => restrict every args_repo []
   end) = Ok repos ->
  f_git_cmd path_exists outcome completion_order args_repo cmd bl w
  = dispatch outcome completion_order repos cmd bl w.
Proof.
  intros Hc Hr. unfold f_git_cmd, bind, get_repos. rewrite Hc.
  destruct args_repo as [|k ks].
  - injection Hr as <-. reflexivity.
  - unfold lift. now rewrite Hr.
Qed.

End Dispatcher.

(** ** The listing *)

Section Listing.

Variable info_funcs : list (string -> string).

Lemma insert_sorted_perm (x : string) (l : list string) :
  Permutation (Str.insert_sorted x l) (x :: l).
Proof.
  induction l as [|y l IH]; simpl; [reflexivity|].
  destruct (String.leb x y); [reflexivity|].
  rewrite IH. apply perm_swap.
Qed.

Lemma sorted_perm (l : list string) : Permutation (Str.sorted l) l.
Proof.
  induction l as [|x l IH]; simpl; [constructor|].
  rewrite insert_sorted_perm. now constructor.
Qed.

Lemma insert_sorted_sorted (x : string) (l : list string) :
  Sorted (fun a b => String.leb a b = true) l ->
  Sorted (fun a b => String.leb a b = true) (Str.insert_sorted x l).
Proof.
  induction 1 as [|y l Hs IH Hhd]; simpl.
  - repeat constructor.
  - destruct (String.leb x y) eqn:E.
    + constructor; [now constructor | now constructor].
    + constructor; [exact IH|].
      assert (Hyx : String.leb y x = true).
      { destruct (String.leb_total x y) as [H|H]; congruence. }
      destruct Hhd as [|z l' Hyz]; simpl.
      * now constructor.
      * destruct (String.leb x z); now constructor.
Qed.

Lemma sorted_sorted (l : list string) :
  Sorted (fun a b => String.leb a b = true) (Str.sorted l).
Proof.
  induction l as [|x l IH]; simpl; [constructor|].
  now apply insert_sorted_sorted.
Qed.

Lemma max_len_bound (l : list string) (x : string) :
  In x l -> String.length x <= Str.max_len l.
Proof.
  induction l as [|y l IH]; simpl; [tauto|].
  intros [->|H]; [lia|]. specialize (IH H). lia.
Qed.

Lemma describe_lines_ok (repos : Dict.t) (w : nat) (names : list string) :
  (forall name, In name names -> In name (Dict.keys repos)) ->
  exists lines,
    describe_lines info_funcs repos w names = Ok lines
    /\ Forall2
         (fun name line =>
            exists path,
              Dict.get repos name = Some path
              /\ line = Str.ljust w name
                        +++ String.concat " "
                              (map (fun f => f path) info_funcs))
         names lines.
Proof.
  induction names as [|name names IH]; intros Hin; simpl.
  - exists []. split; [reflexivity | constructor].
  - destruct (dict_get_in repos name (Hin name (or_introl eq_refl)))
      as [path Hpath].
    destruct IH as (lines & Hl & Hf).
    { intros m Hm. apply Hin. now right. }
    rewrite Hpath, Hl. eexists. split; [reflexivity|].
    constructor; [|exact Hf]. now exists path.
Qed.

(** C9, as the code has it.  [describe] yields one line per repository,
    in the order of the sorted names; the line of a repository is its name
    left-justified, that is padded with spaces on the right, to one more
    than the greatest name length, so that every name field has that width
    and ends in a space, followed by the outputs of the probes on its path
    joined by single spaces. *)
Theorem describe_spec (repos : Dict.t) :
  exists lines,
    describe info_funcs repos = Ok lines
    /\ length lines = length repos
    /\ Permutation (Str.sorted (Dict.keys repos)) (Dict.keys repos)
    /\ Sorted (fun a b => String.leb a b = true)
              (Str.sorted (Dict.keys repos))
    /\ Forall2
         (fun name line =>
            exists path,
              Dict.get repos name = Some path
              /\ line = describe_line info_funcs repos name path
              /\ String.length
                   (Str.ljust (Str.max_len (Dict.keys repos) + 1) name)
                 = Str.max_len (Dict.keys repos) + 1)
         (Str.sorted (Dict.keys repos)) lines.
Proof.
  pose proof (sorted_perm (Dict.keys repos)) as Hperm.
  destruct (describe_lines_ok repos (Str.max_len (Dict.keys repos) + 1)
              (Str.sorted (Dict.keys repos)))
    as (lines & Hl & Hf).
  { intros name H. now apply (Permutation_in _ Hperm). }
  exists lines. split; [exact Hl|]. split; [|split; [exact Hperm|split]].
  - rewrite <- (Forall2_length Hf), (Permutation_length Hperm).
    apply length_map.
  - apply sorted_sorted.
  - assert (Hin : Forall (fun name => In name (Dict.keys repos))
                         (Str.sorted (Dict.keys repos))).
    { apply Forall_forall. intros name H.
      now apply (Permutation_in _ Hperm). }
    refine (Forall2_strengthen _ _ _ _ _ _ Hf Hin).
    intros name line (path & Hp & ->) Hname. exists path.
    split; [exact Hp|]. split; [reflexivity|].
    apply length_ljust. apply max_len_bound in Hname. lia.
Qed.

End Listing.

(** ** Adding repositories *)

Lemma readlines_from_line (body cur : string) :
  Str.contains lf body = false ->
  Str.contains cr body = false ->
  readlines_from cur (body +++ nl) = [cur +++ body +++ nl].
Proof.
  revert cur. induction body as [|c body IH]; intros cur Hlf Hcr.
  - reflexivity.
  - simpl in Hlf, Hcr.
    apply orb_false_iff in Hlf as [Hc1 Hlf].
    apply orb_false_iff in Hcr as [Hc2 Hcr].
    simpl. rewrite Hc1, Hc2, (IH _ Hlf Hcr).
    now rewrite append_assoc.
Qed.

Lemma readlines_from_app_bounded (n : nat) :
  forall (s cur t : string),
    String.length s <= n ->
    Str.endswith lf s = true ->
    readlines_from cur (s +++ t)
    = readlines_from cur s ++ readlines_from EmptyString t.
Proof.
  induction n as [|n IH]; intros s cur t Hlen Hend.
  - destruct s; [discriminate | simpl in Hlen; lia].
  - destruct s as [|c r]; [discriminate|].
    simpl in Hlen.
    assert (Hrec : forall cur', r <> EmptyString ->
              readlines_from cur' (r +++ t)
              = readlines_from cur' r ++ readlines_from EmptyString t).
    { intros cur' Hr. apply IH; [lia|].
      destruct r; [contradiction | exact Hend]. }
    simpl.
    destruct (Ascii.eqb c lf) eqn:Elf.
    + destruct r as [|c' r']; [reflexivity|].
      simpl app. f_equal. apply Hrec. discriminate.
    + destruct (Ascii.eqb c cr) eqn:Ecr.
      * destruct r as [|c' r'].
        { simpl in Hend. congruence. }
        simpl String.append. cbv iota.
        destruct (Ascii.eqb c' lf) eqn:Elf'.
        -- destruct r' as [|c'' r'']; [reflexivity|].
           simpl app. f_equal. apply IH; [simpl in *; lia|].
           exact Hend.
        -- simpl app. f_equal.
           change (String c' (r' +++ t)) with (String c' r' +++ t).
           apply Hrec. discriminate.
      * destruct r as [|c' r'].
        { simpl in Hend. congruence. }
        apply Hrec. discriminate.
Qed.

(** A line appended to a file of complete lines is read back as a line of
    its own, after the lines the file had. *)
Lemma readlines_append_line (file : option string) (body : string) :
  complete_lines file = true ->
  Str.contains lf body = false ->
  Str.contains cr body = false ->
  readlines (file_text file +++ body +++ nl)
  = readlines (file_text file) ++ [body +++ nl].
Proof.
  intros Hfile Hlf Hcr. unfold readlines.
  assert (Hline : readlines_from EmptyString (body +++ nl) = [body +++ nl])
    by now apply readlines_from_line.
  destruct file as [s|]; simpl in *; [|exact Hline].
  destruct (Str.is_empty s) eqn:He; simpl in Hfile.
  - apply is_empty_true in He. subst s. exact Hline.
  - rewrite (readlines_from_app_bounded (String.length s))
      by (auto; lia).
    now rewrite Hline.
Qed.

Lemma load_lines_app (path_exists : string -> bool)
    (l1 l2 : list string) (repos : Dict.t) :
  load_lines path_exists (l1 ++ l2) repos
  = match load_lines path_exists l1 repos with
    | Ok repos' => load_lines path_exists l2 repos'
    | Raise e => Raise e
    end.
Proof.
  revert repos. induction l1 as [|l l1 IH]; intros repos; simpl.
  - reflexivity.
  - destruct (load_line path_exists repos l); [apply IH | reflexivity].
Qed.

(** The line that [write_to_repo_file] writes for a path and a name
    without commas is read back as that path, with the name stripped of
    trailing white space. *)
Lemma parse_store_line (path name : string) :
  Str.contains comma path = false ->
  Str.contains comma name = false ->
  parse_line (store_line path name)
  = Ok (Some (path, Str.rstrip (name +++ nl))).
Proof.
  intros Hp Hn. unfold parse_line, store_line.
  change ("," +++ name +++ nl) with (String comma (name +++ nl)).
  rewrite (rstrip_keeps_prefix _ _ _ isspace_comma).
  rewrite is_empty_append. simpl. rewrite andb_false_r.
  rewrite (split_at_sep _ _ _ Hp).
  rewrite split_no_sep; [reflexivity|].
  destruct (Str.contains comma (Str.rstrip (name +++ nl))) eqn:E;
    [|reflexivity].
  apply contains_rstrip in E. rewrite contains_append, Hn in E.
  discriminate.
Qed.

(** *** The characters of a default name come from the path *)

Lemma contains_rsplit_tail (x : ascii) (p : string) :
  Str.contains x (snd (Posixpath.rsplit_sep p)) = true ->
  Str.contains x p = true.
Proof.
  induction p as [|c p IH]; simpl; [congruence|].
  destruct (Posixpath.rsplit_sep p) as [h t]. simpl in *.
  destruct (Str.is_empty h); simpl.
  - destruct (Ascii.eqb c Posixpath.sep); simpl.
    + intros H. rewrite (IH H). apply orb_true_r.
    + intros H. apply orb_true_iff in H as [H|H].
      * now rewrite H.
      * rewrite (IH H). apply orb_true_r.
  - intros H. rewrite (IH H). apply orb_true_r.
Qed.

Lemma contains_basename (x : ascii) (p : string) :
  Str.contains x (Posixpath.basename p) = true -> Str.contains x p = true.
Proof. apply contains_rsplit_tail. Qed.

Lemma contains_split (x sep : ascii) (s comp : string) :
  In comp (Str.split sep s) ->
  Str.contains x comp = true -> Str.contains x s = true.
Proof.
  revert comp. induction s as [|c s IH]; intros comp; simpl.
  - intros [<-|[]]. simpl. congruence.
  - destruct (Ascii.eqb c sep).
    + intros [<-|H] Hx; [discriminate|].
      rewrite (IH _ H Hx). apply orb_true_r.
    + destruct (Str.split sep s) as [|h t] eqn:E.
      * intros [<-|[]]. simpl. rewrite orb_false_r. intros ->. reflexivity.
      * intros [<-|H] Hx.
        -- simpl in Hx. apply orb_true_iff in Hx as [Hx|Hx].
           ++ now rewrite Hx.
           ++ rewrite (IH h (or_introl eq_refl) Hx). apply orb_true_r.
        -- rewrite (IH comp (or_intror H) Hx). apply orb_true_r.
Qed.

Lemma in_norm_comps (k : nat) (comps acc : list string) (comp : string) :
  In comp (Posixpath.norm_comps k comps acc) ->
  In comp comps \/ In comp acc.
Proof.
  revert acc. induction comps as [|c comps IH]; intros acc; simpl.
  - intros H. right. now apply in_rev.
  - destruct (String.eqb c EmptyString || String.eqb c ".").
    + intros H. destruct (IH _ H); tauto.
    + match goal with |- In _ (if ?b then _ else _) -> _ => destruct b end.
      * intros H. destruct (IH _ H) as [H'|[H'|H']]; auto.
      * destruct acc as [|a acc'].
        -- intros H. destruct (IH _ H); tauto.
        -- intros H. destruct (IH _ H); simpl; tauto.
Qed.

Lemma contains_concat (x : ascii) (l : list string) :
  Str.contains x (String.concat "/" l) = true ->
  x = Posixpath.sep
  \/ exists comp, In comp l /\ Str.contains x comp = true.
Proof.
  induction l as [|a l IH]; simpl; [discriminate|].
  destruct l as [|b l'].
  - intros H. right. exists a. split; [now left | exact H].
  - rewrite contains_append. intros H. apply orb_true_iff in H as [H|H].
    + right. exists a. split; [now left | exact H].
    + change (Str.contains x
                (String Posixpath.sep (String.concat "/" (b :: l'))) = true)
        in H.
      rewrite contains_cons in H. apply orb_true_iff in H as [H|H].
      * left. apply Ascii.eqb_eq in H. now symmetry.
      * destruct (IH H) as [->|(comp & Hin & Hc)]; [now left|].
        right. exists comp. split; [now right | exact Hc].
Qed.

Lemma contains_repeat_char (x c : ascii) (n : nat) :
  Str.contains x (Str.repeat_char c n) = true -> x = c.
Proof.
  induction n as [|n IH]; simpl; [discriminate|].
  intros H. apply orb_true_iff in H as [H|H]; [|auto].
  apply Ascii.eqb_eq in H. now symmetry.
Qed.

Lemma contains_normpath (x : ascii) (p : string) :
  Str.contains x (Posixpath.normpath p) = true ->
  x = Posixpath.sep \/ x = "."%char \/ Str.contains x p = true.
Proof.
  unfold Posixpath.normpath.
  assert (Hdot : Str.contains x "." = true -> x = "."%char).
  { rewrite contains_cons. intros H. apply orb_true_iff in H as [H|H].
    - apply Ascii.eqb_eq in H. now symmetry.
    - discriminate. }
  destruct (Str.is_empty p); [auto|].
  match goal with
  | |- Str.contains x (if Str.is_empty ?s then _ else _) = true -> _ =>
      destruct (Str.is_empty s); [auto|]
  end.
  rewrite contains_append. intros H. apply orb_true_iff in H as [H|H].
  - left. now apply contains_repeat_char in H.
  - apply contains_concat in H as [->|(comp & Hin & Hc)]; [now left|].
    apply in_norm_comps in Hin as [Hin|[]].
    right. right. eapply contains_split; eauto.
Qed.

Lemma default_name_chars (x : ascii) (path : string) :
  x <> Posixpath.sep -> x <> "."%char ->
  Str.contains x path = false ->
  Str.contains x (Posixpath.basename (Posixpath.normpath path)) = false.
Proof.
  intros H1 H2 H.
  destruct (Str.contains x
              (Posixpath.basename (Posixpath.normpath path))) eqn:E;
    [|reflexivity].
  apply contains_basename, contains_normpath in E as [E|[E|E]];
    congruence.
Qed.

Lemma inb_true_iff (x : string) (l : list string) :
  inb x l = true <-> In x l.
Proof.
  unfold inb. rewrite existsb_exists. split.
  - intros (y & Hin & Heq). apply String.eqb_eq in Heq. now subst.
  - intros H. exists x. split; [exact H | apply String.eqb_refl].
Qed.

Section Adding.

Variable path_exists : string -> bool.
Variable getcwd : string.
Variable set_iter : list string -> list string.

Hypothesis set_iter_perm : forall l, Permutation (set_iter l) l.

Lemma add_repos_known (repos : Dict.t) (p : string) (w : world) :
  is_git path_exists p = true ->
  In (Posixpath.abspath getcwd p) (Dict.values repos) ->
  add_repos path_exists getcwd set_iter repos [p] w
  = (Ok tt,
     mkWorld (store_file w) (repos_cache w)
             (trace w ++ [EPrint "No new repos found!"]) (spawned w)).
Proof.
  intros Hgit Hin. unfold add_repos. simpl. rewrite Hgit. simpl.
  unfold set_diff. simpl.
  assert (H : inb (Posixpath.abspath getcwd p) (pyset (Dict.values repos))
              = true).
  { apply inb_true_iff. unfold pyset. now apply nodup_In. }
  rewrite H. reflexivity.
Qed.

Lemma add_repos_new (repos : Dict.t) (p : string) (w : world) :
  is_git path_exists p = true ->
  ~ In (Posixpath.abspath getcwd p) (Dict.values repos) ->
  let abs := Posixpath.abspath getcwd p in
  add_repos path_exists getcwd set_iter repos [p] w
  = (Ok tt,
     mkWorld (Some (file_text (store_file w)
                    +++ store_line abs
                          (Posixpath.basename (Posixpath.normpath abs))))
             (repos_cache w)
             (trace w ++ [EPrint "Found 1 new repo(s)."]) (spawned w)).
Proof.
  intros Hgit Hin abs. unfold add_repos. simpl. rewrite Hgit. simpl.
  unfold set_diff. simpl. fold abs.
  assert (H : inb abs (pyset (Dict.values repos)) = false).
  { destruct (inb abs (pyset (Dict.values repos))) eqn:E; [|reflexivity].
    apply inb_true_iff in E. unfold pyset in E. apply nodup_In in E.
    contradiction. }
  rewrite H. simpl.
  pose proof (set_iter_perm [abs]) as Hperm.
  apply Permutation_sym, Permutation_length_1_inv in Hperm.
  rewrite Hperm. unfold bind, print, emit, write_to_repo_file. simpl.
  destruct (store_file w); reflexivity.
Qed.

(** After the line of a plain, valid path is appended to a path file of
    complete lines that loads, the file loads again and the path is among
    the values. *)
Lemma reload_after_append (file : option string) (repos : Dict.t)
    (abs : string) :
  read_repos path_exists file = Ok repos ->
  complete_lines file = true ->
  plain_field abs = true ->
  is_git path_exists abs = true ->
  exists repos1,
    read_repos path_exists
      (Some (file_text file
             +++ store_line abs (Posixpath.basename (Posixpath.normpath abs))))
    = Ok repos1
    /\ In abs (Dict.values repos1).
Proof.
  intros Hload Hfile Hplain Hgit.
  set (name := Posixpath.basename (Posixpath.normpath abs)).
  unfold plain_field in Hplain.
  apply andb_true_iff in Hplain as [Hplain Hcr].
  apply andb_true_iff in Hplain as [Hcomma Hlf].
  apply negb_true_iff in Hcomma, Hlf, Hcr.
  assert (Hn1 : Str.contains comma name = false)
    by (apply default_name_chars; [discriminate | discriminate | assumption]).
  assert (Hn2 : Str.contains lf name = false)
    by (apply default_name_chars; [discriminate | discriminate | assumption]).
  assert (Hn3 : Str.contains cr name = false)
    by (apply default_name_chars; [discriminate | discriminate | assumption]).
  assert (Hold : load_lines path_exists (readlines (file_text file)) []
                 = Ok repos).
  { destruct file as [s|]; simpl in *.
    - destruct (Str.is_empty s) eqn:He; simpl in Hload; [|exact Hload].
      apply is_empty_true in He. subst s. exact Hload.
    - exact Hload. }
  assert (Hline : store_line abs name = (abs +++ "," +++ name) +++ nl).
  { unfold store_line. now rewrite !append_assoc. }
  unfold read_repos.
  rewrite is_empty_append.
  replace (Str.is_empty (store_line abs name)) with false
    by (unfold store_line; now rewrite is_empty_append, andb_false_r).
  rewrite andb_false_r. simpl negb. cbv iota.
  rewrite Hline, readlines_append_line; try assumption.
  2:{ rewrite !contains_append, Hlf, Hn2. reflexivity. }
  2:{ rewrite !contains_append, Hcr, Hn3. reflexivity. }
  rewrite load_lines_app, Hold. cbn [load_lines].
  rewrite load_line_parse, <- Hline, (parse_store_line _ _ Hcomma Hn1).
  eexists. split; [reflexivity|].
  unfold register, rekey. simpl. rewrite Hgit. simpl.
  destruct (Dict.mem repos (Str.rstrip (name +++ nl)));
    apply dict_set_value.
Qed.

Lemma f_add_fresh (file : option string) (repos : Dict.t)
    (paths : list string) :
  read_repos path_exists file = Ok repos ->
  f_add path_exists getcwd set_iter paths (fresh file)
  = add_repos path_exists getcwd set_iter repos paths
      (mkWorld file (Some repos) [] 0).
Proof.
  intros H. unfold f_add, bind, get_repos, fresh. simpl. now rewrite H.
Qed.

(** C8, as the code has it.  Let [p] pass the repository check both as
    it is given and as the absolute path that [os.path.abspath] makes of
    it, that absolute path having no comma and no line break, and let the
    path file be one that loads and is missing, empty or ended by a line
    feed.  [add]
    of [p] in a fresh process either finds the path registered and leaves
    the file alone, or appends the one line [path,name]; the file then
    loads with the path among its values, and [add] of [p] in a second
    fresh process appends nothing and prints that no new repos were
    found. *)
Theorem add_twice_registers_once (file : option string) (repos : Dict.t)
    (p : string) :
  read_repos path_exists file = Ok repos ->
  complete_lines file = true ->
  is_git path_exists p = true ->
  is_git path_exists (Posixpath.abspath getcwd p) = true ->
  plain_field (Posixpath.abspath getcwd p) = true ->
  let abs := Posixpath.abspath getcwd p in
  let known := inb abs (Dict.values repos) in
  exists w1 w2 repos1,
    f_add path_exists getcwd set_iter [p] (fresh file) = (Ok tt, w1)
    /\ store_file w1
       = (if known then file
          else Some (file_text file
                     +++ store_line abs
                           (Posixpath.basename (Posixpath.normpath abs))))
    /\ trace w1
       = [EPrint (if known then "No new repos found!"
                  else "Found 1 new repo(s).")]
    /\ read_repos path_exists (store_file w1) = Ok repos1
    /\ In abs (Dict.values repos1)
    /\ f_add path_exists getcwd set_iter [p] (fresh (store_file w1))
       = (Ok tt, w2)
    /\ store_file w2 = store_file w1
    /\ trace w2 = [EPrint "No new repos found!"].
Proof.
  intros Hload Hfile Hgit Hgit' Hplain abs known.
  destruct known eqn:Hknown; unfold known in Hknown.
  - apply inb_true_iff in Hknown.
    exists (mkWorld file (Some repos) [EPrint "No new repos found!"] 0).
    exists (mkWorld file (Some repos) [EPrint "No new repos found!"] 0).
    exists repos. simpl.
    assert (Hrun : f_add path_exists getcwd set_iter [p] (fresh file)
                   = (Ok tt,
                      mkWorld file (Some repos)
                              [EPrint "No new repos found!"] 0)).
    { rewrite (f_add_fresh _ _ _ Hload).
      now rewrite (add_repos_known _ _ _ Hgit Hknown). }
    repeat split; try reflexivity; assumption.
  - assert (Hnew : ~ In abs (Dict.values repos)).
    { intros H. apply inb_true_iff in H. congruence. }
    destruct (reload_after_append file repos abs Hload Hfile Hplain Hgit')
      as (repos1 & Hload1 & Hin1).
    set (file1 := Some (file_text file
                        +++ store_line abs
                              (Posixpath.basename (Posixpath.normpath abs))))
      in *.
    exists (mkWorld file1 (Some repos) [EPrint "Found 1 new repo(s)."] 0).
    exists (mkWorld file1 (Some repos1) [EPrint "No new repos found!"] 0).
    exists repos1. simpl.
    split.
    { rewrite (f_add_fresh _ _ _ Hload).
      now rewrite (add_repos_new _ _ _ Hgit Hnew). }
    split; [reflexivity|]. split; [reflexivity|].
    split; [exact Hload1|]. split; [exact Hin1|].
    split.
    { rewrite (f_add_fresh _ _ _ Hload1).
      now rewrite (add_repos_known _ _ _ Hgit Hin1). }
    split; reflexivity.
Qed.

End Adding.

(** C7, on the code.  Two new repositories whose directories have the same
    name, added in one call: the count printed is 2, and one line only is
    appended, for whichever path the set yields last, because the new
    entries are collected in a dict keyed by the directory name. *)
Theorem add_same_basename_reports_two_appends_one
    (getcwd : string) (set_iter : list string -> list string) :
  (forall l, Permutation (set_iter l) l) ->
  let fs := fun p => inb p ["/a/r/.git"; "/b/r/.git"] in
  exists path,
    (path = "/a/r" \/ path = "/b/r")
    /\ f_add fs getcwd set_iter ["/a/r"; "/b/r"] (fresh None)
       = (Ok tt,
          mkWorld (Some (store_line path "r")) (Some [])
                  [EPrint "Found 2 new repo(s)."] 0)
    /\ length (readlines (store_line path "r")) = 1.
Proof.
  intros set_iter_perm fs.
  assert (Hset :
    set_diff
      (pyset (map (Posixpath.abspath getcwd)
                  (filter (is_git fs) ["/a/r"; "/b/r"])))
      (pyset (Dict.values [])) = ["/a/r"; "/b/r"]) by reflexivity.
  rewrite (f_add_fresh fs getcwd set_iter None [] _ eq_refl).
  unfold add_repos. rewrite Hset.
  pose proof (set_iter_perm ["/a/r"; "/b/r"]) as Hperm.
  apply Permutation_sym, Permutation_length_2_inv in Hperm.
  destruct Hperm as [Hperm|Hperm]; rewrite Hperm.
  - exists "/b/r". split; [now right|]. split; reflexivity.
  - exists "/a/r". split; [now left|]. split; reflexivity.
Qed.

(** * Concrete runs *)

(** ** The dispatcher *)

(** Three repositories, [status] not on the denylist, the child of the
    second one failing: three concurrent children, then one retry.  Two
    repositories, [fetch], the child of the first one failing with a
    message that is not UTF-8: the run ends with [UnicodeDecodeError]
    after the two concurrent children, and the failed target is not run
    again. *)
Lemma dispatch_concurrent_then_retry_witness :
  (exists prints,
     forallb is_print prints = true
     /\ dispatch (exits_of [1]) in_reverse
          [("A", "/r/A"); ("B", "/r/B"); ("C", "/r/C")] ["status"] ["push"]
          (fresh None)
        = (Ok tt,
           mkWorld None None
                   ([] ++ map (EAsyncExec ["git"; "status"])
                              ["/r/A"; "/r/B"; "/r/C"]
                    ++ prints ++ [EGathered 3]
                    ++ serial_events ["git"; "status"] ["/r/B"])
                   (0 + 3 + 1)))
  /\ (failed_paths (garbled_of [0]) ["/r/A"; "/r/B"] 0 = ["/r/A"]
      /\ exists prints,
           forallb is_print prints = true
           /\ dispatch (garbled_of [0]) in_order
                [("A", "/r/A"); ("B", "/r/B")] ["fetch"] ["push"]
                (fresh None)
              = (Raise UnicodeDecodeError,
                 mkWorld None None
                         ([] ++ map (EAsyncExec ["git"; "fetch"])
                                    ["/r/A"; "/r/B"]
                          ++ prints)
                         (0 + 2))).
Proof.
  split; [|split; [reflexivity|]].
  - destruct (dispatch_concurrent_then_retry (exits_of [1]) in_reverse
                [("A", "/r/A"); ("B", "/r/B"); ("C", "/r/C")]
                ["status"] ["push"] (fresh None)
                ltac:(discriminate) eq_refl ltac:(simpl; lia)
                ltac:(repeat constructor; discriminate))
      as (prints & Hp & Hok & _).
    exists prints. split; [exact Hp|]. apply (Hok eq_refl).
  - destruct (dispatch_concurrent_then_retry (garbled_of [0]) in_order
                [("A", "/r/A"); ("B", "/r/B")]
                ["fetch"] ["push"] (fresh None)
                ltac:(discriminate) eq_refl ltac:(simpl; lia)
                ltac:(repeat constructor; discriminate))
      as (prints & Hp & _ & Hbad).
    exists prints. split; [exact Hp|]. apply (Hbad eq_refl).
Defined.

(** The second run of the witness, evaluated: two children started, no
    output shown, nothing retried. *)
Example dispatch_undecodable_output :
  dispatch (garbled_of [0]) in_order [("A", "/r/A"); ("B", "/r/B")]
           ["fetch"] ["push"] (fresh None)
  = (Raise UnicodeDecodeError,
     mkWorld None None
             [EAsyncExec ["git"; "fetch"] "/r/A";
              EAsyncExec ["git"; "fetch"] "/r/B"] 2).
Proof. vm_compute. reflexivity. Qed.

Lemma dispatch_serial_iff_witness :
  dispatch (exits_of []) in_order [("A", "/r/A")] ["fetch"] [] (fresh None)
  = (Ok tt,
     mkWorld None None
             [EPrint "/r/A"; ERun ["git"; "fetch"] "/r/A"] 1).
Proof.
  destruct (dispatch_serial_iff (exits_of []) in_order
              [("A", "/r/A")] ["fetch"] [] (fresh None))
    as (_ & H & _).
  destruct (H eq_refl) as (name & path & Heq & Hrun).
  injection Heq as <- <-. exact Hrun.
Defined.

(** End-to-end scenario 4 of the spec. *)
Example dispatch_scenario_4 :
  trace (snd (dispatch (exits_of [1]) in_order
                [("A", "/r/A"); ("B", "/r/B"); ("C", "/r/C")]
                ["status"] ["push"] (fresh None)))
  = [EAsyncExec ["git"; "status"] "/r/A";
     EAsyncExec ["git"; "status"] "/r/B";
     EAsyncExec ["git"; "status"] "/r/C";
     EGathered 3;
     EPrint "/r/B"; ERun ["git"; "status"] "/r/B"].
Proof. reflexivity. Qed.

(** A denylisted verb is run serially on all three. *)
Example dispatch_denylisted :
  trace (snd (dispatch (exits_of [1]) in_order
                [("A", "/r/A"); ("B", "/r/B")]
                ["push"] ["push"] (fresh None)))
  = [EPrint "/r/A"; ERun ["git"; "push"] "/r/A";
     EPrint "/r/B"; ERun ["git"; "push"] "/r/B"].
Proof. reflexivity. Qed.

(** ** The registry *)

Lemma rename_repo_spec_witness :
  rename_repo [("k", "/y")] "old" "new" (fresh (Some ("/y,k" +++ nl)))
  = (Raise (KeyError "old"), fresh (Some ("/y,k" +++ nl)))
  /\ rename_repo [("old", "/x")] "old" "new" (fresh (Some ("/x,old" +++ nl)))
     = (Ok [("new", "/x")],
        mkWorld (Some ("/x,new" +++ nl)) None [] 0).
Proof.
  split.
  - apply (rename_repo_spec [("k", "/y")] "old" "new"
             (fresh (Some ("/y,k" +++ nl)))).
    reflexivity.
  - destruct (rename_repo_spec [("old", "/x")] "old" "new"
                (fresh (Some ("/x,old" +++ nl)))) as (_ & _ & H).
    apply (H "/x" eq_refl).
Defined.

(** C2, the claim as stated fails.  Two entries of one name.  When the
    later one is not a repository any more it is skipped and there is one
    key.  When both are repositories and the later one lies right under
    the root, its parent directory has the empty name, [os.path.join]
    returns the bare name, and the later path replaces the first under the
    one key; a name that starts with a slash is returned bare by
    [os.path.join] in the same way.  When a third entry has the name and
    the parent name of the second, it takes the re-keyed name over and the
    second entry is lost. *)
Lemma load_collision_counterexample :
  let s1 := store_line "/a/repo1" "repo1" +++ store_line "/b/repo1" "repo1" in
  let s2 := store_line "/a/repo1" "repo1" +++ store_line "/repo1" "repo1" in
  let s3 := store_line "/a/x" "/r" +++ store_line "/b/x" "/r" in
  let s4 := store_line "/a/x/r" "r" +++ store_line "/b/x/r" "r"
            +++ store_line "/c/x/r" "r" in
  let fs1 := fs_of ["/a/repo1/.git"] in
  let fs2 := fs_of ["/a/repo1/.git"; "/repo1/.git"] in
  let fs3 := fs_of ["/a/x/.git"; "/b/x/.git"] in
  let fs4 := fs_of ["/a/x/r/.git"; "/b/x/r/.git"; "/c/x/r/.git"] in
  (entries s1 = Ok [("/a/repo1", "repo1"); ("/b/repo1", "repo1")]
   /\ read_repos fs1 (Some s1) = Ok [("repo1", "/a/repo1")])
  /\ (entries s2 = Ok [("/a/repo1", "repo1"); ("/repo1", "repo1")]
      /\ read_repos fs2 (Some s2) = Ok [("repo1", "/repo1")]
      /\ ~ (exists repos k1 k2,
              read_repos fs2 (Some s2) = Ok repos
              /\ k1 <> k2
              /\ Dict.get repos k1 = Some "/a/repo1"
              /\ Dict.get repos k2 = Some "/repo1"))
  /\ read_repos fs3 (Some s3) = Ok [("/r", "/b/x")]
  /\ read_repos fs4 (Some s4) = Ok [("r", "/a/x/r"); ("x/r", "/c/x/r")].
Proof.
  intros s1 s2 s3 s4 fs1 fs2 fs3 fs4.
  assert (Hr : read_repos fs2 (Some s2) = Ok [("repo1", "/repo1")])
    by (vm_compute; reflexivity).
  split; [split; vm_compute; reflexivity|].
  split; [|split; vm_compute; reflexivity].
  split; [vm_compute; reflexivity|]. split; [exact Hr|].
  intros (repos & k1 & k2 & Hload & _ & H1 & _).
  rewrite Hr in Hload. injection Hload as <-.
  cbn [Dict.get] in H1. destruct (String.eqb "repo1" k1); discriminate.
Qed.

(** Three repositories named [repo1] and two named [alpha]: the pair
    taken is the first and the third [repo1]. *)
Lemma load_collision_rekeys_later_witness :
  let fs := fs_of ["/x/alpha/.git"; "/a/repo1/.git"; "/b/repo1/.git";
                   "/c/repo1/.git"; "/z/alpha/.git"] in
  let s := store_line "/x/alpha" "alpha" +++ store_line "/a/repo1" "repo1"
           +++ nl +++ store_line "/gone/zzz" "zzz"
           +++ store_line "/b/repo1" "repo1" +++ store_line "/c/repo1" "repo1"
           +++ store_line "/z/alpha" "alpha" in
  exists repos,
    read_repos fs (Some s) = Ok repos
    /\ Dict.get repos "repo1" = Some "/a/repo1"
    /\ Dict.get repos (rekeyed_name "/c/repo1" "repo1") = Some "/c/repo1"
    /\ "repo1" <> rekeyed_name "/c/repo1" "repo1"
    /\ repos = [("alpha", "/x/alpha"); ("repo1", "/a/repo1");
                ("b/repo1", "/b/repo1"); ("c/repo1", "/c/repo1");
                ("z/alpha", "/z/alpha")].
Proof.
  intros fs s.
  destruct (load_collision_rekeys_later fs s
              [("/x/alpha", "alpha"); ("/a/repo1", "repo1");
               ("/gone/zzz", "zzz"); ("/b/repo1", "repo1");
               ("/c/repo1", "repo1"); ("/z/alpha", "alpha")]
              [("/x/alpha", "alpha")] [("/b/repo1", "repo1")]
              [("/z/alpha", "alpha")]
              "/a/repo1" "/c/repo1" "repo1")
    as (repos & Hload & H1 & H2 & Hne & Hall & _).
  - vm_compute. reflexivity.
  - vm_compute. reflexivity.
  - vm_compute. discriminate.
  - reflexivity.
  - intros q Hq. vm_compute in Hq. intuition congruence.
  - intros q Hq. vm_compute in Hq. intuition congruence.
  - exists repos. repeat split; try assumption.
    rewrite Hall; [vm_compute; reflexivity|].
    vm_compute. repeat constructor; simpl; intuition discriminate.
Defined.

(** End-to-end scenario 1 of the spec. *)
Example load_scenario_1 :
  read_repos (fs_of ["/a/repo1/.git"; "/b/repo1/.git"])
    (Some (store_line "/a/repo1" "repo1" +++ store_line "/b/repo1" "repo1"))
  = Ok [("repo1", "/a/repo1"); ("b/repo1", "/b/repo1")].
Proof. vm_compute. reflexivity. Qed.

(** End-to-end scenario 2 of the spec. *)
Example load_scenario_2 :
  read_repos (fs_of []) None = Ok []
  /\ read_repos (fs_of []) (Some EmptyString) = Ok [].
Proof. split; reflexivity. Qed.

(** C10, the claim as stated fails.  The same line twice.  For a path
    that is not a repository the mapping is empty.  For a repository right
    under the root the second reading writes the one key again: one key,
    one value; so it is for a name that starts with a slash.  When a
    later entry of another path takes the re-keyed name, the two keys
    hold two paths. *)
Lemma load_same_line_twice_counterexample :
  let s := store_line "/repo1" "repo1" +++ store_line "/repo1" "repo1" in
  let s3 := store_line "/a/x" "/r" +++ store_line "/a/x" "/r" in
  let s4 := store_line "/a/r" "r" +++ store_line "/a/r" "r"
            +++ store_line "/b/a/r" "r" in
  let fs := fs_of ["/repo1/.git"] in
  readlines s = [store_line "/repo1" "repo1"; store_line "/repo1" "repo1"]
  /\ read_repos (fs_of []) (Some s) = Ok []
  /\ read_repos fs (Some s) = Ok [("repo1", "/repo1")]
  /\ ~ (exists repos k1 k2,
          read_repos fs (Some s) = Ok repos
          /\ k1 <> k2
          /\ Dict.get repos k1 = Some "/repo1"
          /\ Dict.get repos k2 = Some "/repo1")
  /\ read_repos (fs_of ["/a/x/.git"]) (Some s3) = Ok [("/r", "/a/x")]
  /\ read_repos (fs_of ["/a/r/.git"; "/b/a/r/.git"]) (Some s4)
     = Ok [("r", "/a/r"); ("a/r", "/b/a/r")].
Proof.
  intros s s3 s4 fs.
  assert (Hr : read_repos fs (Some s) = Ok [("repo1", "/repo1")])
    by (vm_compute; reflexivity).
  split; [vm_compute; reflexivity|]. split; [vm_compute; reflexivity|].
  split; [exact Hr|].
  split; [|split; vm_compute; reflexivity].
  intros (repos & k1 & k2 & Hload & Hne & H1 & H2).
  rewrite Hr in Hload. injection Hload as <-.
  cbn [Dict.get] in H1, H2.
  destruct (String.eqb_spec "repo1" k1); [|discriminate].
  destruct (String.eqb_spec "repo1" k2); [|discriminate].
  congruence.
Qed.

(** The same line three times, among other entries. *)
Lemma load_same_line_twice_witness :
  let fs := fs_of ["/a/repo1/.git"; "/b/repo2/.git"] in
  let s := store_line "/a/repo1" "repo1" +++ store_line "/b/repo2" "repo2"
           +++ store_line "/a/repo1" "repo1" +++ store_line "/b/repo2" "repo2"
           +++ store_line "/a/repo1" "repo1" in
  exists repos,
    read_repos fs (Some s) = Ok repos
    /\ Dict.get repos "repo1" = Some "/a/repo1"
    /\ Dict.get repos (rekeyed_name "/a/repo1" "repo1") = Some "/a/repo1"
    /\ "repo1" <> rekeyed_name "/a/repo1" "repo1"
    /\ ~ NoDup (Dict.values repos).
Proof.
  intros fs s.
  apply (load_same_line_twice fs s
           [("/a/repo1", "repo1"); ("/b/repo2", "repo2");
            ("/a/repo1", "repo1"); ("/b/repo2", "repo2");
            ("/a/repo1", "repo1")]
           [] [("/b/repo2", "repo2")]
           [("/b/repo2", "repo2"); ("/a/repo1", "repo1")]
           "/a/repo1" "repo1").
  - vm_compute. reflexivity.
  - vm_compute. reflexivity.
  - vm_compute. discriminate.
  - reflexivity.
  - intros k q Hq Hk. vm_compute in Hq, Hk. intuition congruence.
Defined.



(** C6, the claim as stated fails.  A path with a comma in it: the line
    has two commas and the load raises [ValueError]. *)
Lemma load_comma_counterexample :
  let fs := fs_of ["/a,b/r/.git"] in
  let s := store_line "/a,b/r" "r" in
  readlines s = [s]
  /\ Str.split comma (Str.rstrip s) = ["/a"; "b/r"; "r"]
  /\ read_repos fs (Some s) = Raise ValueError
  /\ get_repos fs (fresh (Some s)) = (Raise ValueError, fresh (Some s)).
Proof. repeat split; vm_compute; reflexivity. Qed.

Lemma get_repos_extra_commas_witness :
  let fs := fs_of ["/a,b/r/.git"; "/x/.git"] in
  let s := store_line "/x" "x" +++ store_line "/a,b/r" "r" in
  read_repos fs (Some s) = Raise ValueError
  /\ get_repos fs (fresh (Some s)) = (Raise ValueError, fresh (Some s)).
Proof.
  intros fs s.
  apply (get_repos_extra_commas fs (fresh (Some s)) s
           (store_line "/a,b/r" "r")).
  - reflexivity.
  - reflexivity.
  - vm_compute. tauto.
  - vm_compute. lia.
Defined.

(** ** Adding repositories *)

Lemma add_same_basename_witness :
  let fs := fs_of ["/a/r/.git"; "/b/r/.git"] in
  exists path,
    (path = "/a/r" \/ path = "/b/r")
    /\ f_add fs "/home/u" (fun l => l) ["/a/r"; "/b/r"] (fresh None)
       = (Ok tt,
          mkWorld (Some (store_line path "r")) (Some [])
                  [EPrint "Found 2 new repo(s)."] 0)
    /\ length (readlines (store_line path "r")) = 1.
Proof.
  apply (add_same_basename_reports_two_appends_one "/home/u" (fun l => l)).
  intros l. apply Permutation_refl.
Defined.

(** The same two repositories added one call after the other are both
    registered, the later one under the re-keyed name. *)
Example add_same_basename_in_two_calls :
  let fs := fs_of ["/a/r/.git"; "/b/r/.git"] in
  let w1 := snd (f_add fs "/home/u" (fun l => l) ["/a/r"] (fresh None)) in
  let w2 := snd (f_add fs "/home/u" (fun l => l) ["/b/r"]
                   (fresh (store_file w1))) in
  store_file w2 = Some (store_line "/a/r" "r" +++ store_line "/b/r" "r")
  /\ read_repos fs (store_file w2) = Ok [("r", "/a/r"); ("b/r", "/b/r")].
Proof. split; vm_compute; reflexivity. Qed.

(** C8, the claim as stated fails.  A repository whose path has a comma:
    the first [add] appends a line with two commas, and the second [add],
    in a fresh process, raises [ValueError] on loading it instead of
    reporting that nothing is new.  A path file whose last line has no
    line feed: the appended line runs into it, with the same end.  A
    repository given as [link/..], [link] being a symbolic link into it:
    the check is made on the path as given, the path stored is
    [os.path.abspath] of it, which drops [link/..] without looking at the
    link and names the working directory; that one is no repository, so
    the next load skips the line and the second [add] appends it again. *)
Lemma add_twice_counterexample :
  (let fs := fs_of ["/a/b,c/.git"] in
   let run1 := f_add fs "/" (fun l => l) ["/a/b,c"] (fresh None) in
   let file1 := store_file (snd run1) in
   run1 = (Ok tt,
           mkWorld (Some (store_line "/a/b,c" "b,c")) (Some [])
                   [EPrint "Found 1 new repo(s)."] 0)
   /\ f_add fs "/" (fun l => l) ["/a/b,c"] (fresh file1)
      = (Raise ValueError, fresh file1))
  /\ (let fs := fs_of ["/x/.git"; "/a/r/.git"] in
      let run1 := f_add fs "/" (fun l => l) ["/a/r"] (fresh (Some "/x,old")) in
      let file1 := store_file (snd run1) in
      file1 = Some ("/x,old" +++ store_line "/a/r" "r")
      /\ f_add fs "/" (fun l => l) ["/a/r"] (fresh file1)
         = (Raise ValueError, fresh file1))
  /\ (let fs := fs_of ["link/../.git"] in
      let run1 := f_add fs "/cwd" (fun l => l) ["link/.."] (fresh None) in
      let file1 := store_file (snd run1) in
      is_git fs "link/.." = true
      /\ Posixpath.abspath "/cwd" "link/.." = "/cwd"
      /\ is_git fs "/cwd" = false
      /\ run1 = (Ok tt,
                 mkWorld (Some (store_line "/cwd" "cwd")) (Some [])
                         [EPrint "Found 1 new repo(s)."] 0)
      /\ f_add fs "/cwd" (fun l => l) ["link/.."] (fresh file1)
         = (Ok tt,
            mkWorld (Some (store_line "/cwd" "cwd" +++ store_line "/cwd" "cwd"))
                    (Some []) [EPrint "Found 1 new repo(s)."] 0)).
Proof. repeat split; vm_compute; reflexivity. Qed.

Lemma add_twice_registers_once_witness :
  let fs := fs_of ["gita/.git"; "/home/u/gita/.git"; "/srv/old/.git"] in
  let file := Some (store_line "/srv/old" "old") in
  exists w1 w2 repos1,
    f_add fs "/home/u" (fun l => l) ["gita"] (fresh file) = (Ok tt, w1)
    /\ store_file w1
       = Some (store_line "/srv/old" "old"
               +++ store_line "/home/u/gita" "gita")
    /\ trace w1 = [EPrint "Found 1 new repo(s)."]
    /\ read_repos fs (store_file w1) = Ok repos1
    /\ In "/home/u/gita" (Dict.values repos1)
    /\ f_add fs "/home/u" (fun l => l) ["gita"] (fresh (store_file w1))
       = (Ok tt, w2)
    /\ store_file w2 = store_file w1
    /\ trace w2 = [EPrint "No new repos found!"].
Proof.
  intros fs file.
  apply (add_twice_registers_once fs "/home/u" (fun l => l)
           (fun l => Permutation_refl l)
           file [("old", "/srv/old")] "gita").
  - vm_compute. reflexivity.
  - reflexivity.
  - reflexivity.
  - vm_compute. reflexivity.
  - vm_compute. reflexivity.
Defined.

(** ** The listing *)

(** C9, the claim as stated fails.  Two repositories and two probes: the
    name field of [describe] is one wider than the longest name, so the
    longest name too is followed by a space; by the words of the spec it
    would run into the first probe output, whichever side is padded. *)
Lemma describe_counterexample :
  let funcs := [fun _ : string => "master"; fun _ : string => "+"] in
  let repos := [("ab", "/r/ab"); ("a", "/r/a")] in
  describe funcs repos = Ok ["a  master +"; "ab master +"]
  /\ spec_describe Str.rjust funcs repos = [" amaster +"; "abmaster +"]
  /\ spec_describe Str.ljust funcs repos = ["a master +"; "abmaster +"]
  /\ describe funcs repos <> Ok (spec_describe Str.rjust funcs repos)
  /\ describe funcs repos <> Ok (spec_describe Str.ljust funcs repos).
Proof.
  repeat split; try (vm_compute; reflexivity); vm_compute; discriminate.
Qed.

Lemma describe_spec_witness :
  let funcs := [fun _ : string => "master"; fun _ : string => "+"] in
  let repos := [("ab", "/r/ab"); ("a", "/r/a")] in
  exists lines,
    describe funcs repos = Ok lines
    /\ length lines = 2
    /\ Permutation (Str.sorted (Dict.keys repos)) (Dict.keys repos)
    /\ Sorted (fun a b => String.leb a b = true)
              (Str.sorted (Dict.keys repos))
    /\ Forall2
         (fun name line =>
            exists path,
              Dict.get repos name = Some path
              /\ line = describe_line funcs repos name path
              /\ String.length
                   (Str.ljust (Str.max_len (Dict.keys repos) + 1) name)
                 = Str.max_len (Dict.keys repos) + 1)
         (Str.sorted (Dict.keys repos)) lines.
Proof.
  intros funcs repos. apply (describe_spec funcs repos).
Defined.

(** * Further properties *)

(** ** More facts about strings *)

Lemma append_empty_r (s : string) : s +++ EmptyString = s.
Proof. induction s as [|c s IH]; simpl; [reflexivity | now rewrite IH]. Qed.

Lemma append_inv_head_str (a b c : string) : a +++ b = a +++ c -> b = c.
Proof.
  induction a as [|x a IH]; simpl; [auto|].
  intros [= H]. auto.
Qed.

Lemma rstrip_blank_suffix (a b : string) :
  Str.rstrip b = EmptyString -> Str.rstrip (a +++ b) = Str.rstrip a.
Proof.
  intros Hb. induction a as [|c a IH]; simpl; [exact Hb|].
  now rewrite IH.
Qed.

Lemma rstrip_idempotent (s : string) :
  Str.rstrip (Str.rstrip s) = Str.rstrip s.
Proof.
  induction s as [|c s IH]; simpl; [reflexivity|].
  destruct (Str.is_empty (Str.rstrip s) && Str.isspace c) eqn:E.
  - reflexivity.
  - simpl. rewrite IH, E. reflexivity.
Qed.

Lemma split_nonempty (sep : ascii) (s : string) : Str.split sep s <> [].
Proof.
  destruct s as [|c s]; simpl; [discriminate|].
  destruct (Ascii.eqb c sep); [discriminate|].
  destruct (Str.split sep s); discriminate.
Qed.

Lemma split_elements_no_sep (sep : ascii) (s x : string) :
  In x (Str.split sep s) -> Str.contains sep x = false.
Proof.
  revert x. induction s as [|c s IH]; intros x; simpl.
  - intros [<-|[]]. reflexivity.
  - destruct (Ascii.eqb c sep) eqn:E.
    + intros [<-|H]; [reflexivity | auto].
    + destruct (Str.split sep s) as [|h t] eqn:Es.
      * intros [<-|[]]. simpl. now rewrite E.
      * intros [<-|H].
        -- simpl. rewrite E. apply IH. now left.
        -- apply IH. now right.
Qed.

(** Joining the fields of a split gives the string back. *)
Lemma concat_cons2 (sep x y : string) (l : list string) :
  String.concat sep (x :: y :: l) = x +++ sep +++ String.concat sep (y :: l).
Proof. reflexivity. Qed.

Lemma concat_split (sep : ascii) (s : string) :
  String.concat (String sep EmptyString) (Str.split sep s) = s.
Proof.
  induction s as [|c s IH]; simpl; [reflexivity|].
  destruct (Ascii.eqb_spec c sep) as [->|Hne].
  - destruct (Str.split sep s) as [|h t] eqn:Es.
    + now apply split_nonempty in Es.
    + rewrite concat_cons2, IH. reflexivity.
  - destruct (Str.split sep s) as [|h t] eqn:Es.
    + now apply split_nonempty in Es.
    + destruct t as [|h' t'].
      * simpl in *. now rewrite IH.
      * rewrite <- IH. reflexivity.
Qed.

Lemma split_two (sep : ascii) (s a b : string) :
  Str.split sep s = [a; b] ->
  s = a +++ String sep b
  /\ Str.contains sep a = false /\ Str.contains sep b = false.
Proof.
  intros H. split; [|split].
  - rewrite <- (concat_split sep s), H. reflexivity.
  - apply (split_elements_no_sep sep s). rewrite H. now left.
  - apply (split_elements_no_sep sep s). rewrite H. right. now left.
Qed.

Lemma one_line_true (s : string) :
  one_line s = true
  <-> Str.contains lf s = false /\ Str.contains cr s = false.
Proof.
  unfold one_line. rewrite andb_true_iff, !negb_true_iff. tauto.
Qed.

Lemma one_line_append (a b : string) :
  one_line (a +++ b) = one_line a && one_line b.
Proof.
  unfold one_line. rewrite !contains_append.
  destruct (Str.contains lf a), (Str.contains lf b),
    (Str.contains cr a), (Str.contains cr b); reflexivity.
Qed.

Lemma plain_field_true (s : string) :
  plain_field s = true
  <-> Str.contains comma s = false /\ one_line s = true.
Proof.
  unfold plain_field, one_line.
  rewrite !andb_true_iff, !negb_true_iff. tauto.
Qed.

Lemma plain_name_true (s : string) :
  plain_name s = true <-> plain_field s = true /\ Str.rstrip s = s.
Proof.
  unfold plain_name. rewrite andb_true_iff, String.eqb_eq. tauto.
Qed.

(** Every line that is read is one line of text, with or without its
    line feed. *)
Lemma readlines_from_lines (n : nat) :
  forall (s cur line : string),
    String.length s <= n ->
    one_line cur = true ->
    In line (readlines_from cur s) ->
    exists body,
      one_line body = true /\ (line = body +++ nl \/ line = body).
Proof.
  induction n as [|n IH]; intros s cur line Hlen Hcur Hin.
  - destruct s; [|simpl in Hlen; lia]. simpl in Hin.
    destruct (Str.is_empty cur); [destruct Hin|].
    destruct Hin as [<-|[]]. eauto.
  - destruct s as [|c r].
    { simpl in Hin. destruct (Str.is_empty cur); [destruct Hin|].
      destruct Hin as [<-|[]]. eauto. }
    simpl in Hlen, Hin.
    destruct (Ascii.eqb c lf) eqn:Elf.
    { destruct Hin as [<-|Hin]; [eauto|].
      apply (IH r EmptyString); auto; lia. }
    destruct (Ascii.eqb c cr) eqn:Ecr.
    { destruct r as [|c' r'].
      - destruct Hin as [<-|[]]. eauto.
      - destruct (Ascii.eqb c' lf).
        + destruct Hin as [<-|Hin]; [eauto|].
          apply (IH r' EmptyString); auto. simpl in Hlen. lia.
        + destruct Hin as [<-|Hin]; [eauto|].
          apply (IH (String c' r') EmptyString); auto. lia. }
    apply (IH r (cur +++ String c EmptyString)); auto; [lia|].
    rewrite one_line_append, Hcur. unfold one_line. simpl.
    rewrite Elf, Ecr. reflexivity.
Qed.

Lemma readlines_lines (s line : string) :
  In line (readlines s) ->
  exists body, one_line body = true /\ (line = body +++ nl \/ line = body).
Proof.
  apply (readlines_from_lines (String.length s)); auto.
Qed.

Lemma rstrip_one_line (line : string) :
  (exists body, one_line body = true /\ (line = body +++ nl \/ line = body)) ->
  one_line (Str.rstrip line) = true.
Proof.
  intros (body & Hb & Hline).
  assert (H : Str.rstrip line = Str.rstrip body).
  { destruct Hline as [->| ->]; [|reflexivity].
    now apply rstrip_blank_suffix. }
  rewrite H. apply one_line_true in Hb as [H1 H2]. apply one_line_true.
  split.
  - destruct (Str.contains lf (Str.rstrip body)) eqn:E; [|reflexivity].
    apply contains_rstrip in E. congruence.
  - destruct (Str.contains cr (Str.rstrip body)) eqn:E; [|reflexivity].
    apply contains_rstrip in E. congruence.
Qed.

Lemma contains_rstrip_char (x c : ascii) (s : string) :
  Str.contains x (Str.rstrip_char c s) = true -> Str.contains x s = true.
Proof.
  induction s as [|a s IH]; simpl; [congruence|].
  destruct (Str.is_empty (Str.rstrip_char c s) && Ascii.eqb a c); simpl.
  - congruence.
  - intros H. apply orb_true_iff in H as [H|H].
    + now rewrite H.
    + rewrite (IH H). apply orb_true_r.
Qed.

Lemma contains_rsplit_head (x : ascii) (p : string) :
  Str.contains x (fst (Posixpath.rsplit_sep p)) = true ->
  Str.contains x p = true.
Proof.
  induction p as [|c p IH]; simpl; [congruence|].
  destruct (Posixpath.rsplit_sep p) as [h t]. simpl in *.
  destruct (Str.is_empty h) eqn:He; simpl.
  - destruct (Ascii.eqb c Posixpath.sep); simpl.
    + rewrite orb_false_r. intros ->. reflexivity.
    + discriminate.
  - intros H. apply orb_true_iff in H as [H|H].
    + now rewrite H.
    + rewrite (IH H). apply orb_true_r.
Qed.

Lemma contains_dirname (x : ascii) (p : string) :
  Str.contains x (Posixpath.dirname p) = true -> Str.contains x p = true.
Proof.
  unfold Posixpath.dirname.
  destruct (negb (Str.is_empty (fst (Posixpath.rsplit_sep p)))
            && negb (Str.all_char Posixpath.sep
                       (fst (Posixpath.rsplit_sep p)))).
  - intros H. now apply contains_rstrip_char, contains_rsplit_head in H.
  - apply contains_rsplit_head.
Qed.

(** The name of the parent directory of a plain path is plain. *)
Lemma parent_name_chars (x : ascii) (path : string) :
  Str.contains x path = false ->
  Str.contains x (Posixpath.basename (Posixpath.dirname path)) = false.
Proof.
  intros H.
  destruct (Str.contains x (Posixpath.basename (Posixpath.dirname path)))
    eqn:E; [|reflexivity].
  apply contains_basename, contains_dirname in E. congruence.
Qed.

Lemma plain_field_chars (s t : string) :
  (forall x, Str.contains x s = false -> Str.contains x t = false) ->
  plain_field s = true -> plain_field t = true.
Proof.
  intros H Hs. unfold plain_field in *.
  apply andb_true_iff in Hs as [Hs H3]. apply andb_true_iff in Hs as [H1 H2].
  apply negb_true_iff in H1, H2, H3.
  now rewrite (H _ H1), (H _ H2), (H _ H3).
Qed.

Lemma plain_field_append (a b : string) :
  plain_field (a +++ b) = plain_field a && plain_field b.
Proof.
  unfold plain_field. rewrite !contains_append.
  destruct (Str.contains comma a), (Str.contains comma b),
    (Str.contains lf a), (Str.contains lf b),
    (Str.contains cr a), (Str.contains cr b); reflexivity.
Qed.

(** The key of a re-keyed entry is a plain name. *)
Lemma rekeyed_key_plain (path name : string) :
  plain_field path = true ->
  plain_name name = true ->
  plain_name
    (Posixpath.join (Posixpath.basename (Posixpath.dirname path)) name)
  = true.
Proof.
  intros Hpath Hname.
  set (par := Posixpath.basename (Posixpath.dirname path)).
  assert (Hpar : plain_field par = true).
  { apply (plain_field_chars path); [|exact Hpath].
    intros x. apply parent_name_chars. }
  apply plain_name_true in Hname as [Hn Hr].
  unfold Posixpath.join.
  destruct (Str.startswith Posixpath.sep name).
  { apply plain_name_true. now split. }
  destruct (Str.is_empty par) eqn:He.
  { apply is_empty_true in He. rewrite He. simpl.
    apply plain_name_true. now split. }
  destruct (Str.endswith Posixpath.sep par) eqn:Hend.
  { apply endswith_contains in Hend. unfold par in Hend.
    rewrite basename_no_sep in Hend. discriminate. }
  simpl. apply plain_name_true. split.
  - change (String Posixpath.sep name) with ("/" +++ name).
    rewrite !plain_field_append, Hpar, Hn. reflexivity.
  - rewrite rstrip_keeps_prefix by reflexivity. now rewrite Hr.
Qed.

(** ** More facts about dicts *)

Lemma dict_set_keys (d : Dict.t) (k v : string) :
  Dict.keys (Dict.set d k v)
  = if Dict.mem d k then Dict.keys d else Dict.keys d ++ [k].
Proof.
  unfold Dict.mem. induction d as [|[k' v'] d IH]; simpl; [reflexivity|].
  destruct (String.eqb k' k); simpl; [reflexivity|].
  rewrite IH. destruct (Dict.get d k); reflexivity.
Qed.

Lemma dict_set_nodup (d : Dict.t) (k v : string) :
  NoDup (Dict.keys d) -> NoDup (Dict.keys (Dict.set d k v)).
Proof.
  intros H. rewrite dict_set_keys.
  destruct (Dict.mem d k) eqn:E; [exact H|].
  apply dict_mem_false in E.
  apply NoDup_app; [exact H | repeat constructor; tauto |].
  intros a Ha [<-|[]]. contradiction.
Qed.

Lemma dict_set_forall (P : string * string -> Prop) (d : Dict.t)
    (k v : string) :
  Forall P d -> P (k, v) -> Forall P (Dict.set d k v).
Proof.
  intros Hd Hkv. induction Hd as [|[k' v'] d Hx Hd IH]; simpl.
  - now constructor.
  - destruct (String.eqb_spec k' k) as [->|_]; constructor; auto.
Qed.

Lemma dict_del_in (d : Dict.t) (k : string) (kv : string * string) :
  In kv (Dict.del d k) -> In kv d.
Proof.
  induction d as [|[k' v'] d IH]; simpl; [tauto|].
  destruct (String.eqb k' k); simpl; [tauto|].
  intros [H|H]; auto.
Qed.

Lemma dict_del_keys_incl (d : Dict.t) (k x : string) :
  In x (Dict.keys (Dict.del d k)) -> In x (Dict.keys d).
Proof.
  unfold Dict.keys. intros H. apply in_map_iff in H as (kv & <- & Hin).
  apply in_map. eapply dict_del_in; eauto.
Qed.

Lemma dict_del_nodup (d : Dict.t) (k : string) :
  NoDup (Dict.keys d) -> NoDup (Dict.keys (Dict.del d k)).
Proof.
  induction d as [|[k' v'] d IH]; simpl; [auto|].
  intros H. apply NoDup_cons_iff in H as [Hn H].
  destruct (String.eqb k' k); simpl; [exact H|].
  constructor; [|auto].
  intros Hin. apply Hn. eapply dict_del_keys_incl; eauto.
Qed.

Lemma dict_del_forall (P : string * string -> Prop) (d : Dict.t)
    (k : string) :
  Forall P d -> Forall P (Dict.del d k).
Proof.
  rewrite !Forall_forall. intros H kv Hin. apply H.
  eapply dict_del_in; eauto.
Qed.

(** ** What a load returns can be stored *)

Section Stored.

Variable path_exists : string -> bool.

Lemma read_repos_some (s : string) :
  read_repos path_exists (Some s)
  = load_lines path_exists (readlines s) [].
Proof.
  unfold read_repos. destruct s; reflexivity.
Qed.

Lemma read_repos_text (file : option string) :
  read_repos path_exists file
  = load_lines path_exists (readlines (file_text file)) [].
Proof.
  destruct file as [s|]; [apply read_repos_some | reflexivity].
Qed.

(** The two fields of a line that parses are plain, and the name has no
    trailing white space. *)
Lemma parse_line_fields (line path name : string) :
  (exists body, one_line body = true /\ (line = body +++ nl \/ line = body)) ->
  parse_line line = Ok (Some (path, name)) ->
  plain_field path = true /\ plain_name name = true.
Proof.
  intros Hline. unfold parse_line.
  destruct (Str.is_empty (Str.rstrip line)); [discriminate|].
  destruct (Str.split comma (Str.rstrip line)) as [|a [|b [|c l]]] eqn:Es;
    try discriminate.
  intros [= <- <-].
  apply split_two in Es as (Heq & Ha & Hb).
  pose proof (rstrip_one_line line Hline) as Hone.
  rewrite Heq in Hone.
  change (String comma b) with ("," +++ b) in Hone.
  rewrite !one_line_append in Hone.
  apply andb_true_iff in Hone as [Ha1 Hb1].
  apply andb_true_iff in Hb1 as [_ Hb1].
  split.
  - apply plain_field_true. now split.
  - apply plain_name_true. split; [apply plain_field_true; now split|].
    pose proof (rstrip_idempotent line) as Hidem.
    rewrite Heq in Hidem.
    rewrite (rstrip_keeps_prefix _ _ _ isspace_comma) in Hidem.
    apply append_inv_head_str in Hidem. now injection Hidem.
Qed.

Lemma rekey_storable (repos : Dict.t) (path name : string) :
  storable path_exists repos ->
  plain_field path = true ->
  plain_name name = true ->
  is_git path_exists path = true ->
  storable path_exists (rekey repos (path, name)).
Proof.
  intros [Hnd Hall] Hpath Hname Hgit. unfold rekey.
  destruct (Dict.mem repos name); simpl; split;
    try (now apply dict_set_nodup);
    apply dict_set_forall; auto; simpl; repeat split; auto.
  now apply rekeyed_key_plain.
Qed.

Lemma load_line_storable (repos repos' : Dict.t) (line : string) :
  (exists body, one_line body = true /\ (line = body +++ nl \/ line = body)) ->
  storable path_exists repos ->
  load_line path_exists repos line = Ok repos' ->
  storable path_exists repos'.
Proof.
  intros Hline Hst. rewrite load_line_parse.
  destruct (parse_line line) as [[[path name]|]|e] eqn:E;
    [| now intros [= <-] | discriminate].
  intros [= <-].
  destruct (parse_line_fields _ _ _ Hline E) as [Hpath Hname].
  unfold register. simpl.
  destruct (is_git path_exists path) eqn:Hgit; simpl; [|exact Hst].
  now apply rekey_storable.
Qed.

Lemma load_lines_storable (lines : list string) (repos repos' : Dict.t) :
  Forall (fun line =>
            exists body,
              one_line body = true /\ (line = body +++ nl \/ line = body))
         lines ->
  storable path_exists repos ->
  load_lines path_exists lines repos = Ok repos' ->
  storable path_exists repos'.
Proof.
  intros Hlines. revert repos.
  induction Hlines as [|line lines Hline Hlines IH]; intros repos Hst; simpl.
  - now intros [= <-].
  - destruct (load_line path_exists repos line) as [r|e] eqn:E;
      [|discriminate].
    apply IH. eapply load_line_storable; eauto.
Qed.

(** What a load returns is storable. *)
Lemma loaded_storable (file : option string) (repos : Dict.t) :
  read_repos path_exists file = Ok repos ->
  storable path_exists repos.
Proof.
  rewrite read_repos_text. apply load_lines_storable.
  - apply Forall_forall. intros line. apply readlines_lines.
  - split; constructor.
Qed.

(** X1.  Whatever [get_repos] returns is a mapping the line format
    carries: the names are distinct, have no comma, no line break and no
    trailing white space, and every path is free of commas and line
    breaks and passed the check. *)
Theorem read_repos_storable (file : option string) (repos : Dict.t) :
  read_repos path_exists file = Ok repos ->
  NoDup (Dict.keys repos)
  /\ (forall name path,
        In (name, path) repos ->
        Str.contains comma name = false
        /\ one_line name = true
        /\ Str.rstrip name = name
        /\ Str.contains comma path = false
        /\ one_line path = true
        /\ is_git path_exists path = true).
Proof.
  intros Hload. destruct (loaded_storable _ _ Hload) as [Hnd Hall].
  split; [exact Hnd|].
  intros name path Hin. rewrite Forall_forall in Hall.
  destruct (Hall _ Hin) as (Hname & Hpath & Hgit). simpl in *.
  apply plain_name_true in Hname as [Hname Hstrip].
  apply plain_field_true in Hname as [H1 H2].
  apply plain_field_true in Hpath as [H3 H4].
  repeat split; assumption.
Qed.

Lemma concat_empty_cons (a : string) (l : list string) :
  String.concat EmptyString (a :: l) = a +++ String.concat EmptyString l.
Proof.
  destruct l as [|b l]; simpl; [now rewrite append_empty_r | reflexivity].
Qed.

Lemma store_data_app (d1 d2 : Dict.t) :
  store_data (d1 ++ d2) = store_data d1 +++ store_data d2.
Proof.
  unfold store_data. induction d1 as [|[k v] d1 IH]; [reflexivity|].
  cbn [app map]. rewrite !concat_empty_cons, IH, append_assoc.
  reflexivity.
Qed.

Lemma store_data_snoc (d : Dict.t) (k v : string) :
  store_data (d ++ [(k, v)]) = store_data d +++ store_line v k.
Proof. rewrite store_data_app. reflexivity. Qed.

Lemma endswith_append (x : ascii) (a b : string) :
  b <> EmptyString -> Str.endswith x (a +++ b) = Str.endswith x b.
Proof.
  intros Hb. induction a as [|c a IH]; [reflexivity|].
  simpl String.append.
  destruct (a +++ b) as [|c' r] eqn:E.
  - destruct a; [simpl in E; contradiction | discriminate].
  - exact IH.
Qed.

Lemma store_data_complete (d : Dict.t) :
  complete_lines (Some (store_data d)) = true.
Proof.
  destruct d as [|kv d] using rev_ind; [reflexivity|].
  destruct kv as [k v]. rewrite store_data_snoc. simpl.
  apply orb_true_iff. right. unfold store_line.
  rewrite <- !append_assoc.
  rewrite endswith_append by discriminate. reflexivity.
Qed.

Lemma storable_prefix (d : Dict.t) (k v : string) :
  storable path_exists (d ++ [(k, v)]) ->
  storable path_exists d
  /\ ~ In k (Dict.keys d)
  /\ plain_name k = true /\ plain_field v = true
  /\ is_git path_exists v = true.
Proof.
  intros [Hnd Hall]. rewrite dict_keys_app in Hnd. simpl in Hnd.
  apply Forall_app in Hall as [Hd Hkv].
  apply Forall_cons_iff in Hkv as [(H1 & H2 & H3) _]. simpl in *.
  repeat split; auto.
  - now apply NoDup_app_remove_r in Hnd.
  - apply NoDup_remove_2 in Hnd. now rewrite app_nil_r in Hnd.
Qed.

(** The text of a storable mapping loads as that mapping. *)
Lemma storable_round_trip (repos : Dict.t) :
  storable path_exists repos ->
  read_repos path_exists (Some (store_data repos)) = Ok repos.
Proof.
  rewrite read_repos_some.
  induction repos as [|[k v] d IH] using rev_ind; intros Hst.
  - reflexivity.
  - apply storable_prefix in Hst as (Hd & Hk & Hname & Hpath & Hgit).
    apply plain_name_true in Hname as [Hname Hstrip].
    apply plain_field_true in Hname as [Hkc Hkl].
    apply plain_field_true in Hpath as [Hvc Hvl].
    apply one_line_true in Hkl as [Hk1 Hk2].
    apply one_line_true in Hvl as [Hv1 Hv2].
    rewrite store_data_snoc.
    assert (Hline : store_line v k = (v +++ "," +++ k) +++ nl).
    { unfold store_line. now rewrite !append_assoc. }
    rewrite Hline.
    change (store_data d) with (file_text (Some (store_data d))).
    rewrite readlines_append_line.
    + simpl file_text. rewrite load_lines_app, (IH Hd). cbn [load_lines].
      rewrite load_line_parse, <- Hline, (parse_store_line _ _ Hvc Hkc).
      rewrite rstrip_blank_suffix by reflexivity. rewrite Hstrip.
      unfold register, rekey. simpl. rewrite Hgit. simpl.
      apply dict_mem_false in Hk. rewrite Hk. simpl.
      apply dict_mem_false in Hk. now rewrite dict_set_fresh.
    + apply store_data_complete.
    + rewrite !contains_append, Hv1, Hk1. reflexivity.
    + rewrite !contains_append, Hv2, Hk2. reflexivity.
Qed.

(** X2.  Round trip: when a mapping with distinct names, plain fields
    and checked paths is written over the path file, the next load in a
    fresh process returns the same mapping, in the same order. *)
Theorem store_load_round_trip (repos : Dict.t) (w w' : world) :
  NoDup (Dict.keys repos) ->
  (forall name path,
     In (name, path) repos ->
     plain_name name = true /\ plain_field path = true
     /\ is_git path_exists path = true) ->
  write_to_repo_file repos ModeW w = (Ok tt, w') ->
  get_repos path_exists (fresh (store_file w'))
  = (Ok repos, mkWorld (store_file w') (Some repos) [] 0).
Proof.
  intros Hnd Hall Hwrite.
  assert (Hst : storable path_exists repos).
  { split; [exact Hnd|]. apply Forall_forall. intros [k v] Hin.
    now apply Hall. }
  unfold write_to_repo_file in Hwrite. injection Hwrite as <-.
  unfold get_repos, fresh. cbn [repos_cache store_file].
  now rewrite (storable_round_trip repos Hst).
Qed.

(** X3.  When the entries of the path file that pass the check have
    pairwise distinct names, the load returns exactly these entries, each
    under its own name, in the order of the file; blank lines and entries
    that fail the check leave no trace. *)
Theorem load_distinct_names (s : string) (es : list (string * string)) :
  entries s = Ok es ->
  NoDup (map snd (filter (fun e => is_git path_exists (fst e)) es)) ->
  read_repos path_exists (Some s)
  = Ok (map item_of (filter (fun e => is_git path_exists (fst e)) es)).
Proof.
  intros Hes Hnd. unfold entries in Hes.
  rewrite read_repos_some, load_lines_parse, Hes, fold_register_filter.
  rewrite fold_rekey_fresh; [reflexivity | exact Hnd | intros n _ []].
Qed.

Lemma register_from_entries (all : list (string * string)) (repos : Dict.t)
    (e : string * string) :
  In e all ->
  Forall (fun kv =>
            exists n, In (snd kv, n) all
                      /\ (fst kv = n
                          \/ fst kv
                             = Posixpath.join
                                 (Posixpath.basename
                                    (Posixpath.dirname (snd kv))) n))
         repos ->
  Forall (fun kv =>
            exists n, In (snd kv, n) all
                      /\ (fst kv = n
                          \/ fst kv
                             = Posixpath.join
                                 (Posixpath.basename
                                    (Posixpath.dirname (snd kv))) n))
         (register path_exists repos e).
Proof.
  intros Hin Hall. unfold register, rekey. destruct e as [path name].
  simpl. destruct (is_git path_exists path); simpl; [|exact Hall].
  destruct (Dict.mem repos name); apply dict_set_forall; auto;
    exists name; simpl; auto.
Qed.

Lemma dict_set_length (d : Dict.t) (k v : string) :
  length (Dict.set d k v)
  = if Dict.mem d k then length d else S (length d).
Proof.
  unfold Dict.mem. induction d as [|[k' v'] d IH]; simpl; [reflexivity|].
  destruct (String.eqb k' k); simpl; [reflexivity|].
  rewrite IH. destruct (Dict.get d k); reflexivity.
Qed.

Lemma dict_set_length_le (d : Dict.t) (k v : string) :
  length (Dict.set d k v) <= S (length d).
Proof.
  rewrite dict_set_length. destruct (Dict.mem d k); lia.
Qed.

Lemma register_length (repos : Dict.t) (e : string * string) :
  length (register path_exists repos e)
  <= length repos + (if is_git path_exists (fst e) then 1 else 0).
Proof.
  unfold register, rekey. destruct e as [path name]. cbn [fst].
  destruct (is_git path_exists path); cbn [negb]; [|lia].
  destruct (negb (Dict.mem repos name));
    match goal with |- length (Dict.set ?d ?k ?v) <= _ =>
      pose proof (dict_set_length_le d k v) end; lia.
Qed.

(** X4.  A load invents nothing: every item of the mapping it returns is
    the path of an entry of the file, under the name of that entry or
    under the parent directory's name joined with it, and there are no
    more items than entries that pass the check. *)
Theorem load_items_from_entries (s : string) (repos : Dict.t) :
  read_repos path_exists (Some s) = Ok repos ->
  exists es,
    entries s = Ok es
    /\ (forall k v,
          In (k, v) repos ->
          exists n,
            In (v, n) es
            /\ (k = n
                \/ k = Posixpath.join
                         (Posixpath.basename (Posixpath.dirname v)) n))
    /\ length repos
       <= length (filter (fun e => is_git path_exists (fst e)) es).
Proof.
  rewrite read_repos_some, load_lines_parse. unfold entries.
  destruct (parse_lines (readlines s)) as [es|e]; [|discriminate].
  intros [= <-]. exists es. split; [reflexivity|].
  assert (Hgen : forall part repos0,
            incl part es ->
            Forall (fun kv =>
                      exists n, In (snd kv, n) es
                                /\ (fst kv = n
                                    \/ fst kv
                                       = Posixpath.join
                                           (Posixpath.basename
                                              (Posixpath.dirname (snd kv)))
                                           n))
                   repos0 ->
            Forall (fun kv =>
                      exists n, In (snd kv, n) es
                                /\ (fst kv = n
                                    \/ fst kv
                                       = Posixpath.join
                                           (Posixpath.basename
                                              (Posixpath.dirname (snd kv)))
                                           n))
                   (fold_left (register path_exists) part repos0)
            /\ length (fold_left (register path_exists) part repos0)
               <= length repos0
                  + length (filter (fun e => is_git path_exists (fst e))
                                   part)).
  { induction part as [|e part IH]; intros repos0 Hincl Hall; simpl.
    - split; [exact Hall | lia].
    - destruct (IH (register path_exists repos0 e)) as [H1 H2].
      + intros x Hx. apply Hincl. now right.
      + apply register_from_entries; [apply Hincl; now left | exact Hall].
      + split; [exact H1|].
        pose proof (register_length repos0 e) as Hl.
        destruct (is_git path_exists (fst e)); simpl; lia. }
  destruct (Hgen es [] (incl_refl es) (Forall_nil _)) as [Hall Hlen].
  split; [|exact Hlen].
  intros k v Hin. rewrite Forall_forall in Hall.
  apply (Hall (k, v) Hin).
Qed.

(** *** Renaming *)

Lemma dict_get_del (d : Dict.t) (k k' : string) :
  NoDup (Dict.keys d) ->
  Dict.get (Dict.del d k) k'
  = if String.eqb k k' then None else Dict.get d k'.
Proof.
  induction d as [|[a b] d IH]; simpl; intros Hnd.
  - destruct (String.eqb k k'); reflexivity.
  - apply NoDup_cons_iff in Hnd as [Ha Hnd].
    destruct (String.eqb_spec a k) as [->|Hak]; simpl.
    + destruct (String.eqb_spec k k') as [->|_]; [|reflexivity].
      now apply dict_get_none.
    + rewrite (IH Hnd).
      destruct (String.eqb_spec a k') as [->|_]; [|reflexivity].
      destruct (String.eqb_spec k k') as [->|_]; [contradiction|reflexivity].
Qed.

Lemma dict_del_length (d : Dict.t) (k : string) :
  Dict.mem d k = true -> S (length (Dict.del d k)) = length d.
Proof.
  unfold Dict.mem. induction d as [|[a b] d IH]; simpl; [discriminate|].
  destruct (String.eqb a k); simpl; [reflexivity|].
  intros H. now rewrite (IH H).
Qed.

Lemma dict_mem_get (d : Dict.t) (k : string) :
  Dict.mem d k = match Dict.get d k with Some _ => true | None => false end.
Proof. reflexivity. Qed.

(** X5.  Lookups after a rename, for a mapping with distinct names: the
    new name gives the path, the old name is gone, every other name gives
    what it gave before.  When the new name was the name of another
    repository, that repository is replaced and the mapping has one item
    less; otherwise it has as many items as before. *)
Theorem rename_repo_lookups (repos : Dict.t) (old new path : string)
    (w : world) :
  NoDup (Dict.keys repos) ->
  Dict.get repos old = Some path ->
  exists renamed w',
    rename_repo repos old new w = (Ok renamed, w')
    /\ store_file w' = Some (store_data renamed)
    /\ Dict.get renamed new = Some path
    /\ (old <> new -> Dict.get renamed old = None)
    /\ (forall k, k <> old -> k <> new ->
                  Dict.get renamed k = Dict.get repos k)
    /\ length renamed
       = (if Dict.mem repos new && negb (String.eqb old new)
          then length repos - 1 else length repos)
    /\ NoDup (Dict.keys renamed).
Proof.
  intros Hnd Hold.
  exists (Dict.set (Dict.del repos old) new path).
  eexists. split.
  { unfold rename_repo. rewrite Hold. reflexivity. }
  split; [reflexivity|]. split; [|split; [|split; [|split]]].
  - now rewrite dict_get_set, String.eqb_refl.
  - intros Hne. rewrite dict_get_set.
    destruct (String.eqb_spec new old) as [->|_]; [contradiction|].
    now rewrite (dict_get_del _ _ _ Hnd), String.eqb_refl.
  - intros k Hk1 Hk2. rewrite dict_get_set.
    destruct (String.eqb_spec new k) as [->|_]; [contradiction|].
    rewrite (dict_get_del _ _ _ Hnd).
    destruct (String.eqb_spec old k) as [->|_]; [contradiction|reflexivity].
  - assert (Hmem : Dict.mem repos old = true).
    { unfold Dict.mem. now rewrite Hold. }
    pose proof (dict_del_length _ _ Hmem) as Hlen.
    rewrite dict_set_length, dict_mem_get, (dict_get_del _ _ _ Hnd).
    rewrite dict_mem_get.
    destruct (String.eqb_spec old new) as [->|Hne]; simpl.
    + rewrite andb_false_r. lia.
    + destruct (Dict.get repos new); simpl; lia.
  - now apply dict_set_nodup, dict_del_nodup.
Qed.

Lemma storable_del (repos : Dict.t) (k : string) :
  storable path_exists repos -> storable path_exists (Dict.del repos k).
Proof.
  intros [Hnd Hall]. split.
  - now apply dict_del_nodup.
  - now apply dict_del_forall.
Qed.

Lemma storable_value (repos : Dict.t) (k v : string) :
  storable path_exists repos ->
  Dict.get repos k = Some v ->
  plain_field v = true /\ is_git path_exists v = true.
Proof.
  intros [_ Hall] Hget. apply dict_get_some_in in Hget.
  rewrite Forall_forall in Hall. destruct (Hall _ Hget) as (_ & H1 & H2).
  now split.
Qed.

(** X6.  Rename, then load.  In a fresh process, renaming a registered
    repository to a name without comma, line break or trailing white
    space rewrites the path file so that the next fresh load returns the
    renamed mapping, the one the renaming process holds. *)
Theorem rename_then_load (file : option string) (repos : Dict.t)
    (old new path : string) :
  read_repos path_exists file = Ok repos ->
  Dict.get repos old = Some path ->
  plain_name new = true ->
  let renamed := Dict.set (Dict.del repos old) new path in
  f_rename path_exists old new (fresh file)
  = (Ok tt, mkWorld (Some (store_data renamed)) (Some renamed) [] 0)
  /\ read_repos path_exists (Some (store_data renamed)) = Ok renamed.
Proof.
  intros Hload Hold Hnew renamed.
  pose proof (loaded_storable _ _ Hload) as Hst.
  split.
  - unfold f_rename, bind, get_repos, fresh. simpl. rewrite Hload.
    unfold rename_repo. rewrite Hold. reflexivity.
  - apply storable_round_trip.
    destruct (storable_value _ _ _ Hst Hold) as [Hp Hg].
    destruct (storable_del repos old Hst) as [Hnd Hall].
    split.
    + now apply dict_set_nodup.
    + apply dict_set_forall; [exact Hall|]. simpl. auto.
Qed.

(** *** Removing *)

Lemma dict_del_filter (d : Dict.t) (k : string) :
  NoDup (Dict.keys d) ->
  Dict.del d k = filter (fun kv => negb (String.eqb (fst kv) k)) d.
Proof.
  induction d as [|[a b] d IH]; simpl; intros Hnd; [reflexivity|].
  apply NoDup_cons_iff in Hnd as [Ha Hnd].
  destruct (String.eqb_spec a k) as [->|Hak]; simpl.
  - symmetry. apply forallb_filter_id. apply forallb_forall.
    intros [a' b'] Hin. simpl. apply negb_true_iff, String.eqb_neq.
    intros ->. apply Ha. change k with (fst (k, b')).
    now apply in_map.
  - now rewrite (IH Hnd).
Qed.

Lemma inb_cons (x k : string) (names : list string) :
  inb x (k :: names) = String.eqb x k || inb x names.
Proof. reflexivity. Qed.

Lemma without_cons (k : string) (names : list string) (d : Dict.t) :
  without (k :: names) d
  = without names (filter (fun kv => negb (String.eqb (fst kv) k)) d).
Proof.
  unfold without.
  induction d as [|[a b] d IH]; [reflexivity|].
  cbn [filter fst]. rewrite inb_cons.
  destruct (String.eqb a k); cbn [negb orb].
  - exact IH.
  - cbn [filter fst]. destruct (inb a names); cbn [negb]; now rewrite IH.
Qed.

(** The loop of [f_rm] succeeds exactly for distinct registered names,
    and then leaves the other items in their order. *)
Lemma del_each_spec (names : list string) (repos : Dict.t) :
  NoDup (Dict.keys repos) ->
  (NoDup names /\ incl names (Dict.keys repos) ->
   del_each repos names = Ok (without names repos))
  /\ (~ (NoDup names /\ incl names (Dict.keys repos)) ->
      exists k, In k names /\ del_each repos names = Raise (KeyError k)).
Proof.
  clear path_exists.
  revert repos. induction names as [|k names IH]; intros repos Hnd.
  { split.
    - intros _. simpl. unfold without. simpl. f_equal.
      symmetry. apply forallb_filter_id. apply forallb_forall. reflexivity.
    - intros H. exfalso. apply H. split; [constructor | intros x []]. }
  simpl. destruct (Dict.mem repos k) eqn:Hmem.
  - destruct (IH (Dict.del repos k) (dict_del_nodup _ _ Hnd)) as [IH1 IH2].
    assert (Hkeys : forall x, In x (Dict.keys (Dict.del repos k))
                              <-> In x (Dict.keys repos) /\ x <> k).
    { intros x. rewrite (dict_del_filter _ _ Hnd). unfold Dict.keys.
      rewrite !in_map_iff. split.
      - intros ([a b] & <- & Hin). apply filter_In in Hin as [Hin Hne].
        simpl in *. apply negb_true_iff, String.eqb_neq in Hne.
        split; [|exact Hne]. exists (a, b). now split.
      - intros (([a b] & <- & Hin) & Hne). exists (a, b).
        split; [reflexivity|]. apply filter_In. split; [exact Hin|].
        simpl in *. now apply negb_true_iff, String.eqb_neq. }
    split.
    + intros [Hn Hincl]. apply NoDup_cons_iff in Hn as [Hk Hn].
      rewrite IH1.
      * rewrite without_cons, (dict_del_filter _ _ Hnd). reflexivity.
      * split; [exact Hn|]. intros x Hx. apply Hkeys.
        split; [apply Hincl; now right|]. intros ->. contradiction.
    + intros Hbad. destruct IH2 as (k' & Hin & Hr).
      * intros [Hn Hincl]. apply Hbad. split.
        -- constructor; [|exact Hn]. intros Hk.
           apply Hincl, Hkeys in Hk. tauto.
        -- intros x [<-|Hx]; [now apply dict_mem_true|].
           now apply Hincl, Hkeys in Hx.
      * exists k'. split; [now right | exact Hr].
  - split.
    + intros [_ Hincl]. apply dict_mem_false in Hmem.
      exfalso. apply Hmem, Hincl. now left.
    + intros _. exists k. split; [now left | reflexivity].
Qed.

Lemma storable_without (names : list string) (repos : Dict.t) :
  storable path_exists repos -> storable path_exists (without names repos).
Proof.
  intros [Hnd Hall]. unfold without. split.
  - clear Hall. induction repos as [|[a b] d IH]; simpl; [constructor|].
    simpl in Hnd. apply NoDup_cons_iff in Hnd as [Ha Hnd].
    destruct (inb a names); simpl; [now apply IH|].
    constructor; [|now apply IH].
    intros Hin. apply Ha. unfold Dict.keys in *.
    apply in_map_iff in Hin as (kv & <- & Hin).
    apply filter_In in Hin as [Hin _]. now apply in_map.
  - rewrite Forall_forall in *. intros kv Hin.
    apply filter_In in Hin as [Hin _]. auto.
Qed.

(** X7.  Remove, then load.  In a fresh process with a path file that
    loads, removing distinct registered names writes the file over with
    the other items, in their order, and the next fresh load returns
    exactly them: none of the removed names is a key any more and the
    other lookups are unchanged. *)
Theorem rm_then_load (s : string) (repos : Dict.t) (names : list string) :
  read_repos path_exists (Some s) = Ok repos ->
  NoDup names ->
  incl names (Dict.keys repos) ->
  let rest := without names repos in
  f_rm path_exists names (fresh (Some s))
  = (Ok tt, mkWorld (Some (store_data rest)) (Some rest) [] 0)
  /\ read_repos path_exists (Some (store_data rest)) = Ok rest
  /\ (forall k, Dict.get rest k
                = if inb k names then None else Dict.get repos k).
Proof.
  intros Hload Hn Hincl rest.
  pose proof (loaded_storable _ _ Hload) as Hst.
  destruct (del_each_spec names repos (proj1 Hst)) as [Hok _].
  specialize (Hok (conj Hn Hincl)).
  split; [|split].
  - unfold f_rm, fresh. cbn [store_file]. unfold bind at 1.
    unfold get_repos. cbn [repos_cache store_file trace spawned].
    rewrite Hload. cbn beta iota. unfold bind at 1.
    rewrite (del_loop_ok names repos rest
               (mkWorld (Some s) (Some repos) [] 0) eq_refl Hok).
    reflexivity.
  - apply storable_round_trip. now apply storable_without.
  - intros k. unfold rest, without. destruct Hst as [Hnd _].
    clear -Hnd. induction repos as [|[a b] d IH]; simpl.
    + destruct (inb k names); reflexivity.
    + simpl in Hnd. apply NoDup_cons_iff in Hnd as [Ha Hnd].
      destruct (inb a names) eqn:Ea; simpl.
      * rewrite (IH Hnd).
        destruct (String.eqb_spec a k) as [->|_]; [|reflexivity].
        now rewrite Ea.
      * destruct (String.eqb_spec a k) as [->|_]; [now rewrite Ea|].
        apply (IH Hnd).
Qed.

(** X8.  When [rm] does nothing.  Without a path file [rm] returns at
    once, whatever the names.  With a path file that loads, a name that is
    not registered, or a name given twice, raises [KeyError], after which
    the path file is as it was: nothing is removed, not even the valid
    names before it. *)
Theorem rm_fails_without_writing (names : list string) :
  (forall w, store_file w = None -> f_rm path_exists names w = (Ok tt, w))
  /\ (forall s repos,
        read_repos path_exists (Some s) = Ok repos ->
        ~ (NoDup names /\ incl names (Dict.keys repos)) ->
        exists k w',
          In k names
          /\ f_rm path_exists names (fresh (Some s))
             = (Raise (KeyError k), w')
          /\ store_file w' = Some s
          /\ trace w' = []).
Proof.
  split.
  - intros w Hw. unfold f_rm. now rewrite Hw.
  - intros s repos Hload Hbad.
    pose proof (loaded_storable _ _ Hload) as Hst.
    destruct (del_each_spec names repos (proj1 Hst)) as [_ Herr].
    destruct (Herr Hbad) as (k & Hin & Hr).
    destruct (del_loop_raise names repos (KeyError k)
                (mkWorld (Some s) (Some repos) [] 0) Hr) as [cache Hc].
    exists k. eexists. split; [exact Hin|]. split.
    + unfold f_rm, fresh. cbn [store_file]. unfold bind at 1.
      unfold get_repos. cbn [repos_cache store_file trace spawned].
      rewrite Hload. cbn beta iota. unfold bind at 1. rewrite Hc.
      reflexivity.
    + split; reflexivity.
Qed.

End Stored.

(** ** Adding, in general *)

Section AddingMore.

Variable path_exists : string -> bool.
Variable getcwd : string.
Variable set_iter : list string -> list string.

Hypothesis set_iter_perm : forall l, Permutation (set_iter l) l.








End AddingMore.

(** ** The dispatcher, in general *)

Section DispatcherMore.

Variable path_exists : string -> bool.
Variable outcome : nat -> proc.
Variable completion_order : nat -> list nat.

(** X11.  How a dispatch ends.  An empty command sent to a target set
    that does not have exactly one entry raises [IndexError], before
    anything is printed or started.  On the concurrent branch (a command
    whose verb is not on the denylist, sent to a target set that does not
    have exactly one entry) a child whose captured output is not UTF-8
    makes the dispatch raise [UnicodeDecodeError].  In every other case
    the dispatch returns, starting a child process being taken to
    succeed; with one target and an empty command it runs [git] alone. *)
Theorem dispatch_ends (repos : Dict.t) (cmd bl : list string) (w : world) :
  let decoded :=
    forallb decodable (children outcome (spawned w) (length repos)) in
  (cmd = [] /\ length repos <> 1 ->
   dispatch outcome completion_order repos cmd bl w = (Raise IndexError, w))
  /\ (cmd <> [] -> length repos <> 1 -> denylisted cmd bl = false ->
      decoded = false ->
      fst (dispatch outcome completion_order repos cmd bl w)
      = Raise UnicodeDecodeError)
  /\ (length repos = 1
      \/ (cmd <> [] /\ (denylisted cmd bl = true \/ decoded = true)) ->
      exists w', dispatch outcome completion_order repos cmd bl w
                 = (Ok tt, w'))
  /\ (cmd = [] -> forall name path,
        repos = [(name, path)] ->
        dispatch outcome completion_order repos cmd bl w
        = (Ok tt,
           mkWorld (store_file w) (repos_cache w)
                   (trace w ++ [EPrint path; ERun ["git"] path])
                   (S (spawned w)))).
Proof.
  intros decoded.
  assert (Hconc : cmd <> [] -> length repos <> 1 ->
                  denylisted cmd bl = false ->
                  exists w1 w2,
                    dispatch outcome completion_order repos cmd bl w
                    = if decoded then (Ok tt, w1)
                      else (Raise UnicodeDecodeError, w2)).
  { intros Hcmd Hlen Hd. unfold dispatch.
    destruct (Nat.eqb_spec (length repos) 1); [contradiction|].
    destruct cmd as [|verb rest]; [contradiction|].
    simpl in *. rewrite Hd.
    destruct (concurrent_branch outcome completion_order
                ("git" :: verb :: rest) (Dict.values repos) w)
      as (prints & _ & Hc).
    cbv zeta in Hc. rewrite length_values in Hc. fold decoded in Hc.
    rewrite Hc. eexists. eexists. reflexivity. }
  split; [|split; [|split]].
  - intros [-> Hlen]. unfold dispatch.
    destruct (Nat.eqb_spec (length repos) 1); [contradiction | reflexivity].
  - intros Hcmd Hlen Hd Hdec.
    destruct (Hconc Hcmd Hlen Hd) as (w1 & w2 & Hrun).
    now rewrite Hrun, Hdec.
  - intros H.
    destruct (Nat.eq_dec (length repos) 1) as [E|E].
    { eexists. apply dispatch_serial_branch. now left. }
    destruct H as [H|[Hcmd H]]; [contradiction|].
    destruct (denylisted cmd bl) eqn:Hd.
    { eexists. apply dispatch_serial_branch. now right. }
    destruct H as [H|Hdec]; [discriminate|].
    destruct (Hconc Hcmd E eq_refl) as (w1 & w2 & Hrun).
    exists w1. now rewrite Hrun, Hdec.
  - intros -> name path ->.
    rewrite dispatch_serial_branch by (now left).
    simpl. now rewrite Nat.add_1_r.
Qed.

Lemma spawns_of_retries (cmds : list string)
    (errors : list (option string)) :
  length (filter is_spawn (retry_events cmds errors))
  = length (filter truthy errors).
Proof.
  induction errors as [|r errors IH]; [reflexivity|].
  unfold retry_events in *. cbn [flat_map filter].
  rewrite filter_app, length_app, IH.
  destruct r as [path|]; [|reflexivity].
  destruct (truthy (Some path)); reflexivity.
Qed.

(** X12.  A dispatch that returns has started, for every target, the
    command once or twice, and never more: the number of children started
    lies between the number of targets and twice that number, every one
    of them is in the trace, and the path file and the cached mapping are
    untouched. *)
Theorem dispatch_spawn_bounds (repos : Dict.t) (cmd bl : list string)
    (w w' : world) :
  dispatch outcome completion_order repos cmd bl w = (Ok tt, w') ->
  exists delta,
    trace w' = trace w ++ delta
    /\ length (filter is_spawn delta) = spawned w' - spawned w
    /\ length repos <= length (filter is_spawn delta) <= 2 * length repos
    /\ store_file w' = store_file w
    /\ repos_cache w' = repos_cache w.
Proof.
  intros Hrun.
  destruct (Nat.eq_dec (length repos) 1) as [E|E];
    [|destruct (denylisted cmd bl) eqn:Hd].
  1,2: rewrite dispatch_serial_branch in Hrun by auto;
    injection Hrun as <-; eexists; split; [reflexivity|];
    rewrite spawns_of_serial, length_values; simpl;
    repeat split; lia.
  unfold dispatch in Hrun.
  destruct (Nat.eqb_spec (length repos) 1); [contradiction|].
  destruct cmd as [|verb rest]; [discriminate|].
  simpl in Hd, Hrun. rewrite Hd in Hrun.
  destruct (concurrent_branch outcome completion_order
              ("git" :: verb :: rest) (Dict.values repos) w)
    as (prints & Hprints & Hc).
  cbv zeta in Hc. rewrite Hc in Hrun.
  destruct (forallb decodable _); [|discriminate].
  set (errors := map _ (combine _ _)) in Hrun.
  injection Hrun as <-.
  eexists. split; [reflexivity|].
  cbn [trace spawned store_file repos_cache].
  rewrite !filter_app. cbn [filter is_spawn].
  rewrite !length_app, spawns_of_execs, length_map.
  rewrite (spawns_of_prints _ Hprints), spawns_of_retries.
  rewrite length_values. cbn [length].
  assert (Hle : length (filter truthy errors) <= length repos).
  { rewrite <- length_values.
    etransitivity; [apply filter_length_le|].
    unfold errors. rewrite length_map, length_combine, length_seq. lia. }
  repeat split; lia.
Qed.

Lemma dict_mem_inb (d : Dict.t) (k : string) :
  Dict.mem d k = inb k (Dict.keys d).
Proof.
  destruct (Dict.mem d k) eqn:E; symmetry.
  - apply inb_true_iff. now apply dict_mem_true.
  - destruct (inb k (Dict.keys d)) eqn:E'; [|reflexivity].
    apply inb_true_iff in E'. apply dict_mem_false in E. contradiction.
Qed.

Lemma restrict_keys (repos : Dict.t) (names : list string)
    (acc r : Dict.t) :
  restrict repos names acc = Ok r ->
  Dict.keys r
  = fold_left (fun a k => if inb k a then a else a ++ [k])
              names (Dict.keys acc)
  /\ (forall k, Dict.get r k
                = if inb k names then Dict.get repos k else Dict.get acc k)
  /\ (forall k, In k names -> In k (Dict.keys repos)).
Proof.
  clear path_exists outcome completion_order.
  revert acc. induction names as [|n names IH]; intros acc;
    cbn [restrict fold_left].
  - intros [= <-]. repeat split; simpl; tauto.
  - destruct (Dict.get repos n) as [v|] eqn:Hn; [|discriminate].
    intros Hr. destruct (IH _ Hr) as (Hk & Hg & Hin).
    split; [|split].
    + rewrite Hk, dict_set_keys, dict_mem_inb. reflexivity.
    + intros k. rewrite Hg, dict_get_set, inb_cons.
      destruct (String.eqb_spec k n) as [->|Hne].
      * rewrite String.eqb_refl. simpl.
        destruct (inb n names); congruence.
      * destruct (String.eqb_spec n k) as [->|_]; [contradiction|].
        reflexivity.
    + intros k [<-|Hk']; [|auto].
      apply dict_mem_true. unfold Dict.mem. now rewrite Hn.
Qed.

Lemma restrict_raises (repos : Dict.t) (pre : list string) (k : string)
    (post : list string) (acc : Dict.t) :
  (forall n, In n pre -> In n (Dict.keys repos)) ->
  ~ In k (Dict.keys repos) ->
  restrict repos (pre ++ k :: post) acc = Raise (KeyError k).
Proof.
  revert acc. induction pre as [|n pre IH]; intros acc Hpre Hk; simpl.
  - now rewrite (dict_get_none _ _ Hk).
  - destruct (dict_get_in repos n (Hpre n (or_introl eq_refl))) as [v Hv].
    rewrite Hv. apply IH; [|exact Hk].
    intros m Hm. apply Hpre. now right.
Qed.

Lemma restrict_returns (repos : Dict.t) (names : list string)
    (acc : Dict.t) :
  (forall k, In k names -> In k (Dict.keys repos)) ->
  exists r, restrict repos names acc = Ok r.
Proof.
  revert acc. induction names as [|n names IH]; intros acc Hin; simpl.
  - eauto.
  - destruct (dict_get_in repos n (Hin n (or_introl eq_refl))) as [v Hv].
    rewrite Hv. apply IH. intros k Hk. apply Hin. now right.
Qed.

(** X13.  Explicit targets.  When every name given to [f_git_cmd] is
    registered, the command is dispatched to the distinct names, in the
    order of their first mention, each with its registered path: a name
    given twice is one target.  No name outside the list is a target. *)
Theorem f_git_cmd_named_targets (every : Dict.t)
    (name : string) (names cmd bl : list string) (w : world) :
  repos_cache w = Some every ->
  (forall k, In k (name :: names) -> In k (Dict.keys every)) ->
  exists targets,
    f_git_cmd path_exists outcome completion_order (name :: names) cmd bl w
    = dispatch outcome completion_order targets cmd bl w
    /\ Dict.keys targets = uniq (name :: names)
    /\ (forall k, Dict.get targets k
                  = if inb k (name :: names) then Dict.get every k
                    else None).
Proof.
  intros Hc Hin.
  destruct (restrict_returns every (name :: names) [] Hin) as [r Hr].
  exists r. split; [|split].
  - apply (f_git_cmd_dispatch outcome completion_order path_exists
             (name :: names) cmd bl w every r Hc Hr).
  - apply restrict_keys in Hr as (Hk & _). exact Hk.
  - apply restrict_keys in Hr as (_ & Hg & _). exact Hg.
Qed.

(** X14.  When a name among the targets is not registered, [f_git_cmd]
    raises [KeyError] for the first such name, before any command is
    printed or started, also for the registered names that come before
    it; what comes after it is not looked at. *)
Theorem f_git_cmd_unknown_target (every : Dict.t)
    (pre : list string) (k : string) (post cmd bl : list string)
    (w : world) :
  repos_cache w = Some every ->
  (forall n, In n pre -> In n (Dict.keys every)) ->
  ~ In k (Dict.keys every) ->
  f_git_cmd path_exists outcome completion_order (pre ++ k :: post) cmd bl w
  = (Raise (KeyError k), w).
Proof.
  intros Hc Hpre Hk.
  unfold f_git_cmd, bind, get_repos. rewrite Hc.
  pose proof (restrict_raises every pre k post [] Hpre Hk) as Hr.
  destruct (pre ++ k :: post) as [|n names] eqn:E.
  - destruct pre; discriminate.
  - unfold lift. now rewrite Hr.
Qed.

End DispatcherMore.

(** ** Superman mode *)

Section Super.

Variable path_exists : string -> bool.
Variable outcome : nat -> proc.
Variable completion_order : nat -> list nat.

Lemma super_loop_break (repos : Dict.t) (names : list string)
    (word : string) (rest : list string) :
  forall (i : nat) (acc : list string) (last : option nat),
    (forall n, In n names -> Dict.mem repos n = true) ->
    Dict.mem repos word = false ->
    super_loop repos (names ++ word :: rest) i acc last
    = (acc ++ names, Some (i + length names)).
Proof.
  induction names as [|n names IH]; intros i acc last Hin Hword; simpl.
  - now rewrite Hword, app_nil_r, Nat.add_0_r.
  - rewrite (Hin n (or_introl eq_refl)).
    rewrite IH; [| intros m Hm; apply Hin; now right | exact Hword].
    now rewrite <- app_assoc, Nat.add_succ_r.
Qed.

Lemma super_loop_all (repos : Dict.t) (names : list string) (l : string) :
  forall (i : nat) (acc : list string) (last : option nat),
    (forall n, In n (names ++ [l]) -> Dict.mem repos n = true) ->
    super_loop repos (names ++ [l]) i acc last
    = (acc ++ names ++ [l], Some (i + length names)).
Proof.
  induction names as [|n names IH]; intros i acc last Hin; simpl.
  - rewrite (Hin l (or_introl eq_refl)). now rewrite Nat.add_0_r.
  - rewrite (Hin n (or_introl eq_refl)).
    rewrite IH by (intros m Hm; apply Hin; now right).
    now rewrite <- app_assoc, Nat.add_succ_r.
Qed.

Lemma skipn_length_app (l1 l2 : list string) :
  skipn (length l1) (l1 ++ l2) = l2.
Proof. induction l1; simpl; auto. Qed.

(** X15.  [super] takes the leading registered names as targets and the
    rest, from the first word that is not a registered name, as the
    command: it ends as the dispatch of that command to these targets
    does, in the same world.  The targets are all the repositories when
    no name leads, and otherwise the distinct leading names, in the order
    of their first mention, with their registered paths.  The words after
    the first unregistered one are part of the command even when they are
    names of repositories. *)
Theorem f_super_splits_at_first_unregistered (every : Dict.t)
    (names : list string) (word : string) (rest bl : list string)
    (w : world) :
  repos_cache w = Some every ->
  (forall n, In n names -> In n (Dict.keys every)) ->
  ~ In word (Dict.keys every) ->
  exists targets,
    f_super path_exists outcome completion_order
            (names ++ word :: rest) bl w
    = (SuperRan
         (fst (dispatch outcome completion_order targets (word :: rest)
                        bl w)),
       snd (dispatch outcome completion_order targets (word :: rest) bl w))
    /\ (names = [] -> targets = every)
    /\ (names <> [] ->
        Dict.keys targets = uniq names
        /\ forall k, Dict.get targets k
                     = if inb k names then Dict.get every k else None).
Proof.
  intros Hc Hnames Hword.
  assert (Hsuper :
    f_super path_exists outcome completion_order (names ++ word :: rest) bl w
    = (SuperRan
         (fst (f_git_cmd path_exists outcome completion_order
                         names (word :: rest) bl w)),
       snd (f_git_cmd path_exists outcome completion_order
                      names (word :: rest) bl w))).
  { unfold f_super, get_repos. rewrite Hc.
    rewrite super_loop_break.
    - simpl app. simpl Nat.add. rewrite skipn_length_app.
      destruct (f_git_cmd path_exists outcome completion_order names
                          (word :: rest) bl w); reflexivity.
    - intros n Hn. now apply dict_mem_true, Hnames.
    - now apply dict_mem_false. }
  destruct names as [|n names].
  - exists every. split; [|split; [reflexivity | intros H; contradiction]].
    rewrite Hsuper.
    now rewrite (f_git_cmd_dispatch outcome completion_order path_exists
                   [] (word :: rest) bl w every every Hc eq_refl).
  - destruct (restrict_returns every (n :: names) [] Hnames) as [r Hr].
    exists r. split; [|split; [discriminate|]].
    + rewrite Hsuper.
      now rewrite (f_git_cmd_dispatch outcome completion_order path_exists
                     (n :: names) (word :: rest) bl w every r Hc Hr).
    + intros _. apply restrict_keys in Hr as (Hk & Hg & _).
      split; [exact Hk | exact Hg].
Qed.

(** X16.  The two edges of [super].  With no word at all the loop never
    binds its index and the slice raises [UnboundLocalError], after the
    load.  When every word is a registered name, the loop ends without a
    break, the index stays on the last word, and that last name is both a
    target and the whole command: [super] ends as the dispatch of
    [git <last name>] to all the named repositories does. *)
Theorem f_super_edges (every : Dict.t) (bl : list string) (w : world) :
  repos_cache w = Some every ->
  f_super path_exists outcome completion_order [] bl w = (SuperUnbound, w)
  /\ (forall names l,
        (forall n, In n (names ++ [l]) -> In n (Dict.keys every)) ->
        exists targets,
          f_super path_exists outcome completion_order (names ++ [l]) bl w
          = (SuperRan
               (fst (dispatch outcome completion_order targets [l] bl w)),
             snd (dispatch outcome completion_order targets [l] bl w))
          /\ Dict.keys targets = uniq (names ++ [l])
          /\ In l (Dict.keys targets)).
Proof.
  intros Hc. split.
  - unfold f_super, get_repos. now rewrite Hc.
  - intros names l Hin.
    assert (Hne : exists n ns, names ++ [l] = n :: ns).
    { destruct names; simpl; eauto. }
    destruct Hne as (n & ns & Heq).
    destruct (restrict_returns every (names ++ [l]) [] Hin) as [r Hr].
    pose proof (f_git_cmd_dispatch outcome completion_order path_exists
                  (names ++ [l]) [l] bl w every r Hc) as Hd.
    rewrite Heq in Hd, Hr. specialize (Hd Hr). rewrite <- Heq in Hd, Hr.
    exists r. split.
    + unfold f_super, get_repos. rewrite Hc.
      rewrite super_loop_all
        by (intros m Hm; now apply dict_mem_true, Hin).
      simpl app. simpl Nat.add. rewrite skipn_length_app.
      rewrite Hd.
      destruct (dispatch outcome completion_order r [l] bl w); reflexivity.
    + apply restrict_keys in Hr as (Hk & Hg & _).
      split; [exact Hk|].
      apply dict_mem_true. unfold Dict.mem.
      assert (Hl : In l (names ++ [l])).
      { apply in_or_app. right. now left. }
      rewrite Hg, (proj2 (inb_true_iff l (names ++ [l])) Hl).
      destruct (dict_get_in every l (Hin l Hl)) as [v Hv].
      now rewrite Hv.
Qed.

End Super.

(** ** The command table *)

Lemma cmds_get_set (d : Cmds.t) (k k' : string) (v : cmd_data) :
  Cmds.get (Cmds.set d k v) k'
  = if String.eqb k k' then Some v else Cmds.get d k'.
Proof.
  induction d as [|[a b] d IH]; simpl.
  - destruct (String.eqb k k'); reflexivity.
  - destruct (String.eqb_spec a k) as [->|Hak]; simpl.
    + destruct (String.eqb k k'); reflexivity.
    + rewrite IH. destruct (String.eqb_spec a k') as [->|_];
        [|reflexivity].
      destruct (String.eqb_spec k k') as [->|_]; [contradiction|reflexivity].
Qed.

Lemma cmds_get_none (d : Cmds.t) (k : string) :
  ~ In k (Cmds.keys d) -> Cmds.get d k = None.
Proof.
  induction d as [|[a b] d IH]; simpl; [reflexivity|].
  intros H. destruct (String.eqb_spec a k) as [->|_]; [tauto|].
  apply IH. tauto.
Qed.

Lemma cmds_get_update (d other : Cmds.t) (k : string) :
  NoDup (Cmds.keys other) ->
  Cmds.get (Cmds.update d other) k
  = match Cmds.get other k with
    | Some v => Some v
    | None => Cmds.get d k
    end.
Proof.
  unfold Cmds.update. revert d.
  induction other as [|[a b] other IH]; intros d Hnd; simpl; [reflexivity|].
  simpl in Hnd. apply NoDup_cons_iff in Hnd as [Ha Hnd].
  rewrite (IH _ Hnd), cmds_get_set.
  destruct (String.eqb_spec a k) as [->|_]; [|reflexivity].
  now rewrite (cmds_get_none _ _ Ha).
Qed.

(** X17.  A custom command table shadows the default one entry by entry:
    a name defined in the custom file gets the custom entry whole, with
    none of the fields of the default entry of that name, and every other
    name keeps its default entry.  Without a custom file the table is the
    default one.  A custom file without a document makes
    [get_cmds_from_files] raise [TypeError]. *)
Theorem custom_cmds_shadow_default (default_cmds custom : Cmds.t) :
  NoDup (Cmds.keys custom) ->
  (exists cmds,
     get_cmds_from_files default_cmds (Some (YamlMap custom)) = Ok cmds
     /\ forall name,
          Cmds.get cmds name
          = match Cmds.get custom name with
            | Some data => Some data
            | None => Cmds.get default_cmds name
            end)
  /\ get_cmds_from_files default_cmds None = Ok default_cmds
  /\ get_cmds_from_files default_cmds (Some YamlNone) = Raise TypeError.
Proof.
  intros Hnd. split; [|split; reflexivity].
  eexists. split; [reflexivity|].
  intros name. now apply cmds_get_update.
Qed.


(** ** The delegated sub-commands of [main] *)

Lemma split_ws_from_word (s cur : string) :
  forallb (fun c => negb (Str.isspace c)) (list_ascii_of_string s) = true ->
  split_ws_from cur s
  = if Str.is_empty (cur +++ s) then [] else [cur +++ s].
Proof.
  revert cur. induction s as [|c s IH]; intros cur; simpl.
  - intros _. now rewrite append_empty_r.
  - intros H. apply andb_true_iff in H as [Hc Hs].
    apply negb_true_iff in Hc. rewrite Hc, (IH _ Hs).
    now rewrite append_assoc.
Qed.

Lemma split_ws_one_word (s : string) :
  one_word s = true -> split_ws s = [s].
Proof.
  unfold one_word, split_ws. intros H.
  apply andb_true_iff in H as [Hne Hs].
  rewrite (split_ws_from_word _ _ Hs). simpl.
  apply negb_true_iff in Hne. now rewrite Hne.
Qed.

Lemma async_blacklist_in (cmds : Cmds.t) (verb : string) :
  inb verb (async_blacklist_of (async_flags cmds)) = true
  <-> exists data, In (verb, data) cmds /\ cmd_disable_async data = true.
Proof.
  unfold async_blacklist_of, async_flags, pyset.
  rewrite inb_true_iff, nodup_In, in_map_iff. split.
  - intros ([v b] & <- & Hin). apply filter_In in Hin as [Hin Hb].
    apply in_map_iff in Hin as ([v' d] & [= <- <-] & Hin).
    exists d. simpl in *. now split.
  - intros (data & Hin & Hd). exists (verb, true). split; [reflexivity|].
    apply filter_In. split; [|reflexivity].
    apply in_map_iff. exists (verb, data). simpl. now rewrite Hd.
Qed.

Lemma cmds_get_in (d : Cmds.t) (k : string) (v : cmd_data) :
  Cmds.get d k = Some v -> In (k, v) d.
Proof.
  induction d as [|[a b] d IH]; simpl; [discriminate|].
  destruct (String.eqb_spec a k) as [->|_].
  - intros [= ->]. now left.
  - intros H. right. now apply IH.
Qed.

(** The sub-parser of an entry that has a [help]. *)
Lemma add_delegated_ok (repos : Dict.t) (name : string) (data : cmd_data) :
  cmd_help data <> None ->
  exists sub,
    add_delegated repos name data = Ok sub
    /\ sub_name sub = name
    /\ sub_cmd sub = delegated_cmd name data
    /\ sub_nargs sub
       = (if cmd_allow_all data then ZeroOrMore else OneOrMore)
    /\ sub_choices sub
       = (if cmd_allow_all data then get_choices repos
          else map ChoiceName (Dict.keys repos)).
Proof.
  intros Hh. unfold add_delegated.
  destruct (cmd_help data) as [h|]; [|contradiction].
  destruct (cmd_allow_all data); eexists; repeat split.
Qed.

Lemma add_delegated_raises (repos : Dict.t) (name : string)
    (data : cmd_data) (e : exn) :
  add_delegated repos name data = Raise e -> e = TypeError.
Proof.
  unfold add_delegated.
  destruct (cmd_help data), (cmd_allow_all data); try discriminate;
    now intros [= <-].
Qed.

Lemma parser_loop_returns (repos : Dict.t) (cmds : Cmds.t) :
  all_help cmds = true -> exists subs, parser_loop repos cmds = Ok subs.
Proof.
  induction cmds as [|[k d] cmds IH]; simpl; [eauto|].
  intros H. apply andb_true_iff in H as [Hd Hrest].
  destruct (add_delegated_ok repos k d) as (sub & Hs & _).
  { destruct (cmd_help d); [discriminate | discriminate]. }
  destruct (IH Hrest) as [subs Hsubs]. rewrite Hs, Hsubs. eauto.
Qed.

(** An entry without [help], wherever it stands in the table, ends the
    loop with [TypeError]. *)
Lemma parser_loop_raises (repos : Dict.t) (cmds : Cmds.t) :
  all_help cmds = false -> parser_loop repos cmds = Raise TypeError.
Proof.
  induction cmds as [|[k d] cmds IH]; simpl; [discriminate|].
  intros H.
  destruct (add_delegated repos k d) as [sub|e] eqn:Hs.
  - destruct (cmd_help d) eqn:Hh.
    + simpl in H. now rewrite (IH H).
    + unfold add_delegated in Hs. rewrite Hh in Hs.
      destruct (cmd_allow_all d); discriminate.
  - now rewrite (add_delegated_raises _ _ _ _ Hs).
Qed.

(** The sub-parser that [parse_args] selects for a key of the table. *)
Lemma parser_loop_find (repos : Dict.t) (cmds : Cmds.t) (name : string)
    (data : cmd_data) :
  all_help cmds = true ->
  Cmds.get cmds name = Some data ->
  exists subs sub,
    parser_loop repos cmds = Ok subs
    /\ find (fun sp => String.eqb (sub_name sp) name) subs = Some sub
    /\ add_delegated repos name data = Ok sub.
Proof.
  induction cmds as [|[k d] cmds IH]; simpl; [discriminate|].
  intros H Hg. apply andb_true_iff in H as [Hd Hrest].
  destruct (add_delegated_ok repos k d) as (sub0 & Hs & Hn & _).
  { destruct (cmd_help d); [discriminate | discriminate]. }
  rewrite Hs.
  destruct (String.eqb_spec k name) as [->|Hne].
  - injection Hg as ->.
    destruct (parser_loop_returns repos cmds Hrest) as [subs Hsubs].
    rewrite Hsubs. exists (sub0 :: subs), sub0.
    split; [reflexivity|]. split; [|exact Hs].
    simpl. now rewrite Hn, String.eqb_refl.
  - destruct (IH Hrest Hg) as (subs & sub & Hsubs & Hf & Hsub).
    rewrite Hsubs. exists (sub0 :: subs), sub.
    split; [reflexivity|]. split; [|exact Hsub].
    simpl. rewrite Hn.
    destruct (String.eqb_spec k name); [contradiction | exact Hf].
Qed.

Lemma choice_in_names (v : string) (names : list string) :
  choice_in (ChoiceName v) (map ChoiceName names) = inb v names.
Proof.
  unfold choice_in, inb. induction names as [|n names IH]; simpl; congruence.
Qed.

Lemma choice_in_get_choices (v : string) (repos : Dict.t) :
  choice_in (ChoiceName v) (get_choices repos) = inb v (Dict.keys repos).
Proof.
  unfold get_choices, choice_in. rewrite existsb_app. simpl.
  rewrite orb_false_r. apply choice_in_names.
Qed.

Lemma empty_list_in_get_choices (repos : Dict.t) :
  choice_in ChoiceEmptyList (get_choices repos) = true.
Proof.
  unfold get_choices, choice_in. rewrite existsb_app. simpl.
  apply orb_true_r.
Qed.

(** What [parse_args] does with the words, for the sub-parser of an
    entry. *)
Lemma parse_repo_accepted (repos : Dict.t) (name : string) (data : cmd_data)
    (sub : subparser) (words : list string) :
  add_delegated repos name data = Ok sub ->
  parse_repo sub words
  = if accepted repos data words then Ok words else Raise SystemExit.
Proof.
  intros Hs.
  assert (Hh : cmd_help data <> None).
  { intros Hh. unfold add_delegated in Hs. rewrite Hh in Hs.
    destruct (cmd_allow_all data); discriminate. }
  destruct (add_delegated_ok repos name data Hh)
    as (sub' & Hs' & _ & _ & Hn & Hc).
  rewrite Hs in Hs'. injection Hs' as <-.
  unfold parse_repo, accepted. rewrite Hn, Hc.
  destruct (existsb (Str.startswith "-") words); [reflexivity|].
  cbn [negb andb].
  destruct words as [|v words].
  - destruct (cmd_allow_all data); cbn.
    + now rewrite empty_list_in_get_choices.
    + reflexivity.
  - cbn [length Nat.eqb negb orb].
    assert (He : forall l,
              forallb (fun v0 =>
                         choice_in (ChoiceName v0)
                           (if cmd_allow_all data then get_choices repos
                            else map ChoiceName (Dict.keys repos))) l
              = forallb (fun v0 => inb v0 (Dict.keys repos)) l).
    { intros l. induction l as [|x l IH]; [reflexivity|].
      cbn [forallb]. rewrite IH. f_equal.
      destruct (cmd_allow_all data);
        [apply choice_in_get_choices | apply choice_in_names]. }
    rewrite He. reflexivity.
Qed.

Section Delegated.

Variable path_exists : string -> bool.
Variable outcome : nat -> proc.
Variable completion_order : nat -> list nat.

Lemma get_repos_cache (w w1 : world) (every : Dict.t) :
  get_repos path_exists w = (Ok every, w1) -> repos_cache w1 = Some every.
Proof.
  unfold get_repos. destruct (repos_cache w) as [d|] eqn:Hc.
  - intros [= <- <-]. exact Hc.
  - destruct (read_repos path_exists (store_file w)); [|discriminate].
    intros [= <- <-]. reflexivity.
Qed.

(** A dispatch on a branch other than the serial one does not leave the
    serial trace. *)
Lemma dispatch_not_serial (repos : Dict.t) (cmd bl : list string)
    (w : world) :
  length repos <> 1 ->
  denylisted cmd bl = false ->
  dispatch outcome completion_order repos cmd bl w
  <> (Ok tt,
      mkWorld (store_file w) (repos_cache w)
              (trace w ++ serial_events ("git" :: cmd) (Dict.values repos))
              (spawned w + length repos)).
Proof.
  intros Hlen Hd Hrun. unfold dispatch in Hrun.
  destruct (Nat.eqb_spec (length repos) 1); [contradiction|].
  destruct cmd as [|verb rest]; [discriminate|].
  cbn [nth_error denylisted] in Hrun, Hd. rewrite Hd in Hrun.
  destruct (concurrent_branch outcome completion_order
              ("git" :: verb :: rest) (Dict.values repos) w)
    as (prints & _ & Hc).
  cbv zeta in Hc. rewrite Hc in Hrun.
  destruct (forallb decodable _); [|discriminate].
  injection Hrun as Htrace _.
  apply app_inv_head in Htrace.
  apply (serial_events_no_gather outcome completion_order
           ("git" :: verb :: rest) (Dict.values repos)
           (length (Dict.values repos))).
  rewrite <- Htrace. rewrite !in_app_iff. simpl. tauto.
Qed.

(** [main] up to the call of [f_git_cmd]: the load, the loop over the
    table and [parse_args]. *)
Lemma main_delegated_run (cmds : Cmds.t) (name : string) (data : cmd_data)
    (words : list string) (every : Dict.t) (w w1 : world) :
  get_repos path_exists w = (Ok every, w1) ->
  Cmds.get cmds name = Some data ->
  Str.startswith "-" name = false ->
  main_delegated path_exists outcome completion_order cmds name words w
  = if all_help cmds then
      if accepted every data words then
        f_git_cmd path_exists outcome completion_order words
                  (delegated_cmd name data)
                  (async_blacklist_of (async_flags cmds)) w1
      else (Raise SystemExit, w1)
    else (Raise TypeError, w1).
Proof.
  intros Hget Hg Hname. unfold main_delegated. unfold bind at 1.
  rewrite Hget. unfold bind at 1. unfold lift at 1.
  destruct (all_help cmds) eqn:Hh.
  - destruct (parser_loop_find every cmds name data Hh Hg)
      as (subs & sub & Hsubs & Hf & Hsub).
    rewrite Hsubs, Hname, Hf. unfold bind at 1. unfold lift.
    rewrite (parse_repo_accepted every name data sub words Hsub).
    destruct (accepted every data words); [|reflexivity].
    assert (Hh' : cmd_help data <> None).
    { intros E. unfold add_delegated in Hsub. rewrite E in Hsub.
      destruct (cmd_allow_all data); discriminate. }
    destruct (add_delegated_ok every name data Hh')
      as (sub' & Hs' & _ & Hcmd & _).
    rewrite Hsub in Hs'. injection Hs' as <-. now rewrite Hcmd.
  - now rewrite (parser_loop_raises every cmds Hh).
Qed.

(** X18.  Which delegated commands are kept from running concurrently.
    [main] is run on the name of a sub-command of the table and the words
    after it; no key of the table is the name of a sub-command that [main]
    defines itself, and the name has no leading dash.  When some entry of
    the table has no [help], the loop that sets up the sub-parsers raises
    [TypeError], whatever the sub-command.  When the words, none with a
    leading dash, are not what the [repo] argument takes (a name that is
    not registered, or no name for a sub-command that is not marked
    [allow_all]), [parse_args] ends the run.  Otherwise the command is
    run serially exactly when there is one target or the first word of
    its command line is the name of a table entry marked [disable_async]:
    the mark that counts is the one on the entry named like the git verb,
    not the one on the sub-command itself. *)
Theorem delegated_serial_iff (cmds : Cmds.t) (name : string)
    (data : cmd_data) (words : list string) (every targets : Dict.t)
    (w w1 : world) :
  get_repos path_exists w = (Ok every, w1) ->
  no_clash cmds = true ->
  Cmds.get cmds name = Some data ->
  Str.startswith "-" name = false ->
  (all_help cmds = false ->
   main_delegated path_exists outcome completion_order cmds name words w
   = (Raise TypeError, w1))
  /\ (all_help cmds = true ->
      existsb (Str.startswith "-") words = false ->
      accepted every data words = false ->
      main_delegated path_exists outcome completion_order cmds name words w
      = (Raise SystemExit, w1))
  /\ (all_help cmds = true -> accepted every data words = true ->
      (match words with
       | [] => Ok every
       | _ => restrict every words []
       end) = Ok targets ->
      (main_delegated path_exists outcome completion_order cmds name words w
       = (Ok tt,
          mkWorld (store_file w1) (repos_cache w1)
                  (trace w1
                   ++ serial_events ("git" :: delegated_cmd name data)
                                    (Dict.values targets))
                  (spawned w1 + length targets))
       <-> length targets = 1
           \/ exists verb rest entry,
                delegated_cmd name data = verb :: rest
                /\ In (verb, entry) cmds
                /\ cmd_disable_async entry = true)).
Proof.
  intros Hget _ Hg Hname.
  pose proof (main_delegated_run cmds name data words every w w1
                Hget Hg Hname) as Hrun.
  split; [|split].
  - intros Hh. now rewrite Hrun, Hh.
  - intros Hh _ Ha. now rewrite Hrun, Hh, Ha.
  - intros Hh Ha Ht. rewrite Hrun, Hh, Ha.
    rewrite (f_git_cmd_dispatch outcome completion_order path_exists
               words _ _ w1 every targets (get_repos_cache _ _ _ Hget) Ht).
    set (cmd := delegated_cmd name data).
    set (bl := async_blacklist_of (async_flags cmds)).
    assert (Hden : denylisted cmd bl = true
                   <-> exists verb rest entry,
                         cmd = verb :: rest /\ In (verb, entry) cmds
                         /\ cmd_disable_async entry = true).
    { unfold denylisted. destruct cmd as [|verb rest].
      - split; [discriminate|]. intros (v & r & e & H & _). discriminate.
      - unfold bl. rewrite async_blacklist_in. split.
        + intros (entry & H1 & H2). now exists verb, rest, entry.
        + intros (v & r & entry & [= <- <-] & H1 & H2). now exists entry. }
    split.
    + intros Hser.
      destruct (Nat.eq_dec (length targets) 1) as [E|E]; [now left|].
      right. apply Hden.
      destruct (denylisted cmd bl) eqn:Hd; [reflexivity|].
      exfalso. now apply (dispatch_not_serial targets cmd bl w1 E Hd).
    + intros H. apply dispatch_serial_branch.
      destruct H as [H|H]; [now left|]. right. now apply Hden.
Qed.

(** X19.  A sub-command of the table without a [cmd] of its own, whose
    name is one word without a leading dash and which is marked
    [disable_async], given words that [parse_args] takes, is run
    serially, one target after the other, however many there are.  (Every
    entry of the table has a [help], and no key of the table is the name
    of a sub-command that [main] defines itself.) *)
Theorem delegated_plain_disable_async (cmds : Cmds.t) (name : string)
    (data : cmd_data) (words : list string) (every targets : Dict.t)
    (w w1 : world) :
  get_repos path_exists w = (Ok every, w1) ->
  no_clash cmds = true ->
  all_help cmds = true ->
  Cmds.get cmds name = Some data ->
  Str.startswith "-" name = false ->
  cmd_cmd data = None ->
  cmd_disable_async data = true ->
  one_word name = true ->
  accepted every data words = true ->
  (match words with
   | [] => Ok every
   | _ => restrict every words []
   end) = Ok targets ->
  main_delegated path_exists outcome completion_order cmds name words w
  = (Ok tt,
     mkWorld (store_file w1) (repos_cache w1)
             (trace w1 ++ serial_events ["git"; name] (Dict.values targets))
             (spawned w1 + length targets)).
Proof.
  intros Hget _ Hh Hg Hname Hcmd Hdis Hword Ha Ht.
  assert (Hd : delegated_cmd name data = [name]).
  { unfold delegated_cmd, cmd_or_name. rewrite Hcmd.
    now apply split_ws_one_word. }
  rewrite (main_delegated_run cmds name data words every w w1
             Hget Hg Hname).
  rewrite Hh, Ha.
  rewrite (f_git_cmd_dispatch outcome completion_order path_exists
             words _ _ w1 every targets (get_repos_cache _ _ _ Hget) Ht).
  rewrite Hd. apply dispatch_serial_branch. right.
  unfold denylisted. apply async_blacklist_in. exists data.
  split; [now apply cmds_get_in | exact Hdis].
Qed.

End Delegated.

(** ** The location of the path file *)

Lemma rsplit_sep_no_sep (t : string) :
  Str.contains Posixpath.sep t = false ->
  Posixpath.rsplit_sep t = (EmptyString, t).
Proof.
  induction t as [|c t IH]; simpl; [reflexivity|].
  intros H. apply orb_false_iff in H as [Hc Ht].
  rewrite (IH Ht). simpl. now rewrite Hc.
Qed.

Lemma rsplit_sep_last (h t : string) :
  Str.contains Posixpath.sep t = false ->
  Posixpath.rsplit_sep (h +++ String Posixpath.sep t)
  = (h +++ String Posixpath.sep EmptyString, t).
Proof.
  intros Ht. induction h as [|c h IH]; simpl.
  - rewrite (rsplit_sep_no_sep _ Ht). reflexivity.
  - rewrite IH. destruct h; reflexivity.
Qed.

Lemma rstrip_char_keeps_prefix (x : ascii) (a : string) (c : ascii)
    (b : string) :
  Ascii.eqb c x = false ->
  Str.rstrip_char x (a +++ String c b)
  = a +++ String c (Str.rstrip_char x b).
Proof.
  intros Hc. induction a as [|y a IH]; simpl.
  - now rewrite Hc, andb_false_r.
  - rewrite IH. destruct a; reflexivity.
Qed.

Lemma all_char_append (x : ascii) (a b : string) :
  Str.all_char x (a +++ b) = Str.all_char x a && Str.all_char x b.
Proof.
  induction a as [|c a IH]; simpl; [reflexivity|].
  now rewrite IH, andb_assoc.
Qed.

(** The directory of gita under a root. *)
Lemma join_gita (root : string) :
  exists pre, Posixpath.join root "gita" = pre +++ "gita".
Proof.
  unfold Posixpath.join. simpl.
  destruct (Str.is_empty root || Str.endswith Posixpath.sep root).
  - now exists root.
  - exists (root +++ "/"). now rewrite append_assoc.
Qed.

Lemma endswith_sep_split (root : string) :
  Str.endswith Posixpath.sep root = true ->
  exists r, root = r +++ String Posixpath.sep EmptyString.
Proof.
  induction root as [|a root IH]; [discriminate|].
  destruct root as [|b root].
  - simpl. intros E. apply Ascii.eqb_eq in E. subst a.
    now exists EmptyString.
  - intros E. destruct (IH E) as [r Hr]. exists (String a r).
    simpl. now rewrite <- Hr.
Qed.

Lemma basename_join_gita (root : string) :
  Posixpath.basename (Posixpath.join root "gita") = "gita".
Proof.
  unfold Posixpath.basename, Posixpath.join.
  simpl Str.startswith. cbv iota.
  destruct (Str.is_empty root) eqn:He.
  - apply is_empty_true in He. subst root. reflexivity.
  - simpl orb. destruct (Str.endswith Posixpath.sep root) eqn:E.
    + apply endswith_sep_split in E as [r ->].
      rewrite append_assoc.
      change (String Posixpath.sep EmptyString +++ "gita")
        with (String Posixpath.sep "gita").
      now rewrite rsplit_sep_last.
    + now rewrite rsplit_sep_last.
Qed.

(** X20.  The path file is always the file [repo_path] in the directory
    [gita] under the configuration root, which is [XDG_CONFIG_HOME] when
    that is set and not empty and [~/.config] otherwise; its directory,
    the one [write_to_repo_file] creates, is that [gita] directory. *)
Theorem get_path_fname_location (xdg : option string) (home : string) :
  let root := config_root xdg home in
  Posixpath.basename (get_path_fname xdg home) = "repo_path"
  /\ Posixpath.dirname (get_path_fname xdg home)
     = Posixpath.join root "gita"
  /\ Posixpath.basename (Posixpath.dirname (get_path_fname xdg home))
     = "gita"
  /\ (forall dir, xdg = Some dir -> dir <> EmptyString -> root = dir)
  /\ (xdg = None \/ xdg = Some EmptyString ->
      root = Posixpath.join home ".config").
Proof.
  intros root. unfold get_path_fname. fold root.
  destruct (join_gita root) as [pre Hpre]. rewrite Hpre.
  assert (Hjoin : Posixpath.join (pre +++ "gita") "repo_path"
                  = (pre +++ "gita") +++ String Posixpath.sep "repo_path").
  { unfold Posixpath.join. simpl Str.startswith. cbv iota.
    rewrite is_empty_append. simpl Str.is_empty at 2.
    rewrite andb_false_r. simpl orb.
    rewrite endswith_append by discriminate. reflexivity. }
  rewrite Hjoin.
  assert (Hsplit : Posixpath.rsplit_sep
                     ((pre +++ "gita") +++ String Posixpath.sep "repo_path")
                   = ((pre +++ "gita") +++ "/", "repo_path")).
  { now rewrite rsplit_sep_last. }
  assert (Hdir : Posixpath.dirname
                   ((pre +++ "gita") +++ String Posixpath.sep "repo_path")
                 = pre +++ "gita").
  { unfold Posixpath.dirname. rewrite Hsplit. cbn [fst].
    rewrite is_empty_append, all_char_append.
    replace (Str.all_char Posixpath.sep (pre +++ "gita")) with false
      by (rewrite all_char_append; simpl; now rewrite andb_false_r).
    simpl negb. rewrite andb_false_r. simpl andb.
    replace ((pre +++ "gita") +++ "/") with (pre +++ "git" +++ "a/")
      by (now rewrite !append_assoc).
    replace (pre +++ "git" +++ "a/") with ((pre +++ "git") +++ "a/")
      by (now rewrite append_assoc).
    change "a/" with (String "a" "/").
    rewrite rstrip_char_keeps_prefix by reflexivity.
    simpl Str.rstrip_char. now rewrite !append_assoc. }
  split; [|split; [|split; [|split]]].
  - unfold Posixpath.basename. now rewrite Hsplit.
  - exact Hdir.
  - rewrite Hdir, <- Hpre. apply basename_join_gita.
  - intros dir -> Hdirne. unfold root, config_root.
    destruct dir; [contradiction | reflexivity].
  - intros [-> | ->]; reflexivity.
Qed.

(** ** The cache within one process *)

(** X21.  [add_repos] changes neither the mapping it is given nor the
    cache of [get_repos].  So within one process a second [add] of a path
    that was new still finds it new: the line is appended a second time
    and the count is printed again.  It is the load of a fresh process
    that makes [add] idempotent. *)
Theorem add_twice_same_process (path_exists : string -> bool)
    (getcwd : string) (set_iter : list string -> list string)
    (file : option string) (repos : Dict.t) (p : string) :
  (forall l, Permutation (set_iter l) l) ->
  read_repos path_exists file = Ok repos ->
  is_git path_exists p = true ->
  ~ In (Posixpath.abspath getcwd p) (Dict.values repos) ->
  let abs := Posixpath.abspath getcwd p in
  let line := store_line abs (default_name abs) in
  (f_add path_exists getcwd set_iter [p] ;;;
   f_add path_exists getcwd set_iter [p]) (fresh file)
  = (Ok tt,
     mkWorld (Some ((file_text file +++ line) +++ line)) (Some repos)
             [EPrint "Found 1 new repo(s).";
              EPrint "Found 1 new repo(s)."] 0).
Proof.
  intros Hperm Hload Hgit Hnew abs line.
  unfold bind at 1.
  rewrite (f_add_fresh path_exists getcwd set_iter file repos [p] Hload).
  rewrite (add_repos_new path_exists getcwd set_iter Hperm repos p _
             Hgit Hnew).
  unfold f_add, bind, get_repos. cbn [repos_cache].
  rewrite (add_repos_new path_exists getcwd set_iter Hperm repos p _
             Hgit Hnew).
  reflexivity.
Qed.

(** ** The listing command *)

Lemma print_loop (lines : list string) (w : world) :
  for_each lines print w
  = (Ok tt,
     mkWorld (store_file w) (repos_cache w)
             (trace w ++ map EPrint lines) (spawned w)).
Proof.
  revert w. induction lines as [|l lines IH]; intros w; simpl.
  - unfold ret. destruct w; simpl. now rewrite app_nil_r.
  - unfold bind at 1. unfold print at 1, emit. rewrite IH. simpl.
    now rewrite <- app_assoc.
Qed.

(** X22.  [ll] on a path file that loads never fails: every sorted name
    is found in the mapping, and one line per registered repository is
    printed, in the order of the sorted names.  Nothing else happens: no
    child is started by the listing itself and the path file is as it
    was. *)
Theorem f_ll_prints_one_line_each (path_exists : string -> bool)
    (info_funcs : list (string -> string)) (file : option string)
    (repos : Dict.t) :
  read_repos path_exists file = Ok repos ->
  exists lines,
    f_ll path_exists info_funcs (fresh file)
    = (Ok tt, mkWorld file (Some repos) (map EPrint lines) 0)
    /\ length lines = length repos
    /\ Forall2 (fun name line =>
                  exists path,
                    Dict.get repos name = Some path
                    /\ line = describe_line info_funcs repos name path)
               (Str.sorted (Dict.keys repos)) lines.
Proof.
  intros Hload.
  pose proof (sorted_perm (Dict.keys repos)) as Hperm.
  destruct (describe_lines_ok info_funcs repos
              (Str.max_len (Dict.keys repos) + 1)
              (Str.sorted (Dict.keys repos)))
    as (lines & Hl & Hf).
  { intros name H. now apply (Permutation_in _ Hperm). }
  exists lines. split; [|split].
  - unfold f_ll, bind, get_repos, fresh. cbn [repos_cache store_file].
    rewrite Hload. unfold lift, describe. rewrite Hl.
    now rewrite print_loop.
  - rewrite <- (Forall2_length Hf), (Permutation_length Hperm).
    apply length_map.
  - exact Hf.
Qed.

(** * Concrete runs of the further properties *)

Lemma read_repos_storable_witness :
  let fs := fs_of ["/a/repo1/.git"; "/b/repo1/.git"] in
  let repos := [("repo1", "/a/repo1"); ("b/repo1", "/b/repo1")] in
  NoDup (Dict.keys repos)
  /\ (forall name path,
        In (name, path) repos ->
        Str.contains comma name = false
        /\ one_line name = true
        /\ Str.rstrip name = name
        /\ Str.contains comma path = false
        /\ one_line path = true
        /\ is_git fs path = true).
Proof.
  intros fs repos.
  apply (read_repos_storable fs
           (Some (store_line "/a/repo1" "repo1 " +++ nl
                  +++ store_line "/b/repo1" "repo1"))).
  vm_compute. reflexivity.
Defined.

Lemma store_load_round_trip_witness :
  let fs := fs_of ["/a/repo1/.git"; "/b/x/.git"] in
  let repos := [("repo1", "/a/repo1"); ("my x", "/b/x")] in
  let w' := snd (write_to_repo_file repos ModeW
                                    (fresh (Some (store_line "/old" "old"))))
  in
  get_repos fs (fresh (store_file w'))
  = (Ok repos, mkWorld (store_file w') (Some repos) [] 0).
Proof.
  intros fs repos w'.
  apply (store_load_round_trip fs repos
           (fresh (Some (store_line "/old" "old"))) w').
  - repeat constructor; simpl; intuition discriminate.
  - intros name path [[= <- <-]|[[= <- <-]|[]]]; vm_compute; auto.
  - reflexivity.
Defined.

Lemma load_distinct_names_witness :
  read_repos (fs_of ["/a/one/.git"; "/b/two/.git"])
    (Some (store_line "/a/one" "one" +++ nl +++ store_line "/gone" "gone"
           +++ store_line "/b/two" "two"))
  = Ok [("one", "/a/one"); ("two", "/b/two")].
Proof.
  apply (load_distinct_names (fs_of ["/a/one/.git"; "/b/two/.git"])
           (store_line "/a/one" "one" +++ nl +++ store_line "/gone" "gone"
            +++ store_line "/b/two" "two")
           [("/a/one", "one"); ("/gone", "gone"); ("/b/two", "two")]).
  - vm_compute. reflexivity.
  - vm_compute. repeat constructor; simpl; intuition discriminate.
Defined.

Lemma load_items_from_entries_witness :
  exists es,
    entries (store_line "/a/r" "r" +++ store_line "/b/r" "r") = Ok es
    /\ (forall k v,
          In (k, v) [("r", "/a/r"); ("b/r", "/b/r")] ->
          exists n,
            In (v, n) es
            /\ (k = n
                \/ k = Posixpath.join
                         (Posixpath.basename (Posixpath.dirname v)) n))
    /\ length [("r", "/a/r"); ("b/r", "/b/r")]
       <= length (filter (fun e => is_git (fs_of ["/a/r/.git"; "/b/r/.git"])
                                          (fst e)) es).
Proof.
  apply (load_items_from_entries (fs_of ["/a/r/.git"; "/b/r/.git"])).
  vm_compute. reflexivity.
Defined.

Lemma rename_repo_lookups_witness :
  exists renamed w',
    rename_repo [("a", "/r/a"); ("b", "/r/b"); ("c", "/r/c")] "a" "b"
                (fresh None)
    = (Ok renamed, w')
    /\ store_file w' = Some (store_data renamed)
    /\ Dict.get renamed "b" = Some "/r/a"
    /\ ("a" <> "b" -> Dict.get renamed "a" = None)
    /\ (forall k, k <> "a" -> k <> "b" ->
                  Dict.get renamed k
                  = Dict.get [("a", "/r/a"); ("b", "/r/b"); ("c", "/r/c")] k)
    /\ length renamed = 2
    /\ NoDup (Dict.keys renamed).
Proof.
  apply (rename_repo_lookups
           [("a", "/r/a"); ("b", "/r/b"); ("c", "/r/c")] "a" "b" "/r/a"
           (fresh None)).
  - repeat constructor; simpl; intuition discriminate.
  - reflexivity.
Defined.

Lemma rename_then_load_witness :
  f_rename (fs_of ["/x/.git"]) "old" "new"
           (fresh (Some (store_line "/x" "old")))
  = (Ok tt,
     mkWorld (Some (store_data [("new", "/x")])) (Some [("new", "/x")]) [] 0)
  /\ read_repos (fs_of ["/x/.git"]) (Some (store_data [("new", "/x")]))
     = Ok [("new", "/x")].
Proof.
  apply (rename_then_load (fs_of ["/x/.git"])
           (Some (store_line "/x" "old")) [("old", "/x")] "old" "new" "/x").
  - vm_compute. reflexivity.
  - reflexivity.
  - vm_compute. reflexivity.
Defined.

Lemma rm_then_load_witness :
  let fs := fs_of ["/r/a/.git"; "/r/b/.git"; "/r/c/.git"] in
  let s := store_line "/r/a" "a" +++ store_line "/r/b" "b"
           +++ store_line "/r/c" "c" in
  let repos := [("a", "/r/a"); ("b", "/r/b"); ("c", "/r/c")] in
  f_rm fs ["b"] (fresh (Some s))
  = (Ok tt,
     mkWorld (Some (store_data (without ["b"] repos)))
             (Some (without ["b"] repos)) [] 0)
  /\ read_repos fs (Some (store_data (without ["b"] repos)))
     = Ok (without ["b"] repos)
  /\ (forall k, Dict.get (without ["b"] repos) k
                = if inb k ["b"] then None else Dict.get repos k).
Proof.
  intros fs s repos.
  apply (rm_then_load fs s repos ["b"]).
  - vm_compute. reflexivity.
  - repeat constructor; simpl; intuition discriminate.
  - intros x [<-|[]]. simpl. tauto.
Defined.

Lemma rm_fails_without_writing_witness :
  let fs := fs_of ["/r/a/.git"; "/r/b/.git"] in
  let s := store_line "/r/a" "a" +++ store_line "/r/b" "b" in
  f_rm fs ["a"; "a"] (fresh None) = (Ok tt, fresh None)
  /\ exists k w',
       In k ["a"; "a"]
       /\ f_rm fs ["a"; "a"] (fresh (Some s)) = (Raise (KeyError k), w')
       /\ store_file w' = Some s
       /\ trace w' = [].
Proof.
  intros fs s.
  destruct (rm_fails_without_writing fs ["a"; "a"]) as [H1 H2].
  split.
  - apply H1. reflexivity.
  - apply (H2 s [("a", "/r/a"); ("b", "/r/b")]).
    + vm_compute. reflexivity.
    + intros [Hnd _]. apply NoDup_cons_iff in Hnd as [Hn _].
      apply Hn. now left.
Defined.

(** After the [KeyError] the file is as it was, and the mapping in the
    cache has lost the names that came before. *)
Example f_rm_unknown_name :
  let fs := fs_of ["/r/a/.git"; "/r/b/.git"] in
  let s := store_line "/r/a" "a" +++ store_line "/r/b" "b" in
  f_rm fs ["a"; "zz"] (fresh (Some s))
  = (Raise (KeyError "zz"), mkWorld (Some s) (Some [("b", "/r/b")]) [] 0).
Proof. vm_compute. reflexivity. Qed.



Lemma dispatch_ends_witness :
  dispatch (exits_of []) in_order [("A", "/r/A"); ("B", "/r/B")] [] []
           (fresh None)
  = (Raise IndexError, fresh None)
  /\ fst (dispatch (garbled_of [1]) in_order [("A", "/r/A"); ("B", "/r/B")]
                   ["fetch"] [] (fresh None))
     = Raise UnicodeDecodeError
  /\ (exists w',
        dispatch (exits_of [1]) in_order [("A", "/r/A"); ("B", "/r/B")]
                 ["fetch"] [] (fresh None)
        = (Ok tt, w'))
  /\ dispatch (garbled_of [0]) in_order [("A", "/r/A")] [] [] (fresh None)
     = (Ok tt,
        mkWorld None None ([] ++ [EPrint "/r/A"; ERun ["git"] "/r/A"]) 1).
Proof.
  split; [|split; [|split]].
  - apply (dispatch_ends (exits_of []) in_order
             [("A", "/r/A"); ("B", "/r/B")] [] [] (fresh None)).
    split; [reflexivity | discriminate].
  - apply (dispatch_ends (garbled_of [1]) in_order
             [("A", "/r/A"); ("B", "/r/B")] ["fetch"] [] (fresh None));
      [discriminate | discriminate | reflexivity | reflexivity].
  - apply (dispatch_ends (exits_of [1]) in_order
             [("A", "/r/A"); ("B", "/r/B")] ["fetch"] [] (fresh None)).
    right. split; [discriminate|]. now right.
  - destruct (dispatch_ends (garbled_of [0]) in_order
                [("A", "/r/A")] [] [] (fresh None)) as (_ & _ & _ & H).
    apply (H eq_refl "A" "/r/A" eq_refl).
Defined.

Lemma dispatch_spawn_bounds_witness :
  let repos := [("A", "/r/A"); ("B", "/r/B"); ("C", "/r/C")] in
  let w' := snd (dispatch (exits_of [0; 2]) in_reverse repos ["fetch"] []
                          (fresh None)) in
  exists delta,
    trace w' = [] ++ delta
    /\ length (filter is_spawn delta) = spawned w' - 0
    /\ 3 <= length (filter is_spawn delta) <= 2 * 3
    /\ store_file w' = None
    /\ repos_cache w' = None.
Proof.
  intros repos w'.
  apply (dispatch_spawn_bounds (exits_of [0; 2]) in_reverse repos
           ["fetch"] [] (fresh None) w').
  reflexivity.
Defined.

Lemma f_git_cmd_named_targets_witness :
  let every := [("A", "/r/A"); ("B", "/r/B"); ("C", "/r/C")] in
  let w := mkWorld None (Some every) [] 0 in
  exists targets,
    f_git_cmd (fs_of []) (exits_of []) in_order ["C"; "A"; "C"]
              ["fetch"] [] w
    = dispatch (exits_of []) in_order targets ["fetch"] [] w
    /\ Dict.keys targets = ["C"; "A"]
    /\ (forall k, Dict.get targets k
                  = if inb k ["C"; "A"; "C"] then Dict.get every k
                    else None).
Proof.
  intros every w.
  apply (f_git_cmd_named_targets (fs_of []) (exits_of []) in_order
           every "C" ["A"; "C"] ["fetch"] [] w).
  - reflexivity.
  - intros k [<-|[<-|[<-|[]]]]; simpl; tauto.
Defined.

Lemma f_git_cmd_unknown_target_witness :
  let every := [("A", "/r/A"); ("B", "/r/B")] in
  let w := mkWorld None (Some every) [] 0 in
  f_git_cmd (fs_of []) (exits_of []) in_order (["A"] ++ "Z" :: ["B"; "Y"])
            ["fetch"] [] w
  = (Raise (KeyError "Z"), w).
Proof.
  intros every w.
  apply (f_git_cmd_unknown_target (fs_of []) (exits_of []) in_order
           every ["A"] "Z" ["B"; "Y"] ["fetch"] [] w).
  - reflexivity.
  - intros n [<-|[]]. simpl. tauto.
  - simpl. intuition discriminate.
Defined.

Lemma f_super_splits_witness :
  let every := [("A", "/r/A"); ("B", "/r/B"); ("C", "/r/C")] in
  let w := mkWorld None (Some every) [] 0 in
  exists targets,
    f_super (fs_of []) (exits_of []) in_order
            (["B"; "A"] ++ "checkout" :: ["C"]) [] w
    = (SuperRan
         (fst (dispatch (exits_of []) in_order targets ("checkout" :: ["C"])
                        [] w)),
       snd (dispatch (exits_of []) in_order targets ("checkout" :: ["C"])
                     [] w))
    /\ (["B"; "A"] = [] -> targets = every)
    /\ (["B"; "A"] <> [] ->
        Dict.keys targets = uniq ["B"; "A"]
        /\ forall k, Dict.get targets k
                     = if inb k ["B"; "A"] then Dict.get every k else None).
Proof.
  intros every w.
  apply (f_super_splits_at_first_unregistered (fs_of []) (exits_of [])
           in_order every ["B"; "A"] "checkout" ["C"] [] w).
  - reflexivity.
  - intros n [<-|[<-|[]]]; simpl; tauto.
  - simpl. intuition discriminate.
Defined.

(** [gita super A B checkout C] runs [git checkout C] in [A] and [B]. *)
Example f_super_run :
  let every := [("A", "/r/A"); ("B", "/r/B"); ("C", "/r/C")] in
  trace (snd (f_super (fs_of []) (exits_of []) in_order
                ["A"; "B"; "checkout"; "C"] []
                (mkWorld None (Some every) [] 0)))
  = [EAsyncExec ["git"; "checkout"; "C"] "/r/A";
     EAsyncExec ["git"; "checkout"; "C"] "/r/B";
     EGathered 2].
Proof. reflexivity. Qed.

Lemma f_super_edges_witness :
  let every := [("A", "/r/A"); ("B", "/r/B")] in
  let w := mkWorld None (Some every) [] 0 in
  f_super (fs_of []) (exits_of []) in_order [] [] w = (SuperUnbound, w)
  /\ exists targets,
       f_super (fs_of []) (exits_of []) in_order (["A"] ++ ["B"]) [] w
       = (SuperRan (fst (dispatch (exits_of []) in_order targets ["B"] [] w)),
          snd (dispatch (exits_of []) in_order targets ["B"] [] w))
       /\ Dict.keys targets = uniq (["A"] ++ ["B"])
       /\ In "B" (Dict.keys targets).
Proof.
  intros every w.
  destruct (f_super_edges (fs_of []) (exits_of []) in_order every [] w
              eq_refl) as [H1 H2].
  split; [exact H1|].
  apply (H2 ["A"] "B").
  intros n [<-|[<-|[]]]; simpl; tauto.
Defined.

(** [gita super A B] runs [git B] in [A] and in [B]. *)
Example f_super_names_only :
  let every := [("A", "/r/A"); ("B", "/r/B")] in
  trace (snd (f_super (fs_of []) (exits_of []) in_order ["A"; "B"] []
                (mkWorld None (Some every) [] 0)))
  = [EAsyncExec ["git"; "B"] "/r/A"; EAsyncExec ["git"; "B"] "/r/B";
     EGathered 2].
Proof. reflexivity. Qed.

Lemma custom_cmds_shadow_default_witness :
  let default_cmds :=
    [("log", mkCmd None (Some "show log") false true);
     ("st", mkCmd (Some "status") (Some "show status") true false)] in
  let custom := [("log", mkCmd (Some "log -3") (Some "short log") false false)]
  in
  (exists cmds,
     get_cmds_from_files default_cmds (Some (YamlMap custom)) = Ok cmds
     /\ forall name,
          Cmds.get cmds name
          = match Cmds.get custom name with
            | Some data => Some data
            | None => Cmds.get default_cmds name
            end)
  /\ get_cmds_from_files default_cmds None = Ok default_cmds
  /\ get_cmds_from_files default_cmds (Some YamlNone) = Raise TypeError.
Proof.
  intros default_cmds custom.
  apply (custom_cmds_shadow_default default_cmds custom).
  repeat constructor. simpl. tauto.
Defined.

(** [gita log C A] with [log] marked [disable_async]: [git log] in [C],
    then in [A]. *)
Lemma delegated_plain_disable_async_witness :
  let cmds := [("log", mkCmd None (Some "show log") false true);
               ("st", mkCmd (Some "status") (Some "show status") true false)]
  in
  let fs := fs_of ["/r/A/.git"; "/r/B/.git"; "/r/C/.git"] in
  let file := Some (store_line "/r/A" "A" +++ store_line "/r/B" "B"
                    +++ store_line "/r/C" "C") in
  let every := [("A", "/r/A"); ("B", "/r/B"); ("C", "/r/C")] in
  main_delegated fs (exits_of []) in_order cmds "log" ["C"; "A"]
                 (fresh file)
  = (Ok tt,
     mkWorld file (Some every)
             ([] ++ serial_events ["git"; "log"] ["/r/C"; "/r/A"]) (0 + 2)).
Proof.
  intros cmds fs file every.
  apply (delegated_plain_disable_async fs (exits_of []) in_order
           cmds "log" (mkCmd None (Some "show log") false true)
           ["C"; "A"] every [("C", "/r/C"); ("A", "/r/A")]
           (fresh file) (mkWorld file (Some every) [] 0)).
  - vm_compute. reflexivity.
  - reflexivity.
  - reflexivity.
  - reflexivity.
  - reflexivity.
  - reflexivity.
  - reflexivity.
  - reflexivity.
  - reflexivity.
  - reflexivity.
Defined.

(** An alias marked [disable_async] whose command line starts with a verb
    that is not marked runs concurrently all the same; a sub-command
    without [allow_all] given no repository, and a table with an entry
    without [help], do not get as far as a dispatch. *)
Lemma delegated_serial_iff_witness :
  let lo := mkCmd (Some "log --oneline") (Some "short log") true true in
  let st := mkCmd (Some "status") (Some "show status") false false in
  let fs := fs_of ["/r/A/.git"; "/r/B/.git"] in
  let file := Some (store_line "/r/A" "A" +++ store_line "/r/B" "B") in
  let every := [("A", "/r/A"); ("B", "/r/B")] in
  let w1 := mkWorld file (Some every) [] 0 in
  main_delegated fs (exits_of []) in_order [("lo", lo); ("st", st)] "lo" []
                 (fresh file)
  <> (Ok tt,
      mkWorld file (Some every)
              ([] ++ serial_events ["git"; "log"; "--oneline"]
                                   ["/r/A"; "/r/B"]) (0 + 2))
  /\ main_delegated fs (exits_of []) in_order [("lo", lo); ("st", st)] "st" []
                    (fresh file)
     = (Raise SystemExit, w1)
  /\ main_delegated fs (exits_of []) in_order
                    [("lo", lo); ("x", mkCmd None None false false)] "lo" []
                    (fresh file)
     = (Raise TypeError, w1).
Proof.
  intros lo st fs file every w1. split; [|split].
  - intros Hrun.
    destruct (delegated_serial_iff fs (exits_of []) in_order
                [("lo", lo); ("st", st)] "lo" lo [] every every
                (fresh file) w1
                ltac:(vm_compute; reflexivity) eq_refl eq_refl eq_refl)
      as (_ & _ & H).
    apply (H eq_refl eq_refl eq_refl) in Hrun.
    destruct Hrun as [Hlen|(verb & rest & entry & Hcmd & Hin & _)].
    + discriminate.
    + vm_compute in Hcmd. injection Hcmd as <- _.
      destruct Hin as [Hin|[Hin|[]]]; discriminate.
  - destruct (delegated_serial_iff fs (exits_of []) in_order
                [("lo", lo); ("st", st)] "st" st [] every every
                (fresh file) w1
                ltac:(vm_compute; reflexivity) eq_refl eq_refl eq_refl)
      as (_ & H & _).
    apply (H eq_refl eq_refl eq_refl).
  - destruct (delegated_serial_iff fs (exits_of []) in_order
                [("lo", lo); ("x", mkCmd None None false false)] "lo" lo []
                every every (fresh file) w1
                ltac:(vm_compute; reflexivity) eq_refl eq_refl eq_refl)
      as (H & _).
    apply (H eq_refl).
Defined.

(** [gita lo] of the witness, evaluated: two concurrent children. *)
Example main_delegated_alias :
  let lo := mkCmd (Some "log --oneline") (Some "short log") true true in
  let fs := fs_of ["/r/A/.git"; "/r/B/.git"] in
  let file := Some (store_line "/r/A" "A" +++ store_line "/r/B" "B") in
  trace (snd (main_delegated fs (exits_of []) in_order [("lo", lo)] "lo" []
                             (fresh file)))
  = [EAsyncExec ["git"; "log"; "--oneline"] "/r/A";
     EAsyncExec ["git"; "log"; "--oneline"] "/r/B";
     EGathered 2].
Proof. vm_compute. reflexivity. Qed.

Lemma get_path_fname_location_witness :
  get_path_fname (Some "/cfg/") "/home/u" = "/cfg/gita/repo_path"
  /\ get_path_fname None "/home/u" = "/home/u/.config/gita/repo_path"
  /\ Posixpath.dirname (get_path_fname (Some EmptyString) "/home/u")
     = Posixpath.join (Posixpath.join "/home/u" ".config") "gita".
Proof.
  split; [reflexivity|]. split; [reflexivity|].
  destruct (get_path_fname_location (Some EmptyString) "/home/u")
    as (_ & H & _ & _ & Hroot).
  rewrite H. f_equal.
Defined.

Lemma add_twice_same_process_witness :
  let fs := fs_of ["/a/r/.git"] in
  (f_add fs "/home/u" (fun l => l) ["/a/r"] ;;;
   f_add fs "/home/u" (fun l => l) ["/a/r"]) (fresh None)
  = (Ok tt,
     mkWorld (Some ((EmptyString +++ store_line "/a/r" "r")
                    +++ store_line "/a/r" "r"))
             (Some [])
             [EPrint "Found 1 new repo(s)."; EPrint "Found 1 new repo(s)."]
             0).
Proof.
  intros fs.
  apply (add_twice_same_process fs "/home/u" (fun l => l) None [] "/a/r"
           (fun l => Permutation_refl l)).
  - reflexivity.
  - reflexivity.
  - simpl. tauto.
Defined.

Lemma f_ll_prints_one_line_each_witness :
  let fs := fs_of ["/r/ab/.git"; "/r/a/.git"] in
  let funcs := [fun _ : string => "master"; fun _ : string => "+"] in
  let file := Some (store_line "/r/ab" "ab" +++ store_line "/r/a" "a") in
  let repos := [("ab", "/r/ab"); ("a", "/r/a")] in
  exists lines,
    f_ll fs funcs (fresh file)
    = (Ok tt, mkWorld file (Some repos) (map EPrint lines) 0)
    /\ length lines = 2
    /\ Forall2 (fun name line =>
                  exists path,
                    Dict.get repos name = Some path
                    /\ line = describe_line funcs repos name path)
               (Str.sorted (Dict.keys repos)) lines.
Proof.
  intros fs funcs file repos.
  apply (f_ll_prints_one_line_each fs funcs file repos).
  vm_compute. reflexivity.
Defined.
